(** * The background cache of the TikTok download extension

    A shallow embedding of [background.js] (the TTL cache, its
    hydration and debounced write-back, key derivation and the fetch
    orchestrator) and of [logger.js] (the scoped, leveled logger),
    together with the properties stated about them; and of the parts
    of [content.js] and [popup.js] that talk to the worker or decide
    without the page: the URL patterns, the messages, the API URL, the
    response callback and the merging of state updates.

    Conventions.
    - Times are integer milliseconds ([Z]); every [Date.now()] of the
      source is an explicit argument of the embedded function, so that
      nothing is assumed about the clock.  A timeout that a function
      arms is armed at the time that function has read.
    - Strings are strings of octets (UTF-8); keys of the cache are
      strings, the falsy one being the empty string.  Messages, stored
      records and logger options have the types of the message contract
      and of the storage layout, a property that may be missing being an
      [option].
    - The module-level variables [cache], [cacheLoadPromise] and
      [persistTimeoutId] are the first three fields of [state]; the
      other fields record what the host (timers, storage, network) was
      asked to do.
    - Calls to [logger] only print to the console and are left out of
      the cache model; the logger has a model of its own in [Logger]. *)

From Stdlib Require Import ZArith Lia Ascii String.
From stdpp Require Import base tactics option list gmap strings fin_maps pretty.

Local Open Scope Z_scope.

(** ** Values *)

#[local] Set Warnings "-register-all".

(** JSON values: the payload of a response and what durable storage
    holds.  Numbers are kept by their integer value. *)
Inductive json : Type :=
  | JNull
  | JBool (b : bool)
  | JNum (n : Z)
  | JStr (s : string)
  | JArr (items : list json)
  | JObj (fields : list (string * json)).

(** JavaScript truthiness, [!!v]. *)
Definition truthy (v : json) : bool :=
  match v with
  | JNull => false
  | JBool b => b
  | JNum n => negb (n =? 0)
  | JStr s => negb (String.eqb s "")
  | JArr _ | JObj _ => true
  end.

(** Truthiness of a string, [!!s]. *)
Definition truthy_str (s : string) : bool := negb (String.eqb s "").

(** [x || 0] for a number that may be missing. *)
Definition or_zero (t : option Z) : Z :=
  match t with
  | Some z => z
  | None => 0
  end.

(** ** The cache and its host *)

Definition CACHE_TTL_MS : Z := 1000 * 60 * 60.
Definition PERSIST_DELAY_MS : Z := 2000.

(** A value of the map: [{ data, timestamp }].  The timestamp is
    whatever was stored, which for a hydrated entry may be missing. *)
Record entry : Type := Entry {
  data : json;
  timestamp : option Z
}.

(** One element of the stored array: [{ key, data, timestamp }], each
    property possibly missing. *)
Record stored : Type := Stored {
  s_key : option string;
  s_data : option json;
  s_timestamp : option Z
}.

(** What the code asks of its host. *)
Inductive host_call : Type :=
  | StorageGet
  | StorageSet (snapshot : list stored)
  | Fetch (url : string).

(** The promise created by [ensureCacheLoaded]. *)
Record promise : Type := Promise {
  promise_id : nat;
  resolved : bool
}.

Record state : Type := State {
  cache : gmap string entry;
  cacheLoadPromise : option promise;
  persistTimeoutId : option positive;
  (* host side *)
  timers : list (positive * Z);      (* armed timeouts: id, due time *)
  nextTimerId : positive;
  promisesCreated : nat;
  hostCalls : list host_call         (* oldest first *)
}.

Definition initial : state :=
  {| cache := ∅; cacheLoadPromise := None; persistTimeoutId := None;
     timers := []; nextTimerId := 1%positive; promisesCreated := 0%nat;
     hostCalls := [] |}.

Definition set_cache (m : gmap string entry) (st : state) : state :=
  {| cache := m; cacheLoadPromise := cacheLoadPromise st;
     persistTimeoutId := persistTimeoutId st; timers := timers st;
     nextTimerId := nextTimerId st; promisesCreated := promisesCreated st;
     hostCalls := hostCalls st |}.

Definition call_host (c : host_call) (st : state) : state :=
  {| cache := cache st; cacheLoadPromise := cacheLoadPromise st;
     persistTimeoutId := persistTimeoutId st; timers := timers st;
     nextTimerId := nextTimerId st; promisesCreated := promisesCreated st;
     hostCalls := hostCalls st ++ [c] |}.

(** ** A state monad for the synchronous functions *)

Definition M (A : Type) : Type := state → A * state.

Definition ret {A} (a : A) : M A := λ st, (a, st).
Definition bind {A B} (m : M A) (k : A → M B) : M B :=
  λ st, let (a, st') := m st in k a st'.
Definition gets {A} (f : state → A) : M A := λ st, (f st, st).
Definition modify (f : state → state) : M unit := λ st, (tt, f st).

Notation "'let*' x ':=' m 'in' k" := (bind m (λ x, k))
  (at level 10, x name, m at level 100, k at level 200, only parsing).
Notation "m ';;' k" := (bind m (λ _, k))
  (at level 100, k at level 200, right associativity, only parsing).

Definition exec {A} (m : M A) (st : state) : state := snd (m st).
Definition eval {A} (m : M A) (st : state) : A := fst (m st).

(** ** Write-back *)

(** [setTimeout(persistCache, 2000)] called at host time [now]. *)
Definition setTimeout_persist (now : Z) : M positive := λ st,
  let id := nextTimerId st in
  (id, {| cache := cache st; cacheLoadPromise := cacheLoadPromise st;
          persistTimeoutId := persistTimeoutId st;
          timers := timers st ++ [(id, now + PERSIST_DELAY_MS)];
          nextTimerId := Pos.succ id; promisesCreated := promisesCreated st;
          hostCalls := hostCalls st |}).

Definition set_persistTimeoutId (v : option positive) : M unit :=
  modify (λ st,
    {| cache := cache st; cacheLoadPromise := cacheLoadPromise st;
       persistTimeoutId := v; timers := timers st;
       nextTimerId := nextTimerId st; promisesCreated := promisesCreated st;
       hostCalls := hostCalls st |}).

Definition schedulePersist (now : Z) : M unit :=
  let* pending := gets persistTimeoutId in
  match pending with
  | Some _ => ret tt
  | None =>
      let* id := setTimeout_persist now in
      set_persistTimeoutId (Some id)
  end.

Definition serialize (m : gmap string entry) : list stored :=
  (λ kv : string * entry,
     {| s_key := Some kv.1; s_data := Some (data kv.2);
        s_timestamp := timestamp kv.2 |}) <$> map_to_list m.

Definition persistCache : M unit :=
  set_persistTimeoutId None ;;
  let* m := gets cache in
  modify (call_host (StorageSet (serialize m))).

(** ** Lookup, upsert, prune *)

Definition entry_age (now : Z) (e : entry) : Z := now - or_zero (timestamp e).

Definition expired (now : Z) (e : entry) : bool :=
  CACHE_TTL_MS <? entry_age now e.

(** The result of a successful lookup, [{ data, age }]. *)
Record hit : Type := Hit {
  hit_data : json;
  age : Z
}.

Definition cacheLookup (key : string) (now : Z) : M (option hit) :=
  if negb (truthy_str key) then ret None else
  let* m := gets cache in
  match m !! key with
  | None => ret None
  | Some e =>
      let a := entry_age now e in
      if CACHE_TTL_MS <? a then
        modify (set_cache (delete key m)) ;;
        schedulePersist now ;;
        ret None
      else ret (Some {| hit_data := data e; age := a |})
  end.

Definition upsertCache (key : string) (d : json) (now : Z) : M unit :=
  if negb (truthy_str key) || negb (truthy d) then ret tt else
  let* m := gets cache in
  modify (set_cache (<[key := {| data := d; timestamp := Some now |}]> m)) ;;
  schedulePersist now.

(** One turn of the [forEach] of [pruneExpiredEntries]. *)
Definition prune_step (now : Z) (acc : gmap string entry * nat)
    (kv : string * entry) : gmap string entry * nat :=
  if expired now kv.2 then (delete kv.1 acc.1, S acc.2) else acc.

(** The whole [forEach]: the map left and the count of removals. *)
Definition prune_scan (now : Z) (m : gmap string entry)
    : gmap string entry * nat :=
  foldl (prune_step now) (m, 0%nat) (map_to_list m).

Definition pruneExpiredEntries (now : Z) : M unit :=
  let* m := gets cache in
  let '(m', removed) := prune_scan now m in
  modify (set_cache m') ;;
  if (0 <? removed)%nat then schedulePersist now else ret tt.

(** ** Hydration *)

Definition set_cacheLoadPromise (p : option promise) : M unit :=
  modify (λ st,
    {| cache := cache st; cacheLoadPromise := p;
       persistTimeoutId := persistTimeoutId st; timers := timers st;
       nextTimerId := nextTimerId st; promisesCreated := promisesCreated st;
       hostCalls := hostCalls st |}).

(** [new Promise(...)]: a fresh promise, not yet resolved. *)
Definition new_Promise : M promise := λ st,
  let p := {| promise_id := promisesCreated st; resolved := false |} in
  (p, {| cache := cache st; cacheLoadPromise := cacheLoadPromise st;
         persistTimeoutId := persistTimeoutId st; timers := timers st;
         nextTimerId := nextTimerId st;
         promisesCreated := S (promisesCreated st);
         hostCalls := hostCalls st |}).

(** The synchronous part of [ensureCacheLoaded]: it returns the shared
    promise, creating it and issuing [chrome.storage.local.get] when
    there is none yet. *)
Definition ensureCacheLoaded : M nat :=
  let* shared := gets cacheLoadPromise in
  match shared with
  | Some p => ret (promise_id p)
  | None =>
      let* p := new_Promise in
      modify (call_host StorageGet) ;;
      set_cacheLoadPromise (Some p) ;;
      ret (promise_id p)
  end.

(** One turn of [storedEntries.forEach]; [None] stands for an element
    that is falsy. *)
Definition admit_stored (now : Z) (m : gmap string entry)
    (e : option stored) : gmap string entry :=
  match e with
  | None => m
  | Some r =>
      match s_key r with
      | None => m
      | Some k =>
          if negb (truthy_str k) then m else
          let a := now - or_zero (s_timestamp r) in
          match s_data r with
          | Some d =>
              if (a <=? CACHE_TTL_MS) && truthy d
              then <[k := {| data := d; timestamp := s_timestamp r |}]> m
              else m
          | None => m
          end
      end
  end.

Definition resolve_cacheLoadPromise : M unit :=
  let* shared := gets cacheLoadPromise in
  set_cacheLoadPromise
    ((λ p, {| promise_id := promise_id p; resolved := true |}) <$> shared).

(** The callback of [chrome.storage.local.get].  [result] is the value
    read under [CACHE_STORAGE_KEY], [None] when it is not an array;
    [now] is read by the callback, [now'] by [pruneExpiredEntries]. *)
Definition hydrate (result : option (list (option stored))) (now now' : Z)
    : M unit :=
  let storedEntries := default [] result in
  let* m := gets cache in
  modify (set_cache (foldl (admit_stored now) m storedEntries)) ;;
  (if (0 <? length storedEntries)%nat then pruneExpiredEntries now'
   else ret tt) ;;
  resolve_cacheLoadPromise.

(** ** The host firing a timeout *)

Definition clear_timer (id : positive) : M unit :=
  modify (λ st,
    {| cache := cache st; cacheLoadPromise := cacheLoadPromise st;
       persistTimeoutId := persistTimeoutId st;
       timers := filter (λ t : positive * Z, t.1 ≠ id) (timers st);
       nextTimerId := nextTimerId st; promisesCreated := promisesCreated st;
       hostCalls := hostCalls st |}).

Definition fire_timer (id : positive) : M unit :=
  clear_timer id ;; persistCache.

(** ** Platform functions used by key derivation *)

Module Platform.

Local Open Scope N_scope.

Definition code (c : ascii) : N := N_of_ascii c.

Definition hex_val (c : ascii) : option N :=
  let n := code c in
  if (48 <=? n) && (n <=? 57) then Some (n - 48)
  else if (65 <=? n) && (n <=? 70) then Some (n - 55)
  else if (97 <=? n) && (n <=? 102) then Some (n - 87)
  else None.

Definition percent : ascii := "%"%char.

(** *** [decodeURIComponent] *)

(** A character of the input, or the octet of an escape [%XX]. *)
Inductive token : Type :=
  | Lit (c : ascii)
  | Esc (b : N).

(** Escapes are read strictly: a [%] that is not followed by two
    hexadecimal digits is a [URIError]. *)
Fixpoint tokens (s : string) : option (list token) :=
  match s with
  | EmptyString => Some []
  | String c tl =>
      if Ascii.eqb c percent then
        match tl with
        | String a (String b rest) =>
            match hex_val a, hex_val b with
            | Some x, Some y =>
                match tokens rest with
                | Some ts => Some (Esc (16 * x + y) :: ts)
                | None => None
                end
            | _, _ => None
            end
        | _ => None
        end
      else
        match tokens tl with
        | Some ts => Some (Lit c :: ts)
        | None => None
        end
  end.

(** Where a UTF-8 decoder stands inside a code point. *)
Inductive utf8_state : Type :=
  | Start
  | Cont (more : nat)            (* that many octets 80..BF, and one more *)
  | After (lo hi : N) (more : nat). (* next octet in lo..hi, then Cont *)

Definition cont_octet (b : N) : bool := (128 <=? b) && (b <=? 191).

Definition utf8_lead (b : N) : option utf8_state :=
  if b <? 128 then Some Start
  else if (194 <=? b) && (b <=? 223) then Some (Cont 0)
  else if b =? 224 then Some (After 160 191 0)
  else if b =? 237 then Some (After 128 159 0)
  else if (225 <=? b) && (b <=? 239) then Some (Cont 1)
  else if b =? 240 then Some (After 144 191 1)
  else if b =? 244 then Some (After 128 143 1)
  else if (241 <=? b) && (b <=? 243) then Some (Cont 2)
  else None.

Definition utf8_next (st : utf8_state) (b : N) : option utf8_state :=
  match st with
  | Start => utf8_lead b
  | Cont O => if cont_octet b then Some Start else None
  | Cont (S n) => if cont_octet b then Some (Cont n) else None
  | After lo hi n => if (lo <=? b) && (b <=? hi) then Some (Cont n) else None
  end.

(** The octets of escapes must spell well-formed UTF-8, each code
    point wholly in escapes; the result keeps the octets. *)
Fixpoint assemble (st : utf8_state) (ts : list token) : option string :=
  match ts with
  | [] => match st with Start => Some EmptyString | _ => None end
  | Lit c :: ts' =>
      match st with
      | Start => String c <$> assemble Start ts'
      | _ => None
      end
  | Esc b :: ts' =>
      match utf8_next st b with
      | Some st' => String (ascii_of_N b) <$> assemble st' ts'
      | None => None
      end
  end.

(** [decodeURIComponent(s)]; [None] is a thrown [URIError]. *)
Definition decodeURIComponent (s : string) : option string :=
  match tokens s with
  | Some ts => assemble Start ts
  | None => None
  end.

(** A [%] that is not followed by two hexadecimal digits. *)
Definition is_hex (c : ascii) : bool :=
  match hex_val c with Some _ => true | None => false end.

Fixpoint bad_escape (s : string) : bool :=
  match s with
  | EmptyString => false
  | String c tl =>
      (Ascii.eqb c percent
       && negb match tl with
               | String a (String b _) => is_hex a && is_hex b
               | _ => false
               end)
      || bad_escape tl
  end.

(** *** [URLSearchParams] *)

(** The percent-decoding of the URL standard: an escape that is not
    well formed is kept as it is. *)
Fixpoint percent_decode (s : string) : string :=
  match s with
  | EmptyString => EmptyString
  | String c tl =>
      if Ascii.eqb c percent then
        match tl with
        | String a (String b rest) =>
            match hex_val a, hex_val b with
            | Some x, Some y =>
                String (ascii_of_N (16 * x + y)) (percent_decode rest)
            | _, _ => String c (percent_decode tl)
            end
        | _ => String c (percent_decode tl)
        end
      else String c (percent_decode tl)
  end.

Fixpoint plus_to_space (s : string) : string :=
  match s with
  | EmptyString => EmptyString
  | String c tl =>
      String (if Ascii.eqb c "+"%char then " "%char else c) (plus_to_space tl)
  end.

(** [split_on sep s]: the pieces of [s] between occurrences of [sep]. *)
Fixpoint split_on (sep : ascii) (s : string) : list string :=
  match s with
  | EmptyString => [EmptyString]
  | String c tl =>
      if Ascii.eqb c sep then EmptyString :: split_on sep tl
      else
        match split_on sep tl with
        | piece :: pieces => String c piece :: pieces
        | [] => [String c EmptyString]
        end
  end.

(** [cut_at sep s]: [s] up to its first [sep], and what follows it. *)
Fixpoint cut_at (sep : ascii) (s : string) : string * string :=
  match s with
  | EmptyString => (EmptyString, EmptyString)
  | String c tl =>
      if Ascii.eqb c sep then (EmptyString, tl)
      else let (a, b) := cut_at sep tl in (String c a, b)
  end.

(** U+FFFD in UTF-8. *)
Definition replacement : string :=
  String (ascii_of_N 239) (String (ascii_of_N 191)
    (String (ascii_of_N 189) EmptyString)).

(** The UTF-8 decoder of the Encoding standard, kept in octets: well
    formed code points pass, every ill-formed run becomes U+FFFD.
    [pending] holds the octets of the code point being read. *)
Fixpoint utf8_lossy (st : utf8_state) (pending : string) (s : string)
    : string :=
  match s with
  | EmptyString =>
      match st with Start => EmptyString | _ => replacement end
  | String c tl =>
      match utf8_next st (code c) with
      | Some Start => pending +:+ String c (utf8_lossy Start EmptyString tl)
      | Some st' => utf8_lossy st' (pending +:+ String c EmptyString) tl
      | None =>
          match st with
          | Start => replacement +:+ utf8_lossy Start EmptyString tl
          | _ =>
              (* the octet is read again as the first of a code point *)
              replacement +:+
              match utf8_lead (code c) with
              | Some Start => String c (utf8_lossy Start EmptyString tl)
              | Some st' => utf8_lossy st' (String c EmptyString) tl
              | None => replacement +:+ utf8_lossy Start EmptyString tl
              end
          end
      end
  end.

(** What the parser does to a name and to a value. *)
Definition form_decode (s : string) : string :=
  utf8_lossy Start EmptyString (percent_decode (plus_to_space s)).

(** The [application/x-www-form-urlencoded] parser on a query string. *)
Definition parse_urlencoded (query : string) : list (string * string) :=
  (λ piece, let (n, v) := cut_at "="%char piece in
            (form_decode n, form_decode v))
    <$> filter (λ piece, piece ≠ EmptyString) (split_on "&"%char query).

(** [searchParams.get(name)]: the first value under [name], or null. *)
Definition get (name : string) (params : list (string * string))
    : option string :=
  snd <$> find (λ p : string * string, String.eqb p.1 name) params.

End Platform.

(** [new URL(s).search] without its leading question mark; [None] when
    the constructor throws.  The URL parser of the host is a parameter
    of the model. *)
Class URLParser : Type := new_URL : string → option string.

(** A parser for the URLs the extension builds: [http://] or [https://],
    a host of letters, digits, dots and hyphens, then path, query and
    fragment.  It rejects everything else, which the host's parser does
    not; it is used on concrete URLs of that shape only. *)
Module SimpleURL.

Import Platform.
Local Open Scope N_scope.

Definition host_char (c : ascii) : bool :=
  let n := code c in
  ((48 <=? n) && (n <=? 57)) || ((65 <=? n) && (n <=? 90))
  || ((97 <=? n) && (n <=? 122)) || (n =? 45) || (n =? 46).

Definition url_char (c : ascii) : bool :=
  let n := code c in (32 <? n) && (n <? 127).

Fixpoint all_chars (p : ascii → bool) (s : string) : bool :=
  match s with
  | EmptyString => true
  | String c tl => p c && all_chars p tl
  end.

Definition after_scheme (s : string) : option string :=
  match s with
  | String "h" (String "t" (String "t" (String "p" (String ":"
      (String "/" (String "/" rest)))))) => Some rest
  | String "h" (String "t" (String "t" (String "p" (String "s"
      (String ":" (String "/" (String "/" rest))))))) => Some rest
  | _ => None
  end.

Definition parse (s : string) : option string :=
  if negb (all_chars url_char s) then None else
  match after_scheme s with
  | None => None
  | Some rest =>
      let (before_fragment, _) := cut_at "#"%char rest in
      let (hier, query) := cut_at "?"%char before_fragment in
      let (host, _) := cut_at "/"%char hier in
      if negb (String.eqb host EmptyString) && all_chars host_char host
      then Some query else None
  end.

End SimpleURL.

(** ** Key derivation *)

(** The message of the popup: [{ action, apiUrl, cacheKey, url,
    normalizedUrl }]; a property that may be missing is an option. *)
Record request : Type := Request {
  action : string;
  apiUrl : string;
  cacheKey : option string;
  url : option string;
  normalizedUrl : option string
}.

(** [a || b] on strings that may be null or undefined. *)
Definition js_or (a b : option string) : option string :=
  match a with
  | Some v => if truthy_str v then a else b
  | None => b
  end.

Definition deriveCacheKey {U : URLParser} (req : request) : string :=
  let explicit := default EmptyString (cacheKey req) in
  if truthy_str explicit then explicit else
  match new_URL (apiUrl req) with
  | None => apiUrl req
  | Some query =>
      let params := Platform.parse_urlencoded query in
      let targetUrl :=
        js_or (Platform.get "url" params) (Platform.get "source" params) in
      match targetUrl with
      | Some v =>
          if truthy_str v then
            match Platform.decodeURIComponent v with
            | Some decoded => decoded
            | None => apiUrl req
            end
          else apiUrl req
      | None => apiUrl req
      end
  end.

(** ** The fetch orchestrator *)

(** The value [handleFetchTikTokData] resolves with. *)
Record result : Type := Result {
  r_data : json;
  cacheHit : bool;
  cacheAge : Z
}.

(** How the promise of a request settles: its value, or the message of
    the [Error] thrown. *)
Inductive outcome : Type :=
  | Resolve (r : result)
  | Reject (message : string).

(** What [fetch] settles with. *)
Inductive fetch_settled : Type :=
  | NetworkError (message : string)
  | Response (status : N).

(** [response.ok]. *)
Definition response_ok (status : N) : bool :=
  ((200 <=? status) && (status <=? 299))%N.

(** A request between two suspension points of [handleFetchTikTokData]. *)
Inductive task : Type :=
  | AwaitHydration (req : request)
  | AwaitFetch (req : request) (key : string)
  | AwaitJson (key : string) (status : N)
  | Settled (o : outcome).

(** Up to [await ensureCacheLoaded()]. *)
Definition handle_start (req : request) : M task :=
  ensureCacheLoaded ;; ret (AwaitHydration req).

(** From hydration to the call of [fetch]; [now] is read by
    [pruneExpiredEntries] and [now'] by [cacheLookup]. *)
Definition handle_hydrated {U : URLParser} (req : request) (now now' : Z)
    : M task :=
  pruneExpiredEntries now ;;
  let key := deriveCacheKey req in
  let* cached := cacheLookup key now' in
  match cached with
  | Some h =>
      ret (Settled (Resolve
        {| r_data := hit_data h; cacheHit := true; cacheAge := age h |}))
  | None =>
      modify (call_host (Fetch (apiUrl req))) ;;
      ret (AwaitFetch req key)
  end.

(** From the settling of [fetch] to [await response.json()]. *)
Definition handle_fetched (key : string) (r : fetch_settled) : task :=
  match r with
  | NetworkError message =>
      Settled (Reject
        (if truthy_str message then message else "Network error"))
  | Response status =>
      if negb (response_ok status)
      then Settled (Reject ("HTTP error: " +:+ pretty status))
      else AwaitJson key status
  end.

(** From the settling of [response.json()] to the end; [None] is a body
    that does not parse. *)
Definition handle_parsed (key : string) (body : option json) (now : Z)
    : M task :=
  match body with
  | None => ret (Settled (Reject "Failed to parse API response"))
  | Some payload =>
      upsertCache key payload now ;;
      ret (Settled (Resolve
        {| r_data := payload; cacheHit := false; cacheAge := 0 |}))
  end.

(** What the host delivers to a suspended request. *)
Inductive delivery : Type :=
  | Hydrated (now now' : Z)
  | Fetched (r : fetch_settled)
  | Parsed (body : option json) (now : Z).

Definition resume {U : URLParser} (t : task) (d : delivery) : M task :=
  match t, d with
  | AwaitHydration req, Hydrated now now' => handle_hydrated req now now'
  | AwaitFetch _ key, Fetched r => ret (handle_fetched key r)
  | AwaitJson key _, Parsed body now => handle_parsed key body now
  | _, _ => ret t
  end.

(** Everything the host answers to one request that runs alone, in a
    run where each of its awaits settles; [host], further down, also
    says whether they do. *)
Record world : Type := World {
  w_stored : option (list (option stored));
  w_hydrate : Z;
  w_hydrate_prune : Z;
  w_prune : Z;
  w_lookup : Z;
  w_fetch : fetch_settled;
  w_body : option json;
  w_upsert : Z
}.

(** The storage callback, when it has not run yet. *)
Definition await_hydration (w : world) : M unit :=
  let* shared := gets cacheLoadPromise in
  match shared with
  | Some p =>
      if resolved p then ret tt
      else hydrate (w_stored w) (w_hydrate w) (w_hydrate_prune w)
  | None => ret tt
  end.

(** The state in which a request that runs alone resumes after
    [await ensureCacheLoaded()]. *)
Definition after_hydration (w : world) (st : state) : state :=
  exec (await_hydration w) (exec ensureCacheLoaded st).

(** [handleFetchTikTokData(request)] run alone up to the point where it
    has answered from the cache or has called [fetch]. *)
Definition handle_until_fetch {U : URLParser} (req : request) (w : world)
    : M task :=
  let* t0 := handle_start req in
  await_hydration w ;;
  resume t0 (Hydrated (w_prune w) (w_lookup w)).

(** [handleFetchTikTokData(request)] run to its end with no other
    request in between. *)
Definition handleFetchTikTokData {U : URLParser} (req : request) (w : world)
    : M task :=
  let* t1 := handle_until_fetch req w in
  let* t2 := resume t1 (Fetched (w_fetch w)) in
  resume t2 (Parsed (w_body w) (w_upsert w)).

(** ** The message listener *)

Inductive reply : Type :=
  | ReplyResult (r : result)
  | ReplyError (error : string)
  | ReplyAck (url : option string).

(** The [.then] and [.catch] of the listener. *)
Definition reply_of (o : outcome) : reply :=
  match o with
  | Resolve r => ReplyResult r
  | Reject message =>
      ReplyError (if truthy_str message then message else "Unknown error")
  end.

(** What the listener does with a message at once. *)
Inductive dispatch : Type :=
  | Ignored
  | Replied (r : reply)
  | Started (t : task).

Definition onMessage (msg : option request) : M dispatch :=
  match msg with
  | None => ret Ignored
  | Some req =>
      if negb (truthy_str (action req)) then ret Ignored
      else if String.eqb (action req) "fetchTikTokData" then
        let* t := handle_start req in ret (Started t)
      else if String.eqb (action req) "content.videoDetected" then
        ret (Replied (ReplyAck (js_or (normalizedUrl req) (url req))))
      else ret Ignored
  end.

(** The reply to a [fetchTikTokData] request that runs alone. *)
Definition reply_to {U : URLParser} (req : request) (w : world) : M (option reply) :=
  let* t := handleFetchTikTokData req w in
  match t with
  | Settled o => ret (Some (reply_of o))
  | _ => ret None
  end.

(** ** The service worker as a transition system *)

(** What can happen in the worker: the host delivers a message, answers
    the storage read, resumes a suspended request or fires a timeout; or
    one of the cache functions is called on its own. *)
Inductive event : Type :=
  | MessageArrives (msg : option request)
  | StorageAnswers (result : option (list (option stored))) (now now' : Z)
  | TaskResumes (t : task) (d : delivery)
  | TimerFires (id : positive) (now : Z)
  | CallEnsureCacheLoaded
  | CallPrune (now : Z)
  | CallLookup (key : string) (now : Z)
  | CallUpsert (key : string) (d : json) (now : Z).

Definition enabled (ev : event) (st : state) : Prop :=
  match ev with
  | StorageAnswers _ _ _ =>
      ∃ p, cacheLoadPromise st = Some p ∧ resolved p = false
  | TimerFires id now => ∃ due, (id, due) ∈ timers st ∧ due ≤ now
  | _ => True
  end.

Definition perform {U : URLParser} (ev : event) : M unit :=
  match ev with
  | MessageArrives msg => onMessage msg ;; ret tt
  | StorageAnswers result now now' => hydrate result now now'
  | TaskResumes t d => resume t d ;; ret tt
  | TimerFires id _ => fire_timer id
  | CallEnsureCacheLoaded => ensureCacheLoaded ;; ret tt
  | CallPrune now => pruneExpiredEntries now
  | CallLookup key now => cacheLookup key now ;; ret tt
  | CallUpsert key d now => upsertCache key d now
  end.

Inductive reachable {U : URLParser} : state → Prop :=
  | reachable_initial : reachable initial
  | reachable_step st ev :
      reachable st → enabled ev st → reachable (exec (perform ev) st).

(** Running a list of events, oldest first. *)
Definition run {U : URLParser} (evs : list event) (st : state) : state :=
  foldl (λ s ev, exec (perform ev) s) st evs.

(** The snapshots written to durable storage so far. *)
Definition writes (st : state) : list (list stored) :=
  omap (λ c, match c with StorageSet s => Some s | _ => None end)
       (hostCalls st).

Definition is_read (c : host_call) : bool :=
  match c with StorageGet => true | _ => false end.

(** The number of reads of durable storage so far. *)
Definition reads (st : state) : nat :=
  length (filter (λ c, is_read c = true) (hostCalls st)).

Definition fetches (st : state) : list string :=
  omap (λ c, match c with Fetch u => Some u | _ => None end) (hostCalls st).

(** Every mapped key and every cached payload is truthy. *)
Definition cache_ok (st : state) : Prop :=
  map_Forall (λ (k : string) (e : entry), k ≠ "" ∧ truthy (data e) = true)
             (cache st).

(** At most one timeout is armed, and it is the one [persistTimeoutId]
    names. *)
Definition timer_ok (st : state) : Prop :=
  match persistTimeoutId st with
  | None => timers st = []
  | Some id => ∃ due, timers st = [(id, due)]
  end.

(** There is a read of durable storage exactly when the shared promise
    exists, and that promise is the first one created. *)
Definition hydration_ok (st : state) : Prop :=
  match cacheLoadPromise st with
  | None => reads st = 0%nat ∧ promisesCreated st = 0%nat
  | Some p => reads st = 1%nat ∧ promisesCreated st = 1%nat
              ∧ promise_id p = 0%nat
  end.

(** [s] has the shared promise, the reads and the promise count of [st]. *)
Definition same_hydration (st s : state) : Prop :=
  promise_id <$> cacheLoadPromise s = promise_id <$> cacheLoadPromise st
  ∧ reads s = reads st ∧ promisesCreated s = promisesCreated st.

(** The events in which [ensureCacheLoaded] is called: a call of its
    own, and the arrival of a [fetchTikTokData] message. *)
Definition is_ensure (ev : event) : bool :=
  match ev with
  | CallEnsureCacheLoaded => true
  | MessageArrives (Some req) =>
      truthy_str (action req) && String.eqb (action req) "fetchTikTokData"
  | _ => false
  end.

(** The promises returned by the calls of [ensureCacheLoaded] in a run. *)
Fixpoint returned {U : URLParser} (evs : list event) (st : state) : list nat :=
  match evs with
  | [] => []
  | ev :: evs' =>
      (if is_ensure ev then [eval ensureCacheLoaded st] else [])
      ++ returned evs' (exec (perform ev) st)
  end.

(** ** The logger *)

Module Logger.

Inductive level : Type := debug | info | warn | error.

Definition LEVEL_ORDER (l : level) : nat :=
  match l with
  | debug => 0
  | info => 1
  | warn => 2
  | error => 3
  end%nat.

Definition level_name (l : level) : string :=
  match l with
  | debug => "debug"
  | info => "info"
  | warn => "warn"
  | error => "error"
  end.

(** [LEVEL_ORDER.hasOwnProperty(s)], with the level it names. *)
Definition known_level (s : string) : option level :=
  if String.eqb s "debug" then Some debug
  else if String.eqb s "info" then Some info
  else if String.eqb s "warn" then Some warn
  else if String.eqb s "error" then Some error
  else None.

Definition lower (c : ascii) : ascii :=
  let n := N_of_ascii c in
  if ((65 <=? n) && (n <=? 90))%N then ascii_of_N (n + 32) else c.

Definition upper (c : ascii) : ascii :=
  let n := N_of_ascii c in
  if ((97 <=? n) && (n <=? 122))%N then ascii_of_N (n - 32) else c.

Fixpoint map_chars (f : ascii → ascii) (s : string) : string :=
  match s with
  | EmptyString => EmptyString
  | String c tl => String (f c) (map_chars f tl)
  end.

Definition toLowerCase : string → string := map_chars lower.
Definition toUpperCase : string → string := map_chars upper.

(** [String.prototype.trim] on the white space of ASCII. *)
Fixpoint trim_start (s : string) : string :=
  match s with
  | EmptyString => EmptyString
  | String c tl => if Ascii.is_space c then trim_start tl else s
  end.

Fixpoint trim_end (s : string) : string :=
  match s with
  | EmptyString => EmptyString
  | String c tl =>
      let t := trim_end tl in
      if Ascii.is_space c && String.eqb t EmptyString then EmptyString
      else String c t
  end.

Definition trim (s : string) : string := trim_end (trim_start s).

(** A string that does not begin with white space. *)
Definition starts_clean (s : string) : bool :=
  match s with
  | EmptyString => true
  | String c _ => negb (Ascii.is_space c)
  end.

Definition sanitizeScope (scope : string) : string :=
  if negb (truthy_str scope) then "app"
  else let t := trim scope in if truthy_str t then t else "app".

(** [level] is the argument as given, [None] when there is none;
    [globalLevel] is the module variable. *)
Definition resolveLevel (globalLevel : level) (lvl : option string) : level :=
  match lvl with
  | None => globalLevel
  | Some s =>
      if negb (truthy_str s) then globalLevel
      else default globalLevel (known_level (toLowerCase s))
  end.

Definition shouldLog (globalLevel : level) (lvl : option string) : bool :=
  let levelKey := resolveLevel globalLevel lvl in
  (LEVEL_ORDER globalLevel <=? LEVEL_ORDER levelKey)%nat.

(** [options.denyList]: missing, one name, or an array of names. *)
Inductive deny : Type :=
  | DenyMissing
  | DenyOne (name : string)
  | DenyArray (names : list string).

Record options : Type := Options {
  opt_level : option string;
  opt_denyList : deny
}.

(** [options = {}]. *)
Definition no_options : options :=
  {| opt_level := None; opt_denyList := DenyMissing |}.

(** [(Array.isArray(d) ? d : [d]).filter(Boolean)]. *)
Definition deny_names (d : deny) : list string :=
  match d with
  | DenyMissing => []
  | DenyOne name => filter (λ n, truthy_str n = true) [name]
  | DenyArray names => filter (λ n, truthy_str n = true) names
  end.

(** The names written in [options.denyList]. *)
Definition configured (d : deny) : list string :=
  match d with
  | DenyMissing => []
  | DenyOne name => [name]
  | DenyArray names => names
  end.

(** What the closures of one logger capture. *)
Record logger : Type := Logger {
  loggerScope : string;
  localLevel : level;
  denied : gset string;
  captured : options
}.

(** [globalLevel] is the global level at the time of the call. *)
Definition createScopedLogger (globalLevel : level) (scope : string)
    (opts : options) : logger :=
  {| loggerScope := sanitizeScope scope;
     localLevel := resolveLevel globalLevel (opt_level opts);
     denied := list_to_set (sanitizeScope <$> deny_names (opt_denyList opts));
     captured := opts |}.

(** One call of a console method. *)
Record record : Type := Record_ {
  method : level;
  prefix : string;
  message : string;
  args : list json
}.

(** [log(level, message, ...args)] by logger [lg] when the global level
    is [globalLevel]; [timestamp] is [new Date().toISOString()]. *)
Definition log (globalLevel : level) (lg : logger) (lvl : option string)
    (msg : string) (rest : list json) (timestamp : string) : option record :=
  let targetLevel := resolveLevel globalLevel lvl in
  if negb (shouldLog globalLevel (Some (level_name targetLevel)))
     || (LEVEL_ORDER targetLevel <? LEVEL_ORDER (localLevel lg))%nat
  then None
  else if bool_decide (loggerScope lg ∈ denied lg) then None
  else Some
    {| method := targetLevel;
       prefix := "[" +:+ timestamp +:+ "] [" +:+ loggerScope lg +:+ "] ["
                 +:+ toUpperCase (level_name targetLevel) +:+ "]";
       message := msg;
       args := rest |}.

(** [logger.child(suffix)]. *)
Definition child (globalLevel : level) (lg : logger) (suffix : string)
    : logger :=
  createScopedLogger globalLevel
    (loggerScope lg +:+ ":" +:+ sanitizeScope suffix) (captured lg).



(** [createScopedLogger.setLevel(level)]: the new global level. *)
Definition setLevel (globalLevel : level) (lvl : option string) : level :=
  resolveLevel globalLevel lvl.

End Logger.

(** ** Sample inputs *)

(** The cache after [upsert("a", {v: 1})] at time 0 in a fresh worker. *)
Definition sample_payload : json := JObj [("v", JNum 1)].
Definition sample_entry : entry :=
  {| data := sample_payload; timestamp := Some 0 |}.
Definition sample_state : state :=
  exec (upsertCache "a" sample_payload 0) initial.

(** The request of the popup for one video, and a host that answers
    it with a given status and body in a worker that has nothing stored. *)
Definition sample_apiUrl : string :=
  "https://api.example/x?url=https%3A%2F%2Fsite%2Fv%2F1&api_key=Demo".

Definition sample_request : request :=
  {| action := "fetchTikTokData"; apiUrl := sample_apiUrl;
     cacheKey := None; url := None; normalizedUrl := None |}.

Definition sample_world (status : N) (body : option json) : world :=
  {| w_stored := Some []; w_hydrate := 1700000000000;
     w_hydrate_prune := 1700000000000; w_prune := 1700000000001;
     w_lookup := 1700000000001; w_fetch := Response status;
     w_body := body; w_upsert := 1700000000350 |}.

(** A burst of upserts: key, payload and time of each, oldest first. *)
Definition burst (ups : list (string * json * Z)) : list event :=
  (λ u : string * json * Z, CallUpsert u.1.1 u.1.2 u.2) <$> ups.

(** An upsert that [upsertCache] does not refuse. *)
Definition effective (u : string * json * Z) : Prop :=
  u.1.1 ≠ "" ∧ truthy u.1.2 = true.

(** The entry the last upsert of [k] in a burst leaves. *)
Fixpoint last_upsert (k : string) (ups : list (string * json * Z))
    : option entry :=
  match ups with
  | [] => None
  | u :: rest =>
      match last_upsert k rest with
      | Some e => Some e
      | None =>
          if decide (u.1.1 = k)
          then Some {| data := u.1.2; timestamp := Some u.2 |}
          else None
      end
  end.

Definition sample_burst : list (string * json * Z) :=
  [("a", JNum 1, 10); ("b", JStr "x", 700); ("a", JNum 2, 1900)].

Definition sample_burst_state : state :=
  run (U := SimpleURL.parse) (burst sample_burst) initial.

(** Three calls of [ensureCacheLoaded], the storage callback coming
    after the second. *)
Definition sample_calls : list event :=
  [MessageArrives (Some sample_request); CallEnsureCacheLoaded;
   StorageAnswers (Some []) 1700000000000 1700000000000;
   MessageArrives (Some sample_request)].

(** Durable storage holding one entry stamped five seconds after the
    time at which the worker hydrates. *)
Definition sample_future_storage : option (list (option stored)) :=
  Some [Some {| s_key := Some "k"; s_data := Some sample_payload;
                s_timestamp := Some 1700000005000 |}].

Definition sample_hydrated : state :=
  run (U := SimpleURL.parse)
      [MessageArrives (Some sample_request);
       StorageAnswers sample_future_storage 1700000000000 1700000000000]
      initial.

(** The state in which the sample request ends when the endpoint
    answers 200 with the body [null]. *)
Definition sample_null_state : state :=
  exec (handleFetchTikTokData (U := SimpleURL.parse) sample_request
          (sample_world 200 (Some JNull))) initial.

(** Requests without an explicit key, for a given endpoint URL. *)
Definition request_for (u : string) : request :=
  {| action := "fetchTikTokData"; apiUrl := u;
     cacheKey := None; url := None; normalizedUrl := None |}.

(** A request with an explicit key. *)
Definition sample_keyed_request : request :=
  {| action := "fetchTikTokData"; apiUrl := sample_apiUrl;
     cacheKey := Some "https://www.tiktok.com/@u/video/1";
     url := None; normalizedUrl := None |}.

(** A logger created with a local level and a deny-list. *)
Definition sample_logger : Logger.logger :=
  Logger.createScopedLogger Logger.debug "background"
    {| Logger.opt_level := Some "WARN";
       Logger.opt_denyList := Logger.DenyMissing |}.

Definition sample_denied_logger : Logger.logger :=
  Logger.createScopedLogger Logger.debug " popup "
    {| Logger.opt_level := None;
       Logger.opt_denyList := Logger.DenyArray ["content"; "popup"] |}.

(** The value of a query parameter written without [&] and [#]. *)
Definition value_char (c : ascii) : bool :=
  SimpleURL.url_char c && negb (Ascii.eqb c "&") && negb (Ascii.eqb c "#").

(** The sample endpoint with any [api_key], after and before [url]. *)
Definition api_key_last (k : string) : string :=
  "https://api.example/x?url=https%3A%2F%2Fsite%2Fv%2F1&api_key=" +:+ k.

Definition api_key_first (k : string) : string :=
  "https://api.example/x?api_key=" +:+ k
  +:+ "&url=https%3A%2F%2Fsite%2Fv%2F1".

(** ** What hydration admits *)

(** The binding that one turn of [storedEntries.forEach] sets at time
    [now], when it sets one: the element has a truthy key and truthy
    data and is not older than the TTL. *)
Definition admission (now : Z) (e : option stored) : option (string * entry) :=
  match e with
  | Some {| s_key := Some k; s_data := Some d; s_timestamp := ts |} =>
      if truthy_str k && truthy d && (now - or_zero ts <=? CACHE_TTL_MS)
      then Some (k, {| data := d; timestamp := ts |})
      else None
  | _ => None
  end.

(** A fresh worker in which a request has just called
    [ensureCacheLoaded], and the same worker once storage has answered. *)
Definition loading : state := exec ensureCacheLoaded initial.

Definition hydrated_from (result : option (list (option stored)))
    (now now' : Z) : state :=
  exec (hydrate result now now') loading.

(** A stored array with elements that are not admitted, and two
    elements for one key. *)
Definition sample_storage : list (option stored) :=
  [None;
   Some {| s_key := None; s_data := Some (JNum 1); s_timestamp := Some 990 |};
   Some {| s_key := Some "k"; s_data := Some (JStr "old"); s_timestamp := Some 900 |};
   Some {| s_key := Some "j"; s_data := Some JNull; s_timestamp := Some 990 |};
   Some {| s_key := Some "k"; s_data := Some (JStr "new"); s_timestamp := Some 950 |};
   Some {| s_key := Some "s"; s_data := Some (JNum 7); s_timestamp := None |}].

(** The sample cache with a second entry, made five seconds later. *)
Definition sample_two : state := exec (upsertCache "b" (JNum 2) 5000) sample_state.

(** The record [persistCache] writes for one entry of the map. *)
Definition record_of (kv : string * entry) : stored :=
  {| s_key := Some kv.1; s_data := Some (data kv.2);
     s_timestamp := timestamp kv.2 |}.

(** What [chrome.storage.local.get] answers after a write of
    [snapshot]. *)
Definition read_back (snapshot : list stored) : option (list (option stored)) :=
  Some (Some <$> snapshot).

(** The worker after the sample request has been answered 200 with the
    sample payload, and a host for the same request a minute later. *)
Definition sample_served : state :=
  exec (handleFetchTikTokData (U := SimpleURL.parse) sample_request
          (sample_world 200 (Some sample_payload))) initial.

Definition sample_later_world : world :=
  {| w_stored := None; w_hydrate := 0; w_hydrate_prune := 0;
     w_prune := 1700000060000; w_lookup := 1700000060350;
     w_fetch := NetworkError "offline"; w_body := None;
     w_upsert := 1700000060400 |}.

(** A second burst, after the write of the first. *)
Definition sample_burst2 : list (string * json * Z) :=
  [("b", JStr "y", 5000); ("c", JBool true, 5100)].

(** ** Shapes of scope names *)

(** A string that does not end with white space. *)
Fixpoint ends_clean (s : string) : bool :=
  match s with
  | EmptyString => true
  | String c tl =>
      match tl with
      | EmptyString => negb (Ascii.is_space c)
      | String _ _ => ends_clean tl
      end
  end.

(** A string of white space only. *)
Fixpoint all_space (s : string) : bool :=
  match s with
  | EmptyString => true
  | String c tl => Ascii.is_space c && all_space tl
  end.

(** A string of ASCII characters. *)
Definition ascii_only (s : string) : bool :=
  SimpleURL.all_chars (λ c, (Platform.code c <? 128)%N) s.

(** ** The URL patterns *)

(** The regular expressions of the two scripts use literals, classes,
    [?] and [+] only, with no flags; [test] on one of them says whether
    some part of the text is in its language. *)
Module Regex.

Import Platform.
Local Open Scope N_scope.

Inductive re : Type :=
  | Void                          (* no text at all *)
  | Eps                           (* the empty text *)
  | One (p : ascii → bool)        (* one character of a class *)
  | Seq (a b : re)
  | Alt (a b : re)
  | Star (a : re).

(** [r?] and [r+]. *)
Definition opt (r : re) : re := Alt r Eps.
Definition plus (r : re) : re := Seq r (Star r).

(** A literal text. *)
Fixpoint lit (s : string) : re :=
  match s with
  | EmptyString => Eps
  | String c tl => Seq (One (Ascii.eqb c)) (lit tl)
  end.

(** [\d] and [\w]. *)
Definition digit (c : ascii) : bool :=
  let n := code c in (48 <=? n) && (n <=? 57).

Definition word (c : ascii) : bool :=
  let n := code c in
  ((48 <=? n) && (n <=? 57)) || ((65 <=? n) && (n <=? 90))
  || ((97 <=? n) && (n <=? 122)) || (n =? 95).

(** The language of an expression. *)
Inductive lang : re → string → Prop :=
  | lang_eps : lang Eps EmptyString
  | lang_one p c : p c = true → lang (One p) (String c EmptyString)
  | lang_seq a b s t : lang a s → lang b t → lang (Seq a b) (s +:+ t)
  | lang_alt_l a b s : lang a s → lang (Alt a b) s
  | lang_alt_r a b s : lang b s → lang (Alt a b) s
  | lang_star_nil a : lang (Star a) EmptyString
  | lang_star_cons a s t :
      lang a s → lang (Star a) t → lang (Star a) (s +:+ t).

(** Matching by derivatives. *)
Fixpoint nullable (r : re) : bool :=
  match r with
  | Void => false
  | Eps => true
  | One _ => false
  | Seq a b => nullable a && nullable b
  | Alt a b => nullable a || nullable b
  | Star _ => true
  end.

Fixpoint deriv (c : ascii) (r : re) : re :=
  match r with
  | Void => Void
  | Eps => Void
  | One p => if p c then Eps else Void
  | Seq a b =>
      Alt (Seq (deriv c a) b) (if nullable a then deriv c b else Void)
  | Alt a b => Alt (deriv c a) (deriv c b)
  | Star a => Seq (deriv c a) (Star a)
  end.

(** Some text at the start of [s] is in the language of [r]. *)
Fixpoint prefix_match (s : string) (r : re) : bool :=
  nullable r
  || match s with
     | EmptyString => false
     | String c tl => prefix_match tl (deriv c r)
     end.

(** [pattern.test(s)]. *)
Fixpoint test (r : re) (s : string) : bool :=
  prefix_match s r
  || match s with
     | EmptyString => false
     | String _ tl => test r tl
     end.

(** [https?:\/\/(www\.)?], with which every pattern begins. *)
Definition origin : re :=
  Seq (lit "http") (Seq (opt (lit "s")) (Seq (lit "://") (opt (lit "www.")))).

(** [[\w.-]]. *)
Definition handle (c : ascii) : bool :=
  word c || Ascii.eqb c "."%char || Ascii.eqb c "-"%char.

(** All the characters there are. *)
Definition all_ascii : list ascii := ascii_of_nat <$> seq 0 256.

(** Every class of [r] is within [q]. *)
Fixpoint classes_in (q : ascii → bool) (r : re) : bool :=
  match r with
  | Void | Eps => true
  | One p => forallb (λ c, implb (p c) (q c)) all_ascii
  | Seq a b | Alt a b => classes_in q a && classes_in q b
  | Star a => classes_in q a
  end.

(** White space of ASCII, and the octets of the characters beyond
    ASCII. *)
Definition blank (c : ascii) : bool :=
  Ascii.is_space c || (128 <=? code c).

(** What [String.prototype.trim] is taken to do: it drops white space at
    the two ends, which in UTF-8 is white space of ASCII or a run of
    octets beyond ASCII. *)
Definition trims (trim : string → string) : Prop :=
  ∀ s, ∃ a b, s = a +:+ trim s +:+ b
              ∧ SimpleURL.all_chars blank a = true
              ∧ SimpleURL.all_chars blank b = true.

End Regex.

(** ** The content script *)

Module Content.

Import Regex.

Definition TIKTOK_URL_PATTERNS : list re :=
  [ Seq origin (Seq (lit "tiktok.com/@") (Seq (plus (One handle))
      (Seq (lit "/video/") (plus (One digit)))));
    Seq origin (Seq (lit "vm.tiktok.com/") (plus (One word)));
    Seq origin (Seq (lit "m.tiktok.com/v/") (plus (One digit))) ].

Definition isValidTikTokUrl (url : string) : bool :=
  existsb (λ pattern, test pattern url) TIKTOK_URL_PATTERNS.

(** The messages that [processCurrentPage] sends for the page at
    [href]; [normalizeTikTokUrl] is the function of the script, which
    rests on the URL parser of the host.  A property that a message
    does not have is [None], and an [apiUrl] it does not have is
    empty. *)
Definition processCurrentPage (normalizeTikTokUrl : string → string)
    (href : string) : list request :=
  if negb (isValidTikTokUrl href) then []
  else
    [ {| action := "content.videoDetected"; apiUrl := "";
         cacheKey := None; url := Some href;
         normalizedUrl := Some (normalizeTikTokUrl href) |};
      {| action := "checkTikTokVideo"; apiUrl := "";
         cacheKey := None; url := Some (normalizeTikTokUrl href);
         normalizedUrl := None |} ].

End Content.

(** ** The popup's side of a request *)

Module Popup.

Import Platform.
Local Open Scope N_scope.

Definition TIKTOK_PATTERNS : list Regex.re :=
  [ Regex.Seq Regex.origin (Regex.Seq (Regex.lit "tiktok.com/@")
      (Regex.Seq (Regex.plus (Regex.One Regex.handle))
        (Regex.Seq (Regex.lit "/video/") (Regex.plus (Regex.One Regex.digit)))));
    Regex.Seq Regex.origin (Regex.Seq (Regex.lit "tiktok.com/@")
      (Regex.Seq (Regex.plus (Regex.One Regex.handle))
        (Regex.Seq (Regex.lit "/photo/") (Regex.plus (Regex.One Regex.digit)))));
    Regex.Seq Regex.origin (Regex.Seq (Regex.lit "vm.tiktok.com/")
      (Regex.plus (Regex.One Regex.word)));
    Regex.Seq Regex.origin (Regex.Seq (Regex.lit "m.tiktok.com/v/")
      (Regex.plus (Regex.One Regex.digit))) ].

(** [url] is [None] when it is null or undefined; [trim] is
    [String.prototype.trim]. *)
Definition isValidTikTokUrl (trim : string → string) (url : option string)
    : bool :=
  match url with
  | None => false
  | Some u =>
      if negb (truthy_str u) then false
      else existsb (λ pattern, Regex.test pattern (trim u)) TIKTOK_PATTERNS
  end.

Definition API_ENDPOINT : string :=
  "https://api.ag7-dev.de/v1/tiktok/tiktok.php".

(** *** [URLSearchParams], as the popup builds one *)

(** The octets the serializer writes as they are: letters, digits and
    [*], [-], [.], [_]. *)
Definition form_safe (c : ascii) : bool :=
  let n := code c in
  ((48 <=? n) && (n <=? 57)) || ((65 <=? n) && (n <=? 90))
  || ((97 <=? n) && (n <=? 122))
  || (n =? 42) || (n =? 45) || (n =? 46) || (n =? 95).

Definition hex_digit (n : N) : ascii :=
  ascii_of_N (if n <? 10 then 48 + n else 55 + n).

(** One octet of the UTF-8 form of a name or value. *)
Definition form_encode_octet (c : ascii) : string :=
  if form_safe c then String c EmptyString
  else if Ascii.eqb c " "%char then "+"%string
  else String percent
         (String (hex_digit (code c / 16))
            (String (hex_digit (code c mod 16)) EmptyString)).

Fixpoint form_encode (s : string) : string :=
  match s with
  | EmptyString => EmptyString
  | String c tl => form_encode_octet c +:+ form_encode tl
  end.

(** [params.toString()]. *)
Fixpoint to_string (params : list (string * string)) : string :=
  match params with
  | [] => EmptyString
  | (n, v) :: rest =>
      form_encode n +:+ "=" +:+ form_encode v
      +:+ match rest with
          | [] => EmptyString
          | _ :: _ => "&" +:+ to_string rest
          end
  end.

(** [params.set(name, value)]: the first pair under [name] takes the
    value and the other pairs under it go; when there is none, the pair
    is appended. *)
Fixpoint set_first (name value : string) (params : list (string * string))
    : list (string * string) :=
  match params with
  | [] => []
  | (n, v) :: rest =>
      if String.eqb n name
      then (n, value) :: filter (λ p : string * string, p.1 ≠ name) rest
      else (n, v) :: set_first name value rest
  end.

Definition set (name value : string) (params : list (string * string))
    : list (string * string) :=
  if existsb (λ p : string * string, String.eqb p.1 name) params
  then set_first name value params
  else params ++ [(name, value)].

Definition buildApiUrl (url : string) (includeDemoKey : bool) : string :=
  let params := [] in
  let params := if includeDemoKey then set "api_key" "Demo" params
                else params in
  let params := set "url" url params in
  API_ENDPOINT +:+ "?" +:+ to_string params.

(** The message of [fetchTikTokData], [normalized] being what
    [normalizeTikTokUrl] returned. *)
Definition fetch_message (normalized : string) (includeDemoKey : bool)
    : request :=
  {| action := "fetchTikTokData";
     apiUrl := buildApiUrl normalized includeDemoKey;
     cacheKey := Some normalized;
     url := None; normalizedUrl := None |}.

(** How the promise of [fetchTikTokData] settles: with the response and
    the two URLs added to it, or with the message of an [Error]. *)
Inductive settled : Type :=
  | Delivered (response : reply) (apiUrl normalized : string)
  | Failed (message : string).

(** [response.error], falsy when the response has none. *)
Definition error_of (response : reply) : string :=
  match response with
  | ReplyError e => e
  | _ => EmptyString
  end.

(** The callback of [chrome.runtime.sendMessage]: [lastError] is the
    message of [chrome.runtime.lastError] when it is set, [response] the
    argument of the callback when it is not undefined. *)
Definition on_response (apiUrl normalized : string)
    (lastError : option string) (response : option reply) : settled :=
  match lastError with
  | Some message => Failed message
  | None =>
      match response with
      | None => Failed "No response from background service."
      | Some r =>
          if truthy_str (error_of r) then Failed (error_of r)
          else Delivered r apiUrl normalized
      end
  end.

(** The query of the URL that [buildApiUrl] writes, as a text. *)
Definition query_of (url : string) (includeDemoKey : bool) : string :=
  (if includeDemoKey then "api_key=Demo&url=" else "url=")
  +:+ form_encode url.

(** Octets that a serialized name or value is made of. *)
Definition query_char (c : ascii) : bool :=
  form_safe c || Ascii.eqb c "+"%char || Ascii.eqb c percent.

End Popup.

(** ** The state of the popup *)

Module PopupState.

(** A JavaScript object with string keys, its properties in order. *)
Definition object : Type := list (string * json).

(** [o[key]], [None] when [o] has no such property. *)
Definition get (key : string) (o : object) : option json :=
  snd <$> find (λ p : string * json, String.eqb p.1 key) o.

(** [o[key] = value]. *)
Fixpoint assign (key : string) (value : json) (o : object) : object :=
  match o with
  | [] => [(key, value)]
  | (k, v) :: rest =>
      if String.eqb k key then (k, value) :: rest
      else (k, v) :: assign key value rest
  end.

(** [{...a, ...b}]. *)
Definition spread (a b : object) : object :=
  foldl (λ acc kv, assign kv.1 kv.2 acc)
    (foldl (λ acc kv, assign kv.1 kv.2 acc) [] a) b.

(** One turn of the loop of [mergeState]. *)
Definition merge_entry (st : object) (kv : string * json) : object :=
  match kv.2, get kv.1 st with
  | JObj fields, Some (JObj current) =>
      assign kv.1 (JObj (spread current fields)) st
  | _, _ => assign kv.1 kv.2 st
  end.

(** The popup: its [state], the flag [renderQueued], the animation
    frames asked of the host and not yet run, and the states that
    [render] has drawn. *)
Record page : Type := Page {
  fields : object;
  renderQueued : bool;
  frames : nat;
  drawn : list object
}.

Definition queueRender (pg : page) : page :=
  if renderQueued pg then pg
  else {| fields := fields pg; renderQueued := true;
          frames := S (frames pg); drawn := drawn pg |}.

(** [updates] holds JSON values; a property that is [undefined] is not
    modelled. *)
Definition mergeState (updates : object) (pg : page) : page :=
  queueRender
    {| fields := foldl merge_entry (fields pg) updates;
       renderQueued := renderQueued pg;
       frames := frames pg; drawn := drawn pg |}.

(** The host runs the callback given to [requestAnimationFrame]. *)
Definition animation_frame (pg : page) : page :=
  {| fields := fields pg; renderQueued := false;
     frames := pred (frames pg); drawn := drawn pg ++ [fields pg] |}.

(** The state the popup starts with. *)
Definition initial_state : object :=
  [ ("phase", JStr "idle"); ("contentType", JNull);
    ("manualMode", JBool false); ("manualUrl", JStr "");
    ("status", JObj [("message", JStr ""); ("type", JStr "")]);
    ("loading", JObj [("primary", JBool false); ("music", JBool false)]);
    ("theme", JStr "light"); ("terminalVisible", JBool true);
    ("meta", JNull); ("musicMeta", JNull);
    ("cacheHit", JBool false); ("cacheAge", JNum 0);
    ("activeUrl", JNull) ].

Definition initial_page : page :=
  {| fields := initial_state; renderQueued := false; frames := 0;
     drawn := [] |}.

End PopupState.

(** The pattern of the popup for photo posts. *)
Definition photo_pattern : Regex.re :=
  Regex.Seq Regex.origin (Regex.Seq (Regex.lit "tiktok.com/@")
    (Regex.Seq (Regex.plus (Regex.One Regex.handle))
      (Regex.Seq (Regex.lit "/photo/") (Regex.plus (Regex.One Regex.digit))))).

(** A photo post. *)
Definition sample_photo : string :=
  "https://www.tiktok.com/@some.user/photo/7301".

(** A short link inside the URL of another site. *)
Definition sample_foreign : string :=
  "https://example.org/?next=https://vm.tiktok.com/ZM123/#top".

(** A page URL with an escape in it. *)
Definition sample_page : string :=
  "https://www.tiktok.com/@u/video/1?q=a%20b".

(** ** A host that may leave an await pending *)

(** [handleFetchTikTokData] awaits three times: the hydration promise,
    [fetch] and [response.json()].  Nothing in the source bounds how
    long the host takes: [fetch] is called without a timeout and the
    storage callback is the only thing that resolves the hydration
    promise.  A [host] says what the host answers with, and whether
    each of the three answers ever comes. *)
Record host : Type := Host {
  h_world : world;
  storage_answers : bool;
  fetch_settles : bool;
  body_settles : bool
}.

(** The hydration promise exists and has not been resolved. *)
Definition hydration_pending (st : state) : bool :=
  match cacheLoadPromise st with
  | Some p => negb (resolved p)
  | None => false
  end.

(** [handleFetchTikTokData(request)] run alone as far as the host lets
    it: the task it returns is the await at which the request stays
    suspended, or [Settled]. *)
Definition request_under {U : URLParser} (req : request) (h : host)
    : M task :=
  let w := h_world h in
  let* t0 := handle_start req in
  let* pending := gets hydration_pending in
  if pending && negb (storage_answers h) then ret t0 else
  await_hydration w ;;
  let* t1 := resume t0 (Hydrated (w_prune w) (w_lookup w)) in
  match t1 with
  | AwaitFetch _ _ =>
      if negb (fetch_settles h) then ret t1 else
      let* t2 := resume t1 (Fetched (w_fetch w)) in
      match t2 with
      | AwaitJson _ _ =>
          if negb (body_settles h) then ret t2
          else resume t2 (Parsed (w_body w) (w_upsert w))
      | _ => ret t2
      end
  | _ => ret t1
  end.

(** What the listener has sent back: [sendResponse] is called in the
    [.then] and the [.catch] of the request only, so there is no reply
    while the request is suspended. *)
Definition reply_under {U : URLParser} (req : request) (h : host)
    : M (option reply) :=
  let* t := request_under req h in
  match t with
  | Settled o => ret (Some (reply_of o))
  | _ => ret None
  end.

(** The map after [upsert("a", {v: 1})] at time 1000 in a fresh
    worker. *)
Definition sample_stamped_state : state :=
  exec (upsertCache "a" sample_payload 1000) initial.



(** * Properties *)

(** ** Unfolding the monad *)

Ltac unfold_monad :=
  unfold exec, eval, bind, ret, gets, modify in *.

Lemma truthy_str_true (s : string) : truthy_str s = true ↔ s ≠ "".
Proof.
  unfold truthy_str. destruct (String.eqb_spec s ""); simpl; split; congruence.
Qed.

Lemma truthy_str_false (s : string) : truthy_str s = false ↔ s = "".
Proof.
  unfold truthy_str. destruct (String.eqb_spec s ""); simpl; split; congruence.
Qed.

(** ** Scheduling a persist *)

Lemma schedulePersist_pending now st :
  schedulePersist now st = (tt, st) ∧ is_Some (persistTimeoutId st)
  ∨ persistTimeoutId st = None
    ∧ persistTimeoutId (exec (schedulePersist now) st) = Some (nextTimerId st)
    ∧ timers (exec (schedulePersist now) st)
      = timers st ++ [(nextTimerId st, now + PERSIST_DELAY_MS)]
    ∧ nextTimerId (exec (schedulePersist now) st) = Pos.succ (nextTimerId st).
Proof.
  unfold schedulePersist, setTimeout_persist, set_persistTimeoutId.
  unfold_monad. simpl.
  destruct (persistTimeoutId st) eqn:E; [left | right]; eauto.
Qed.

Lemma schedulePersist_is_Some now st :
  is_Some (persistTimeoutId (exec (schedulePersist now) st)).
Proof.
  destruct (schedulePersist_pending now st) as [[Hrun ?] | (_ & Hid & _)].
  - unfold exec. rewrite Hrun. assumption.
  - rewrite Hid. eauto.
Qed.

Lemma schedulePersist_frame now st :
  let st' := exec (schedulePersist now) st in
  cache st' = cache st ∧ cacheLoadPromise st' = cacheLoadPromise st
  ∧ hostCalls st' = hostCalls st ∧ promisesCreated st' = promisesCreated st.
Proof.
  unfold schedulePersist, setTimeout_persist, set_persistTimeoutId.
  unfold_monad. simpl. destruct (persistTimeoutId st); simpl; auto.
Qed.

(** ** Lookup *)

Lemma cacheLookup_falsy now st : cacheLookup "" now st = (None, st).
Proof. reflexivity. Qed.

Lemma cacheLookup_unmapped key now st :
  cache st !! key = None → cacheLookup key now st = (None, st).
Proof.
  intros Hnone. unfold cacheLookup.
  destruct (truthy_str key); simpl; [| reflexivity].
  unfold_monad. simpl. rewrite Hnone. reflexivity.
Qed.

Lemma cacheLookup_expired key now st e :
  key ≠ "" → cache st !! key = Some e → CACHE_TTL_MS < entry_age now e →
  cacheLookup key now st
  = (None, exec (schedulePersist now) (set_cache (delete key (cache st)) st)).
Proof.
  intros Hkey Hsome Hold. apply truthy_str_true in Hkey.
  unfold cacheLookup. rewrite Hkey. simpl.
  assert (Hlt : (CACHE_TTL_MS <? entry_age now e) = true)
    by (apply Z.ltb_lt; lia).
  unfold bind at 1. unfold gets at 1. simpl. rewrite Hsome, Hlt.
  unfold bind, modify, ret, exec.
  destruct (schedulePersist now _) as [[] st2]. reflexivity.
Qed.

Lemma cacheLookup_fresh key now st e :
  key ≠ "" → cache st !! key = Some e → entry_age now e ≤ CACHE_TTL_MS →
  cacheLookup key now st
  = (Some {| hit_data := data e; age := entry_age now e |}, st).
Proof.
  intros Hkey Hsome Hfresh. apply truthy_str_true in Hkey.
  unfold cacheLookup. rewrite Hkey. simpl.
  assert (Hlt : (CACHE_TTL_MS <? entry_age now e) = false)
    by (apply Z.ltb_ge; lia).
  unfold_monad. simpl. rewrite Hsome, Hlt. reflexivity.
Qed.

(** C1. [cacheLookup] answers absent for a falsy key, for a key that is
    not mapped, and for an entry older than the TTL of 3600000 ms, its
    age being [now - (timestamp || 0)]; in that last case the entry is
    deleted and a persist is scheduled.  An entry whose age is at most
    the TTL, so also exactly the TTL, is answered with its data and
    that age, and nothing changes.  For an entry stamped [t], as every
    upsert leaves, the age is [now - t]: it is answered up to
    [t + 3600000] and absent after. *)
Theorem cacheLookup_cases (key : string) (now : Z) (st : state) :
  CACHE_TTL_MS = 3600000
  ∧ (key = "" → cacheLookup key now st = (None, st))
  ∧ (cache st !! key = None → cacheLookup key now st = (None, st))
  ∧ (∀ e, key ≠ "" → cache st !! key = Some e →
       3600000 < now - or_zero (timestamp e) →
       let st' := exec (cacheLookup key now) st in
       eval (cacheLookup key now) st = None
       ∧ cache st' = delete key (cache st)
       ∧ st' = exec (schedulePersist now) (set_cache (delete key (cache st)) st)
       ∧ is_Some (persistTimeoutId st')
       ∧ (persistTimeoutId st = None →
            ∃ id, persistTimeoutId st' = Some id
                  ∧ (id, now + 2000) ∈ timers st'))
  ∧ (∀ e, key ≠ "" → cache st !! key = Some e →
       now - or_zero (timestamp e) ≤ 3600000 →
       cacheLookup key now st
       = (Some {| hit_data := data e;
                  age := now - or_zero (timestamp e) |}, st))
  ∧ (∀ d t, key ≠ "" →
       cache st !! key = Some {| data := d; timestamp := Some t |} →
       (now ≤ t + 3600000 →
        cacheLookup key now st
        = (Some {| hit_data := d; age := now - t |}, st))
       ∧ (t + 3600000 < now →
          eval (cacheLookup key now) st = None
          ∧ cache (exec (cacheLookup key now) st) = delete key (cache st)))
  ∧ (∀ d, key ≠ "" →
       cache st !! key = Some {| data := d; timestamp := None |} →
       now ≤ 3600000 →
       cacheLookup key now st = (Some {| hit_data := d; age := now |}, st)).
Proof.
  assert (∀ e, key ≠ "" → cache st !! key = Some e →
       3600000 < now - or_zero (timestamp e) →
       let st' := exec (cacheLookup key now) st in
       eval (cacheLookup key now) st = None
       ∧ cache st' = delete key (cache st)
       ∧ st' = exec (schedulePersist now) (set_cache (delete key (cache st)) st)
       ∧ is_Some (persistTimeoutId st')
       ∧ (persistTimeoutId st = None →
            ∃ id, persistTimeoutId st' = Some id
                  ∧ (id, now + 2000) ∈ timers st')) as Hexpired.
  { intros e Hkey Hsome Hold st'. subst st'.
    pose proof (cacheLookup_expired key now st e Hkey Hsome Hold) as Hrun.
    set (st1 := set_cache (delete key (cache st)) st) in *.
    assert (Hst : exec (cacheLookup key now) st
                  = exec (schedulePersist now) st1)
      by (unfold exec at 1; rewrite Hrun; reflexivity).
    assert (Hev : eval (cacheLookup key now) st = None)
      by (unfold eval; rewrite Hrun; reflexivity).
    rewrite Hst, Hev.
    destruct (schedulePersist_frame now st1) as (Hc & _).
    split; [reflexivity |]. split; [rewrite Hc; reflexivity |].
    split; [reflexivity |]. split; [apply schedulePersist_is_Some |].
    intros Hnot.
    destruct (schedulePersist_pending now st1)
      as [[_ [x Hx]] | (_ & Hid & Ht & _)].
    - subst st1. simpl in Hx. congruence.
    - exists (nextTimerId st1). split; [exact Hid |].
      rewrite Ht. apply elem_of_app. right. apply list_elem_of_singleton.
      reflexivity. }
  assert (∀ e, key ≠ "" → cache st !! key = Some e →
       now - or_zero (timestamp e) ≤ 3600000 →
       cacheLookup key now st
       = (Some {| hit_data := data e;
                  age := now - or_zero (timestamp e) |}, st)) as Hfresh.
  { intros e Hkey Hsome Hage.
    exact (cacheLookup_fresh key now st e Hkey Hsome Hage). }
  split; [reflexivity |].
  split; [intros ->; apply cacheLookup_falsy |].
  split; [apply cacheLookup_unmapped |].
  split; [exact Hexpired |]. split; [exact Hfresh |].
  split.
  - intros d t Hkey Hsome. split.
    + intros Hle. apply (Hfresh _ Hkey Hsome). simpl. lia.
    + intros Hlt.
      destruct (Hexpired _ Hkey Hsome) as (Hnone & Hcache & _);
        [simpl; lia |].
      split; [exact Hnone | exact Hcache].
  - intros d Hkey Hsome Hle.
    rewrite (Hfresh _ Hkey Hsome); [| simpl; lia].
    simpl. by rewrite Z.sub_0_r.
Qed.

Lemma cacheLookup_cases_witness :
  cacheLookup "a" 3600001 sample_stamped_state
  = (Some {| hit_data := sample_payload; age := 3599001 |},
     sample_stamped_state)
  ∧ cacheLookup "a" 3601000 sample_stamped_state
    = (Some {| hit_data := sample_payload; age := 3600000 |},
       sample_stamped_state)
  ∧ eval (cacheLookup "a" 3601001) sample_stamped_state = None
  ∧ cache (exec (cacheLookup "a" 3601001) sample_stamped_state) !! "a" = None
  ∧ eval (cacheLookup "a" 3600001) sample_state = None
  ∧ cacheLookup "a" 3600000 sample_state
    = (Some {| hit_data := sample_payload; age := 3600000 |}, sample_state).
Proof.
  assert (Hkey : "a" ≠ "") by discriminate.
  assert (Hmap : cache sample_stamped_state !! "a"
                 = Some {| data := sample_payload; timestamp := Some 1000 |})
    by (vm_compute; reflexivity).
  assert (Hmap0 : cache sample_state !! "a" = Some sample_entry)
    by (vm_compute; reflexivity).
  destruct (cacheLookup_cases "a" 3600001 sample_stamped_state)
    as (_ & _ & _ & _ & _ & Hstamped1 & _).
  destruct (cacheLookup_cases "a" 3601000 sample_stamped_state)
    as (_ & _ & _ & _ & _ & Hstamped2 & _).
  destruct (cacheLookup_cases "a" 3601001 sample_stamped_state)
    as (_ & _ & _ & _ & _ & Hstamped3 & _).
  destruct (cacheLookup_cases "a" 3600001 sample_state)
    as (_ & _ & _ & Hexpired & _).
  destruct (cacheLookup_cases "a" 3600000 sample_state)
    as (_ & _ & _ & _ & Hfresh & _).
  destruct (Hstamped1 _ _ Hkey Hmap) as (Hhit1 & _).
  destruct (Hstamped2 _ _ Hkey Hmap) as (Hhit2 & _).
  destruct (Hstamped3 _ _ Hkey Hmap) as (_ & Hgone).
  destruct Hgone as (Hnone & Hdel); [lia |].
  destruct (Hexpired sample_entry Hkey Hmap0) as (Habsent & _);
    [simpl; lia |].
  split; [apply Hhit1; lia |].
  split; [apply Hhit2; lia |].
  split; [exact Hnone |].
  split; [rewrite Hdel; apply lookup_delete_eq |].
  split; [exact Habsent |].
  apply (Hfresh sample_entry Hkey Hmap0). simpl. lia.
Defined.

(** ** Pruning *)

Lemma prune_fold_lookup now (l : list (string * entry)) m n k :
  (foldl (prune_step now) (m, n) l).1 !! k
  = if existsb (λ kv, bool_decide (kv.1 = k) && expired now kv.2) l
    then None else m !! k.
Proof.
  revert m n. induction l as [| [k0 e0] l IH]; intros m n; simpl; [done |].
  unfold prune_step at 2. simpl.
  destruct (expired now e0) eqn:He; simpl.
  - rewrite IH. rewrite andb_true_r.
    destruct (bool_decide_reflect (k0 = k)) as [-> | Hne]; simpl.
    + rewrite lookup_delete_eq. by destruct (existsb _ l).
    + by rewrite lookup_delete_ne.
  - rewrite IH. by rewrite andb_false_r.
Qed.

Lemma prune_fold_count now (l : list (string * entry)) m n :
  (foldl (prune_step now) (m, n) l).2
  = (n + length (filter (λ kv, expired now kv.2 = true) l))%nat.
Proof.
  revert m n. induction l as [| [k0 e0] l IH]; intros m n; simpl; [lia |].
  unfold prune_step at 2. simpl.
  destruct (expired now e0) eqn:He; simpl.
  - rewrite IH, filter_cons_True by done. simpl. lia.
  - rewrite IH, filter_cons_False by (simpl; congruence). done.
Qed.

(** After the scan a key is mapped exactly when it was mapped to an entry
    that has not expired. *)
Lemma prune_scan_lookup now (m : gmap string entry) k :
  (prune_scan now m).1 !! k
  = match m !! k with
    | Some e => if expired now e then None else Some e
    | None => None
    end.
Proof.
  unfold prune_scan. rewrite prune_fold_lookup.
  destruct (existsb _ _) eqn:Hex.
  - apply existsb_exists in Hex as ([k0 e0] & Hin & Hb).
    apply andb_true_iff in Hb as [Hk He]. simpl in *.
    apply bool_decide_eq_true in Hk as ->.
    apply list_elem_of_In, elem_of_map_to_list in Hin. by rewrite Hin, He.
  - destruct (m !! k) as [e |] eqn:Hm; [| done].
    destruct (expired now e) eqn:He; [| done].
    exfalso. apply not_true_iff_false in Hex. apply Hex.
    apply existsb_exists. exists (k, e). split.
    + by apply list_elem_of_In, elem_of_map_to_list.
    + simpl. rewrite He. by rewrite bool_decide_eq_true_2.
Qed.

Lemma prune_scan_subseteq now (m : gmap string entry) :
  (prune_scan now m).1 ⊆ m.
Proof.
  apply map_subseteq_spec. intros k e. rewrite prune_scan_lookup.
  destruct (m !! k) as [e' |]; [| done]. by destruct (expired now e').
Qed.

(** No removal is counted exactly when the scan leaves the map as it is. *)
Lemma prune_scan_none now (m : gmap string entry) :
  (prune_scan now m).2 = 0%nat → (prune_scan now m).1 = m.
Proof.
  unfold prune_scan at 1. rewrite prune_fold_count. simpl. intros Hlen.
  apply length_zero_iff_nil in Hlen.
  apply map_eq. intros k. rewrite prune_scan_lookup.
  destruct (m !! k) as [e |] eqn:Hm; [| done].
  destruct (expired now e) eqn:He; [| done].
  exfalso. assert (Hin : (k, e) ∈ filter (λ kv : string * entry, expired now kv.2 = true) (map_to_list m)).
  { apply list_elem_of_filter. split; [done |]. by apply elem_of_map_to_list. }
  rewrite Hlen in Hin. by apply elem_of_nil in Hin.
Qed.

Lemma pruneExpiredEntries_run now st :
  let st1 := set_cache (prune_scan now (cache st)).1 st in
  pruneExpiredEntries now st
  = (tt, if (0 <? (prune_scan now (cache st)).2)%nat
         then exec (schedulePersist now) st1 else st1).
Proof.
  unfold pruneExpiredEntries. unfold bind at 1. unfold gets at 1. simpl.
  destruct (prune_scan now (cache st)) as [m' removed]. simpl.
  unfold bind, modify, exec, ret.
  destruct (0 <? removed)%nat; [| done].
  by destruct (schedulePersist now _) as [[] ?].
Qed.

(** ** Upsert *)

Lemma upsertCache_refused key d now st :
  key = "" ∨ truthy d = false → upsertCache key d now st = (tt, st).
Proof.
  intros [-> | Hd]; unfold upsertCache; [done |].
  rewrite Hd. simpl. by rewrite orb_true_r.
Qed.

Lemma upsertCache_run key d now st :
  key ≠ "" → truthy d = true →
  upsertCache key d now st
  = (tt, exec (schedulePersist now)
           (set_cache (<[key := {| data := d; timestamp := Some now |}]> (cache st)) st)).
Proof.
  intros Hkey Hd. apply truthy_str_true in Hkey.
  unfold upsertCache. rewrite Hkey, Hd. simpl.
  unfold bind, gets, modify, exec.
  by destruct (schedulePersist now _) as [[] ?].
Qed.

(** ** Hydration *)

Lemma ensureCacheLoaded_shared st p :
  cacheLoadPromise st = Some p → ensureCacheLoaded st = (promise_id p, st).
Proof.
  intros Hp. unfold ensureCacheLoaded. unfold_monad. simpl. by rewrite Hp.
Qed.

Lemma ensureCacheLoaded_first st :
  cacheLoadPromise st = None →
  let st' := exec ensureCacheLoaded st in
  eval ensureCacheLoaded st = promisesCreated st
  ∧ cacheLoadPromise st'
    = Some {| promise_id := promisesCreated st; resolved := false |}
  ∧ hostCalls st' = hostCalls st ++ [StorageGet]
  ∧ promisesCreated st' = S (promisesCreated st)
  ∧ cache st' = cache st ∧ persistTimeoutId st' = persistTimeoutId st
  ∧ timers st' = timers st ∧ nextTimerId st' = nextTimerId st.
Proof.
  intros Hp. unfold ensureCacheLoaded, new_Promise, set_cacheLoadPromise.
  unfold_monad. simpl. rewrite Hp. simpl. done.
Qed.

Lemma hydrate_run result now now' st :
  let m := foldl (admit_stored now) (cache st) (default [] result) in
  let st1 := set_cache m st in
  let st2 := if (0 <? length (default [] result))%nat
             then exec (pruneExpiredEntries now') st1 else st1 in
  hydrate result now now' st = (tt, exec resolve_cacheLoadPromise st2).
Proof.
  unfold hydrate. unfold bind at 1. unfold gets at 1. simpl.
  unfold bind at 1. unfold modify at 1. simpl.
  unfold bind, exec.
  destruct (0 <? length (default [] result))%nat.
  - destruct (pruneExpiredEntries now' _) as [[] ?].
    by destruct (resolve_cacheLoadPromise _) as [[] ?].
  - unfold ret. by destruct (resolve_cacheLoadPromise _) as [[] ?].
Qed.

(** ** The segments of a request *)

Lemma handle_until_fetch_run {U : URLParser} req w st :
  handle_until_fetch req w st
  = handle_hydrated req (w_prune w) (w_lookup w) (after_hydration w st).
Proof.
  unfold handle_until_fetch, handle_start, after_hydration.
  unfold bind at 1 2. unfold exec.
  destruct (ensureCacheLoaded st) as [id st0]. unfold ret at 1. simpl.
  unfold bind at 1. by destruct (await_hydration w st0) as [[] st1].
Qed.

Lemma handle_hydrated_run {U : URLParser} req now now' st :
  let st1 := exec (pruneExpiredEntries now) st in
  let key := deriveCacheKey req in
  handle_hydrated req now now' st
  = match eval (cacheLookup key now') st1 with
    | Some h =>
        (Settled (Resolve {| r_data := hit_data h; cacheHit := true;
                             cacheAge := age h |}),
         exec (cacheLookup key now') st1)
    | None =>
        (AwaitFetch req key,
         call_host (Fetch (apiUrl req)) (exec (cacheLookup key now') st1))
    end.
Proof.
  unfold handle_hydrated, bind, exec, eval, modify, ret.
  destruct (pruneExpiredEntries now st) as [[] st1]. simpl.
  destruct (cacheLookup (deriveCacheKey req) now' st1) as [[h |] st2]; done.
Qed.

Lemma handle_hydrated_state {U : URLParser} req now now' st :
  let s := exec (cacheLookup (deriveCacheKey req) now')
             (exec (pruneExpiredEntries now) st) in
  exec (handle_hydrated req now now') st = s
  ∨ exec (handle_hydrated req now now') st
    = call_host (Fetch (apiUrl req)) s.
Proof.
  simpl. unfold exec. rewrite handle_hydrated_run. unfold exec, eval.
  destruct (cacheLookup _ _ _) as [[h |] s']; simpl; auto.
Qed.

Lemma resume_state {U : URLParser} t d st :
  exec (resume t d) st
  = match t, d with
    | AwaitHydration req, Hydrated now now' =>
        exec (handle_hydrated req now now') st
    | AwaitJson key _, Parsed (Some payload) now =>
        exec (upsertCache key payload now) st
    | _, _ => st
    end.
Proof.
  destruct t as [req | req key | key status | o], d as [now now' | r | body now];
    try done.
  simpl. destruct body as [payload |]; [| done].
  unfold handle_parsed, exec, bind, ret.
  by destruct (upsertCache key payload now st) as [[] ?].
Qed.

Lemma onMessage_state msg st :
  exec (onMessage msg) st
  = if is_ensure (MessageArrives msg) then exec ensureCacheLoaded st else st.
Proof.
  destruct msg as [req |]; [| done]. simpl.
  destruct (truthy_str (action req)); simpl; [| done].
  destruct (String.eqb (action req) "fetchTikTokData"); simpl.
  - unfold handle_start, exec, bind, ret.
    by destruct (ensureCacheLoaded st) as [? ?].
  - by destruct (String.eqb (action req) "content.videoDetected").
Qed.

Lemma exec_discard {A} (m : M A) st : exec (bind m (λ _, ret tt)) st = exec m st.
Proof. unfold exec, bind, ret. by destruct (m st). Qed.

(** ** What the cache functions preserve *)

Lemma cacheLookup_outcome key now st :
  cacheLookup key now st = (None, st)
  ∨ (∃ e, key ≠ "" ∧ cache st !! key = Some e ∧ CACHE_TTL_MS < entry_age now e
       ∧ cacheLookup key now st
         = (None, exec (schedulePersist now)
                    (set_cache (delete key (cache st)) st)))
  ∨ (∃ e, key ≠ "" ∧ cache st !! key = Some e ∧ entry_age now e ≤ CACHE_TTL_MS
       ∧ cacheLookup key now st
         = (Some {| hit_data := data e; age := entry_age now e |}, st)).
Proof.
  destruct (decide (key = "")) as [-> | Hkey]; [by left |].
  destruct (cache st !! key) as [e |] eqn:Hm;
    [| left; by apply cacheLookup_unmapped].
  right. destruct (Z_lt_le_dec CACHE_TTL_MS (entry_age now e)).
  - left. exists e. eauto using cacheLookup_expired.
  - right. exists e. eauto using cacheLookup_fresh.
Qed.

Section Preservation.

Variable P : state → Prop.
Hypothesis P_set_cache : ∀ m st, P st → P (set_cache m st).
Hypothesis P_schedulePersist :
  ∀ now st, P st → P (exec (schedulePersist now) st).

Lemma preserved_cacheLookup key now st :
  P st → P (exec (cacheLookup key now) st).
Proof.
  intros HP. unfold exec at 1.
  destruct (cacheLookup_outcome key now st)
    as [-> | [(e & _ & _ & _ & ->) | (e & _ & _ & _ & ->)]]; simpl; auto.
Qed.

Lemma preserved_upsertCache key d now st :
  P st → P (exec (upsertCache key d now) st).
Proof.
  intros HP. unfold exec at 1.
  destruct (decide (key = "")) as [Hk | Hk];
    [rewrite upsertCache_refused by auto; done |].
  destruct (truthy d) eqn:Hd;
    [| rewrite upsertCache_refused by auto; done].
  rewrite upsertCache_run by done. simpl. auto.
Qed.

Lemma preserved_pruneExpiredEntries now st :
  P st → P (exec (pruneExpiredEntries now) st).
Proof.
  intros HP. unfold exec at 1. rewrite pruneExpiredEntries_run. simpl.
  destruct (0 <? _)%nat; auto.
Qed.

Hypothesis P_resolve : ∀ st, P st → P (exec resolve_cacheLoadPromise st).

Lemma preserved_hydrate result now now' st :
  P st → P (exec (hydrate result now now') st).
Proof.
  intros HP. unfold exec at 1. rewrite hydrate_run. simpl.
  apply P_resolve.
  destruct (0 <? _)%nat; auto using preserved_pruneExpiredEntries.
Qed.

Hypothesis P_fetch : ∀ u st, P st → P (call_host (Fetch u) st).

Lemma preserved_resume {U : URLParser} t d st :
  P st → P (exec (resume t d) st).
Proof.
  intros HP. rewrite resume_state.
  destruct t as [req | req key | key status | o], d as [now now' | r | body now];
    try done.
  - destruct (handle_hydrated_state req now now' st) as [-> | ->];
      [| apply P_fetch];
      apply preserved_cacheLookup, preserved_pruneExpiredEntries, HP.
  - destruct body; [by apply preserved_upsertCache | done].
Qed.

End Preservation.

(** ** The cache only holds truthy keys and payloads *)

Lemma cache_schedulePersist now st :
  cache (exec (schedulePersist now) st) = cache st.
Proof. apply schedulePersist_frame. Qed.

Lemma cacheLookup_subseteq key now st :
  cache (exec (cacheLookup key now) st) ⊆ cache st.
Proof.
  unfold exec.
  destruct (cacheLookup_outcome key now st)
    as [-> | [(e & _ & _ & _ & ->) | (e & _ & _ & _ & ->)]]; simpl;
    [done | | done].
  rewrite cache_schedulePersist. simpl. apply delete_subseteq.
Qed.

Lemma cache_pruneExpiredEntries now st :
  cache (exec (pruneExpiredEntries now) st) = (prune_scan now (cache st)).1.
Proof.
  unfold exec. rewrite pruneExpiredEntries_run. simpl.
  destruct (0 <? _)%nat; [rewrite cache_schedulePersist |]; done.
Qed.

Lemma cache_ok_subseteq st st' :
  cache st' ⊆ cache st → cache_ok st → cache_ok st'.
Proof.
  unfold cache_ok. intros Hsub Hok k e Hke.
  apply (Hok k e). by eapply lookup_weaken.
Qed.

Lemma admit_stored_ok now (m : gmap string entry) e :
  map_Forall (λ (k : string) (x : entry), k ≠ "" ∧ truthy (data x) = true) m →
  map_Forall (λ (k : string) (x : entry), k ≠ "" ∧ truthy (data x) = true)
             (admit_stored now m e).
Proof.
  intros Hm. unfold admit_stored.
  destruct e as [[[k |] [d |] ts] |]; simpl; try done;
    destruct (truthy_str k) eqn:Hk; simpl; try done.
  destruct (_ <=? _); simpl; [| done].
  destruct (truthy d) eqn:Hd; [| done].
  apply map_Forall_insert_2; [| done]. simpl.
  split; [by apply truthy_str_true | done].
Qed.

Lemma fire_timer_run id st :
  fire_timer id st
  = (tt, {| cache := cache st; cacheLoadPromise := cacheLoadPromise st;
            persistTimeoutId := None;
            timers := filter (λ t : positive * Z, t.1 ≠ id) (timers st);
            nextTimerId := nextTimerId st;
            promisesCreated := promisesCreated st;
            hostCalls := hostCalls st ++ [StorageSet (serialize (cache st))] |}).
Proof. reflexivity. Qed.

Lemma cache_ok_schedulePersist now st :
  cache_ok st → cache_ok (exec (schedulePersist now) st).
Proof. unfold cache_ok. by rewrite cache_schedulePersist. Qed.

Lemma cache_ok_cacheLookup key now st :
  cache_ok st → cache_ok (exec (cacheLookup key now) st).
Proof. apply cache_ok_subseteq, cacheLookup_subseteq. Qed.

Lemma cache_ok_pruneExpiredEntries now st :
  cache_ok st → cache_ok (exec (pruneExpiredEntries now) st).
Proof.
  apply cache_ok_subseteq. rewrite cache_pruneExpiredEntries.
  apply prune_scan_subseteq.
Qed.

Lemma cache_ok_upsertCache key d now st :
  cache_ok st → cache_ok (exec (upsertCache key d now) st).
Proof.
  intros Hok. unfold exec.
  destruct (decide (key = "")) as [Hk | Hk];
    [rewrite upsertCache_refused by auto; done |].
  destruct (truthy d) eqn:Hd;
    [| rewrite upsertCache_refused by auto; done].
  rewrite upsertCache_run by done. simpl.
  apply cache_ok_schedulePersist. unfold cache_ok. simpl.
  apply map_Forall_insert_2; [done | exact Hok].
Qed.

Lemma cache_ok_ensureCacheLoaded st :
  cache_ok st → cache_ok (exec ensureCacheLoaded st).
Proof.
  intros Hok. unfold cache_ok.
  replace (cache (exec ensureCacheLoaded st)) with (cache st); [done |].
  destruct (cacheLoadPromise st) as [p |] eqn:Hp.
  - unfold exec. by rewrite (ensureCacheLoaded_shared st p Hp).
  - by destruct (ensureCacheLoaded_first st Hp) as (_ & _ & _ & _ & -> & _).
Qed.

Lemma cache_ok_hydrate result now now' st :
  cache_ok st → cache_ok (exec (hydrate result now now') st).
Proof.
  intros Hok. unfold exec. rewrite hydrate_run. simpl.
  set (st1 := set_cache _ st).
  assert (Hok1 : cache_ok st1).
  { unfold cache_ok, st1. simpl.
    generalize (default [] result). intros l.
    revert Hok. unfold cache_ok. generalize (cache st).
    induction l as [| e l IH]; intros m Hm; simpl; [done |].
    apply IH. by apply admit_stored_ok. }
  assert (Hok2 : cache_ok (if (0 <? length (default [] result))%nat
                           then exec (pruneExpiredEntries now') st1 else st1)).
  { destruct (0 <? _)%nat; [| done]. by apply cache_ok_pruneExpiredEntries. }
  revert Hok2. generalize (if (0 <? length (default [] result))%nat
                           then exec (pruneExpiredEntries now') st1 else st1).
  intros s Hs. unfold resolve_cacheLoadPromise, set_cacheLoadPromise.
  unfold_monad. simpl. exact Hs.
Qed.

Section System.

Context {U : URLParser}.

Lemma perform_is_ensure ev st :
  is_ensure ev = true → exec (perform ev) st = exec ensureCacheLoaded st.
Proof.
  destruct ev as [msg | | | | | | |]; try done; intros Hev; simpl;
    rewrite exec_discard; [| done].
  by rewrite onMessage_state, Hev.
Qed.

Lemma perform_message_other msg st :
  is_ensure (MessageArrives msg) = false →
  exec (perform (MessageArrives msg)) st = st.
Proof.
  intros Hev. simpl. by rewrite exec_discard, onMessage_state, Hev.
Qed.

Lemma cache_ok_perform ev st : cache_ok st → cache_ok (exec (perform ev) st).
Proof.
  intros Hok.
  destruct (is_ensure ev) eqn:Hev;
    [rewrite perform_is_ensure by done; by apply cache_ok_ensureCacheLoaded |].
  destruct ev as [msg | result now now' | t d | id now | | now | key now
                  | key d now]; [| | | | done | | |].
  - by rewrite perform_message_other.
  - by apply cache_ok_hydrate.
  - cbn [perform]. rewrite exec_discard, resume_state.
    destruct t as [req | req key | key status | o],
             d as [now now' | r | body now]; try done.
    + assert (Hs : cache_ok (exec (cacheLookup (deriveCacheKey req) now')
                               (exec (pruneExpiredEntries now) st)))
        by (by apply cache_ok_cacheLookup, cache_ok_pruneExpiredEntries).
      by destruct (handle_hydrated_state req now now' st) as [-> | ->].
    + destruct body; [by apply cache_ok_upsertCache | done].
  - change (perform (TimerFires id now)) with (fire_timer id).
    unfold exec. rewrite fire_timer_run. exact Hok.
  - by apply cache_ok_pruneExpiredEntries.
  - cbn [perform]. rewrite exec_discard. by apply cache_ok_cacheLookup.
  - by apply cache_ok_upsertCache.
Qed.

(** C8. Every entry of the in-memory map has a truthy key and a truthy
    payload: the property holds of the empty map of a fresh worker, and
    hydration, upsert, lookup, prune, scheduling and persisting all
    preserve it, so it holds in every reachable state. *)
Theorem cache_entries_truthy :
  cache_ok initial
  ∧ (∀ ev st, cache_ok st → cache_ok (exec (perform ev) st))
  ∧ (∀ st, reachable st →
       ∀ k e, cache st !! k = Some e → k ≠ "" ∧ truthy (data e) = true).
Proof.
  split; [apply map_Forall_empty |].
  split; [intros ev st; apply cache_ok_perform |].
  intros st Hreach. change (cache_ok st).
  induction Hreach as [| st ev _ IH _]; [apply map_Forall_empty |].
  by apply cache_ok_perform.
Qed.

(** ** At most one pending persist *)

Lemma timer_ok_set_cache m st : timer_ok st → timer_ok (set_cache m st).
Proof. done. Qed.

Lemma timer_ok_schedulePersist now st :
  timer_ok st → timer_ok (exec (schedulePersist now) st).
Proof.
  intros Hok.
  destruct (schedulePersist_pending now st) as [[Hrun _] | (Hnone & Hid & Ht & _)].
  - unfold exec. by rewrite Hrun.
  - unfold timer_ok in *. rewrite Hid, Ht. rewrite Hnone in Hok.
    rewrite Hok. simpl. eauto.
Qed.

Lemma timer_ok_resolve st :
  timer_ok st → timer_ok (exec resolve_cacheLoadPromise st).
Proof. done. Qed.

Lemma timer_ok_ensureCacheLoaded st :
  timer_ok st → timer_ok (exec (bind ensureCacheLoaded (λ _, ret tt)) st).
Proof.
  intros Hok. unfold ensureCacheLoaded, new_Promise, set_cacheLoadPromise.
  unfold_monad. simpl. destruct (cacheLoadPromise st); simpl; exact Hok.
Qed.

Lemma timer_ok_fire id now st :
  enabled (TimerFires id now) st → timer_ok st →
  timer_ok (exec (fire_timer id) st)
  ∧ timers (exec (fire_timer id) st) = [].
Proof.
  intros (due & Hin & _) Hok. unfold exec. rewrite fire_timer_run. simpl.
  unfold timer_ok in *. simpl.
  destruct (persistTimeoutId st) as [id' |].
  - destruct Hok as [due' Ht]. rewrite Ht in Hin |- *.
    apply list_elem_of_singleton in Hin. inversion Hin; subst.
    rewrite filter_cons_False by (simpl; auto). done.
  - rewrite Hok in Hin. by apply elem_of_nil in Hin.
Qed.

Lemma timer_ok_call_host c st : timer_ok st → timer_ok (call_host c st).
Proof. done. Qed.

Lemma timer_ok_perform ev st :
  enabled ev st → timer_ok st → timer_ok (exec (perform ev) st).
Proof.
  intros Hen Hok.
  destruct (is_ensure ev) eqn:Hev.
  { rewrite perform_is_ensure by done. rewrite <- exec_discard.
    by apply timer_ok_ensureCacheLoaded. }
  destruct ev as [msg | result now now' | t d | id now | | now | key now
                  | key d now]; [| | | | done | | |].
  - by rewrite perform_message_other.
  - cbn [perform]. apply preserved_hydrate;
      auto using timer_ok_set_cache, timer_ok_schedulePersist, timer_ok_resolve.
  - cbn [perform]. rewrite exec_discard.
    apply preserved_resume;
      auto using timer_ok_set_cache, timer_ok_schedulePersist,
                 timer_ok_call_host.
  - by eapply timer_ok_fire.
  - cbn [perform]. apply preserved_pruneExpiredEntries;
      auto using timer_ok_set_cache, timer_ok_schedulePersist.
  - cbn [perform]. rewrite exec_discard.
    apply preserved_cacheLookup;
      auto using timer_ok_set_cache, timer_ok_schedulePersist.
  - cbn [perform]. apply preserved_upsertCache;
      auto using timer_ok_set_cache, timer_ok_schedulePersist.
Qed.

Lemma reachable_timer_ok st : reachable st → timer_ok st.
Proof.
  induction 1 as [| st ev _ IH Hen]; [done |]. by apply timer_ok_perform.
Qed.

Lemma timer_ok_length st : timer_ok st → (length (timers st) ≤ 1)%nat.
Proof.
  unfold timer_ok. destruct (persistTimeoutId st).
  - intros [due ->]. simpl. lia.
  - intros ->. simpl. lia.
Qed.

(** ** Bursts of upserts and the single write that follows *)

Lemma perform_upsert_effective (u : string * json * Z) st :
  effective u →
  exec (perform (CallUpsert u.1.1 u.1.2 u.2)) st
  = exec (schedulePersist u.2)
      (set_cache (<[u.1.1 := {| data := u.1.2; timestamp := Some u.2 |}]> (cache st)) st).
Proof.
  intros [Hk Hd]. simpl. unfold exec at 1. by rewrite upsertCache_run.
Qed.

Lemma burst_cache ups st k :
  Forall effective ups →
  cache (run (burst ups) st) !! k
  = match last_upsert k ups with
    | Some e => Some e
    | None => cache st !! k
    end.
Proof.
  intros Hall. revert st.
  induction Hall as [| u rest Hu _ IH]; intros st; [done |].
  change (run (burst (u :: rest)) st)
    with (run (burst rest) (exec (perform (CallUpsert u.1.1 u.1.2 u.2)) st)).
  rewrite IH, perform_upsert_effective by done.
  rewrite cache_schedulePersist. simpl.
  destruct (last_upsert k rest); [done |].
  destruct (decide (u.1.1 = k)) as [<- | Hne].
  - by rewrite lookup_insert_eq.
  - by rewrite lookup_insert_ne.
Qed.

Lemma burst_preserves (P : state → Prop) ups st :
  (∀ m s, P s → P (set_cache m s)) →
  (∀ now s, P s → P (exec (schedulePersist now) s)) →
  P st → P (run (burst ups) st).
Proof.
  intros Hset Hsched. revert st.
  induction ups as [| u rest IH]; intros st HP; [done |].
  change (run (burst (u :: rest)) st)
    with (run (burst rest) (exec (upsertCache u.1.1 u.1.2 u.2) st)).
  apply IH. by apply preserved_upsertCache.
Qed.

Lemma burst_hostCalls ups st : hostCalls (run (burst ups) st) = hostCalls st.
Proof.
  apply (burst_preserves (λ s, hostCalls s = hostCalls st)); [done | | done].
  intros now s <-. apply schedulePersist_frame.
Qed.

Lemma burst_pending ups st :
  is_Some (persistTimeoutId st) →
  persistTimeoutId (run (burst ups) st) = persistTimeoutId st
  ∧ timers (run (burst ups) st) = timers st.
Proof.
  intros Hsome.
  apply (burst_preserves
    (λ s, persistTimeoutId s = persistTimeoutId st ∧ timers s = timers st));
    [done | | done].
  intros now s [Hid Ht].
  destruct (schedulePersist_pending now s) as [[Hrun _] | (Hnone & _)].
  - unfold exec. by rewrite Hrun.
  - rewrite Hnone in Hid. rewrite <- Hid in Hsome. by destruct Hsome.
Qed.

Lemma burst_arms_one ups st :
  timer_ok st → ups ≠ [] → Forall effective ups →
  ∃ id due,
    timers (run (burst ups) st) = [(id, due)]
    ∧ persistTimeoutId (run (burst ups) st) = Some id
    ∧ (persistTimeoutId st = None →
         ∃ u, head ups = Some u ∧ due = u.2 + PERSIST_DELAY_MS).
Proof.
  intros Hok Hne Hall. destruct ups as [| u rest]; [done |].
  apply Forall_cons in Hall as [Hu _].
  change (run (burst (u :: rest)) st)
    with (run (burst rest) (exec (perform (CallUpsert u.1.1 u.1.2 u.2)) st)).
  rewrite perform_upsert_effective by done.
  set (st0 := set_cache _ st).
  assert (Hok0 : timer_ok st0) by done.
  destruct (schedulePersist_pending u.2 st0) as [[Hrun Hsome] | (Hnone & Hid & Ht & _)].
  - unfold exec at 1 2. rewrite Hrun. simpl.
    destruct (burst_pending rest st0 Hsome) as [-> ->].
    unfold timer_ok in Hok0. destruct Hsome as [id Hid]. rewrite Hid in Hok0 |- *.
    destruct Hok0 as [due Ht]. exists id, due. rewrite Ht.
    split; [done |]. split; [done |].
    intros Hnone. subst st0. simpl in Hid. congruence.
  - set (st1 := exec (schedulePersist u.2) st0) in *.
    destruct (burst_pending rest st1) as [-> ->]; [rewrite Hid; eauto |].
    unfold timer_ok in Hok0. rewrite Hnone in Hok0.
    rewrite Hid, Ht, Hok0. simpl.
    exists (nextTimerId st0), (u.2 + PERSIST_DELAY_MS). eauto.
Qed.

Lemma writes_app_StorageSet st calls snapshot :
  hostCalls st = calls ++ [StorageSet snapshot] →
  writes st
  = omap (λ c, match c with StorageSet s => Some s | _ => None end) calls
    ++ [snapshot].
Proof. unfold writes. intros ->. by rewrite omap_app. Qed.

(** C7. In every reachable state at most one persist timer is armed;
    [schedulePersist] arms nothing while one is pending; and a burst of
    N upserts (none refused) leaves exactly one armed timer, writes
    nothing while the burst lasts, and the firing of that timer is one
    write whose snapshot holds, for every key of the burst, the entry its
    last upsert left.  When no persist was pending before the burst the
    timer is due 2000 ms after the first upsert and cannot fire before. *)
Theorem persist_coalesced :
  (∀ st, reachable st → timer_ok st ∧ (length (timers st) ≤ 1)%nat)
  ∧ (∀ st now, is_Some (persistTimeoutId st) →
       schedulePersist now st = (tt, st))
  ∧ (∀ st ups, reachable st → ups ≠ [] → Forall effective ups →
       let st' := run (burst ups) st in
       writes st' = writes st
       ∧ ∃ id due,
           timers st' = [(id, due)] ∧ persistTimeoutId st' = Some id
           ∧ (persistTimeoutId st = None →
                ∃ u, head ups = Some u ∧ due = u.2 + 2000)
           ∧ (∀ id' now, now < due → ¬ enabled (TimerFires id' now) st')
           ∧ let st'' := exec (fire_timer id) st' in
             writes st'' = writes st ++ [serialize (cache st')]
             ∧ timers st'' = [] ∧ persistTimeoutId st'' = None
             ∧ ∀ k e, last_upsert k ups = Some e →
                 {| s_key := Some k; s_data := Some (data e);
                    s_timestamp := timestamp e |} ∈ serialize (cache st')).
Proof.
  split; [| split].
  - intros st Hreach. pose proof (reachable_timer_ok st Hreach) as Hok.
    split; [exact Hok | by apply timer_ok_length].
  - intros st now Hsome.
    destruct (schedulePersist_pending now st) as [[Hrun _] | (Hnone & _)];
      [exact Hrun |].
    rewrite Hnone in Hsome. by destruct Hsome.
  - intros st ups Hreach Hne Hall st'.
    assert (Hw : writes st' = writes st).
    { unfold writes, st'. by rewrite burst_hostCalls. }
    split; [exact Hw |].
    destruct (burst_arms_one ups st (reachable_timer_ok st Hreach) Hne Hall)
      as (id & due & Ht & Hid & Hdue).
    fold st' in Ht, Hid. exists id, due.
    split; [exact Ht |]. split; [exact Hid |]. split; [exact Hdue |].
    split.
    { intros id' now Hlt (due' & Hin & Hle). rewrite Ht in Hin.
      apply list_elem_of_singleton in Hin. inversion Hin; subst. lia. }
    intros st''. subst st''. unfold exec. rewrite fire_timer_run. simpl.
    split.
    { rewrite <- Hw.
      by rewrite (writes_app_StorageSet _ (hostCalls st') (serialize (cache st'))). }
    split.
    { rewrite Ht. by rewrite filter_cons_False by (simpl; auto). }
    split; [done |].
    intros k e Hlast.
    assert (Hk : cache st' !! k = Some e).
    { unfold st'. rewrite burst_cache by done. by rewrite Hlast. }
    unfold serialize. apply list_elem_of_fmap. exists (k, e).
    split; [done |]. by apply elem_of_map_to_list.
Qed.

(** ** One read of durable storage *)

Lemma reads_call_host c st :
  reads (call_host c st) = (reads st + if is_read c then 1 else 0)%nat.
Proof.
  unfold reads. simpl. rewrite filter_app, length_app. f_equal.
  destruct c; simpl; reflexivity.
Qed.

Lemma same_hydration_ok st s :
  same_hydration st s → hydration_ok st → hydration_ok s.
Proof.
  unfold same_hydration, hydration_ok. intros (Hp & -> & ->).
  destruct (cacheLoadPromise st) as [p |], (cacheLoadPromise s) as [q |];
    simpl in Hp; try done.
  injection Hp as ->. done.
Qed.

Lemma same_hydration_refl st : same_hydration st st.
Proof. done. Qed.

Lemma same_hydration_schedulePersist st now s :
  same_hydration st s → same_hydration st (exec (schedulePersist now) s).
Proof.
  intros (Hp & Hr & Hc).
  destruct (schedulePersist_frame now s) as (_ & Hp' & Hh & Hc').
  unfold same_hydration, reads. by rewrite Hp', Hh, Hc'.
Qed.

Lemma same_hydration_call_host st c s :
  is_read c = false → same_hydration st s → same_hydration st (call_host c s).
Proof.
  intros Hc (Hp & Hr & Hn). unfold same_hydration.
  rewrite reads_call_host, Hc. simpl. split; [done |]. split; [lia | done].
Qed.

Lemma same_hydration_perform ev st :
  is_ensure ev = false → same_hydration st (exec (perform ev) st).
Proof.
  intros Hev.
  destruct ev as [msg | result now now' | t d | id now | | now | key now
                  | key d now]; [| | | | done | | |].
  - by rewrite perform_message_other.
  - cbn [perform]. apply (preserved_hydrate (same_hydration st));
      auto using same_hydration_schedulePersist, same_hydration_refl.
    intros s (Hp & Hr & Hc). unfold same_hydration.
    unfold resolve_cacheLoadPromise, set_cacheLoadPromise. unfold_monad.
    simpl. split; [| done]. rewrite <- Hp. by destruct (cacheLoadPromise s).
  - cbn [perform]. rewrite exec_discard.
    apply (preserved_resume (same_hydration st));
      auto using same_hydration_schedulePersist, same_hydration_refl.
    intros u s. by apply same_hydration_call_host.
  - change (perform (TimerFires id now)) with (fire_timer id).
    unfold exec. rewrite fire_timer_run.
    by apply (same_hydration_call_host st (StorageSet _) st).
  - cbn [perform]. apply (preserved_pruneExpiredEntries (same_hydration st));
      auto using same_hydration_schedulePersist, same_hydration_refl.
  - cbn [perform]. rewrite exec_discard.
    apply (preserved_cacheLookup (same_hydration st));
      auto using same_hydration_schedulePersist, same_hydration_refl.
  - cbn [perform]. apply (preserved_upsertCache (same_hydration st));
      auto using same_hydration_schedulePersist, same_hydration_refl.
Qed.

Lemma hydration_ok_perform ev st :
  hydration_ok st →
  hydration_ok (exec (perform ev) st)
  ∧ (is_Some (cacheLoadPromise (exec (perform ev) st))
     ↔ is_Some (cacheLoadPromise st) ∨ is_ensure ev = true).
Proof.
  intros Hok. destruct (is_ensure ev) eqn:Hev.
  - rewrite perform_is_ensure by done.
    destruct (cacheLoadPromise st) as [p |] eqn:Hp.
    + unfold exec. rewrite (ensureCacheLoaded_shared st p Hp). simpl.
      rewrite Hp. split; [done |]. split; eauto.
    + destruct (ensureCacheLoaded_first st Hp)
        as (_ & Hp' & Hh & Hc & _).
      unfold hydration_ok in *. rewrite Hp in Hok. destruct Hok as [Hr Hn].
      rewrite Hp', Hc. unfold reads in *. rewrite Hh, filter_app, length_app.
      rewrite Hr, Hn. simpl. split; [done |]. split; eauto.
  - pose proof (same_hydration_perform ev st Hev) as Hsame.
    split; [by eapply same_hydration_ok |].
    destruct Hsame as (Hp & _).
    destruct (cacheLoadPromise st), (cacheLoadPromise (exec (perform ev) st));
      simpl in Hp; try done.
    + split; eauto.
    + split; [by intros [? ?] | intros [[? ?] | ?]; done].
Qed.

Lemma run_hydration evs st :
  hydration_ok st →
  hydration_ok (run evs st)
  ∧ (is_Some (cacheLoadPromise (run evs st))
     ↔ is_Some (cacheLoadPromise st) ∨ existsb is_ensure evs = true)
  ∧ Forall (λ id, id = 0%nat) (returned evs st).
Proof.
  revert st. induction evs as [| ev evs IH]; intros st Hok.
  - simpl. split; [done |]. split; [| done]. split; [eauto | by intros [? | ?]].
  - change (run (ev :: evs) st) with (run evs (exec (perform ev) st)).
    destruct (hydration_ok_perform ev st Hok) as [Hok' Hiff].
    destruct (IH _ Hok') as (Hok'' & Hiff' & Hret).
    split; [done |]. split.
    + rewrite Hiff', Hiff. simpl. rewrite orb_true_iff. tauto.
    + simpl. apply Forall_app. split; [| done].
      destruct (is_ensure ev); [| done]. apply Forall_singleton.
      destruct (cacheLoadPromise st) as [p |] eqn:Hp.
      * unfold eval. rewrite (ensureCacheLoaded_shared st p Hp). simpl.
        unfold hydration_ok in Hok. rewrite Hp in Hok. tauto.
      * destruct (ensureCacheLoaded_first st Hp) as (-> & _).
        unfold hydration_ok in Hok. rewrite Hp in Hok. tauto.
Qed.

(** C4. Whatever happens in a worker, and in whatever order, durable
    storage has been read once if [ensureCacheLoaded] was called at all
    (on its own or by a [fetchTikTokData] message) and not otherwise;
    every call returned the same promise, the first one created; a call
    made when the promise exists returns it and changes nothing; and
    N+1 calls in a row, none of them answered yet, make one read. *)
Theorem hydration_reads_once (evs : list event) :
  reads (run evs initial) = (if existsb is_ensure evs then 1 else 0)%nat
  ∧ Forall (λ id, id = 0%nat) (returned evs initial)
  ∧ length (returned evs initial) = length (filter (λ ev, is_ensure ev = true) evs)
  ∧ (∀ p, cacheLoadPromise (run evs initial) = Some p →
       ensureCacheLoaded (run evs initial) = (promise_id p, run evs initial))
  ∧ (cacheLoadPromise (run evs initial) = None →
       reads (exec ensureCacheLoaded (run evs initial)) = 1%nat)
  ∧ ∀ n, reads (run (replicate (S n) CallEnsureCacheLoaded) initial) = 1%nat.
Proof.
  assert (Hinit : hydration_ok initial) by done.
  assert (Hreads : ∀ l, reads (run l initial)
                        = (if existsb is_ensure l then 1 else 0)%nat).
  { intros l. destruct (run_hydration l initial Hinit) as (Hok & Hiff & _).
    unfold hydration_ok in Hok.
    destruct (cacheLoadPromise (run l initial)) as [p |].
    - destruct Hok as (-> & _).
      destruct (proj1 Hiff) as [[? ?] | ->]; eauto; done.
    - destruct Hok as (-> & _).
      destruct (existsb is_ensure l); [| done].
      destruct (proj2 Hiff) as [? ?]; eauto; done. }
  split; [apply Hreads |].
  split; [apply (run_hydration evs initial Hinit) |].
  split.
  { generalize initial. induction evs as [| ev evs IH]; intros st; [done |].
    simpl. rewrite length_app, IH.
    destruct (is_ensure ev) eqn:Hev.
    - by rewrite filter_cons_True by done.
    - by rewrite filter_cons_False by (rewrite Hev; done). }
  split; [intros p; apply ensureCacheLoaded_shared |].
  split.
  { intros Hnone.
    destruct (run_hydration evs initial Hinit) as (Hok & _).
    destruct (ensureCacheLoaded_first _ Hnone) as (_ & _ & Hh & _).
    unfold hydration_ok in Hok. rewrite Hnone in Hok. destruct Hok as [Hr _].
    unfold reads in *. rewrite Hh, filter_app, length_app, Hr. done. }
  intros n. rewrite Hreads. done.
Qed.

End System.

Lemma cache_entries_truthy_witness :
  reachable (U := SimpleURL.parse) sample_state
  ∧ "a" ≠ "" ∧ truthy (data sample_entry) = true.
Proof.
  assert (Hreach : reachable (U := SimpleURL.parse) sample_state).
  { apply (reachable_step initial (CallUpsert "a" sample_payload 0));
      [apply reachable_initial | exact I]. }
  split; [exact Hreach |].
  destruct (cache_entries_truthy (U := SimpleURL.parse)) as (_ & _ & Hall).
  apply (Hall sample_state Hreach "a" sample_entry).
  vm_compute. reflexivity.
Defined.

Lemma persist_coalesced_witness :
  ∃ id due,
    timers sample_burst_state = [(id, due)] ∧ due = 2010
    ∧ writes (exec (fire_timer id) sample_burst_state)
      = [serialize (cache sample_burst_state)]
    ∧ {| s_key := Some "a"; s_data := Some (JNum 2); s_timestamp := Some 1900 |}
      ∈ serialize (cache sample_burst_state)
    ∧ {| s_key := Some "b"; s_data := Some (JStr "x"); s_timestamp := Some 700 |}
      ∈ serialize (cache sample_burst_state).
Proof.
  destruct (persist_coalesced (U := SimpleURL.parse)) as (_ & _ & Hburst).
  assert (Hne : sample_burst ≠ []) by discriminate.
  assert (Hall : Forall effective sample_burst).
  { repeat constructor; discriminate. }
  destruct (Hburst initial sample_burst reachable_initial Hne Hall)
    as (_ & id & due & Ht & _ & Hdue & _ & Hw & _ & _ & Hsnap).
  exists id, due.
  split; [exact Ht |].
  split; [destruct (Hdue eq_refl) as (u & Hu & ->); by inversion Hu |].
  split; [exact Hw |].
  split.
  - apply (Hsnap "a" {| data := JNum 2; timestamp := Some 1900 |}).
    reflexivity.
  - apply (Hsnap "b" {| data := JStr "x"; timestamp := Some 700 |}).
    reflexivity.
Defined.

Lemma hydration_reads_once_witness :
  reads (run (U := SimpleURL.parse) sample_calls initial) = 1%nat
  ∧ returned (U := SimpleURL.parse) sample_calls initial = [0; 0; 0]%nat
  ∧ ensureCacheLoaded (run (U := SimpleURL.parse) sample_calls initial)
    = (0%nat, run (U := SimpleURL.parse) sample_calls initial).
Proof.
  destruct (hydration_reads_once (U := SimpleURL.parse) sample_calls)
    as (Hreads & _ & _ & Hshared & _).
  split; [exact Hreads |].
  split; [reflexivity |].
  apply (Hshared {| promise_id := 0; resolved := true |}).
  reflexivity.
Defined.

(** ** The age a lookup reports *)

Lemma cacheLookup_present key now st h :
  eval (cacheLookup key now) st = Some h →
  ∃ e, key ≠ "" ∧ cache st !! key = Some e
       ∧ entry_age now e ≤ CACHE_TTL_MS
       ∧ h = {| hit_data := data e; age := entry_age now e |}
       ∧ exec (cacheLookup key now) st = st.
Proof.
  unfold eval, exec.
  destruct (cacheLookup_outcome key now st)
    as [-> | [(e & _ & _ & _ & ->) | (e & Hk & Hm & Hage & ->)]]; simpl;
    try done.
  intros [= <-]. eauto 10.
Qed.

(** C5, as the code has it.  A lookup that answers present reports the
    age [now - (timestamp || 0)] of the entry, which is at most the TTL
    and is not negative when the timestamp is not later than [now]; so
    an entry made by [upsertCache] at time [t] and looked up at a time
    [now >= t] within the TTL has the age [now - t >= 0]. *)
Theorem lookup_age :
  (∀ key now st h,
     eval (cacheLookup key now) st = Some h →
     ∃ e, cache st !! key = Some e ∧ hit_data h = data e
          ∧ age h = now - or_zero (timestamp e)
          ∧ age h ≤ CACHE_TTL_MS
          ∧ (or_zero (timestamp e) ≤ now → 0 ≤ age h))
  ∧ (∀ key d t now st,
       key ≠ "" → truthy d = true → t ≤ now → now - t ≤ CACHE_TTL_MS →
       eval (cacheLookup key now) (exec (upsertCache key d t) st)
       = Some {| hit_data := d; age := now - t |}
       ∧ 0 ≤ now - t).
Proof.
  split.
  - intros key now st h Hh.
    destruct (cacheLookup_present key now st h Hh)
      as (e & _ & Hm & Hage & -> & _).
    exists e. simpl. unfold entry_age in *. repeat split; auto; lia.
  - intros key d t now st Hk Hd Hle Httl. split; [| lia].
    unfold exec at 1. rewrite upsertCache_run by done. simpl.
    unfold eval.
    rewrite (cacheLookup_fresh key now _ {| data := d; timestamp := Some t |});
      [reflexivity | done | |].
    + rewrite cache_schedulePersist. simpl. apply lookup_insert_eq.
    + unfold entry_age. simpl. lia.
Qed.

Lemma lookup_age_witness :
  eval (cacheLookup "a" 5) sample_state
  = Some {| hit_data := sample_payload; age := 5 |}
  ∧ 0 ≤ 5.
Proof.
  destruct lookup_age as [_ Hupsert].
  destruct (Hupsert "a" sample_payload 0 5 initial) as [Hhit Hpos];
    [discriminate | reflexivity | lia | vm_compute; discriminate |].
  split; [exact Hhit | exact Hpos].
Defined.

(** An entry hydrated with a timestamp in the future is answered with a
    negative age. *)
Lemma lookup_age_negative :
  reachable (U := SimpleURL.parse) sample_hydrated
  ∧ eval (cacheLookup "k" 1700000002000) sample_hydrated
    = Some {| hit_data := sample_payload; age := -3000 |}
  ∧ -3000 < 0.
Proof.
  split; [| split; [vm_compute; reflexivity | lia]].
  unfold sample_hydrated.
  apply (reachable_step _ (StorageAnswers _ _ _)).
  - apply (reachable_step initial (MessageArrives (Some sample_request)));
      [apply reachable_initial | exact I].
  - eexists. split; reflexivity.
Qed.

(** ** The orchestrator *)

Lemma cacheLookup_miss_absent key now st :
  eval (cacheLookup key now) st = None →
  key = "" ∨ cache (exec (cacheLookup key now) st) !! key = None.
Proof.
  intros Hl. destruct (decide (key = "")) as [? | Hk]; [by left | right].
  unfold eval, exec in *.
  destruct (cache st !! key) as [e |] eqn:Hm.
  - destruct (Z_lt_le_dec CACHE_TTL_MS (entry_age now e)).
    + rewrite (cacheLookup_expired key now st e) by done. simpl.
      rewrite cache_schedulePersist. simpl. apply lookup_delete_eq.
    + by rewrite (cacheLookup_fresh key now st e) in Hl.
  - by rewrite cacheLookup_unmapped.
Qed.

(** What the request has done when it calls [fetch]: it has missed the
    cache under the derived key, it has only removed entries since
    hydration, and [fetch] is its latest call to the host. *)
Lemma handle_until_fetch_miss {U : URLParser} req w st r k :
  eval (handle_until_fetch req w) st = AwaitFetch r k →
  let st1 := exec (handle_until_fetch req w) st in
  r = req ∧ k = deriveCacheKey req
  ∧ (∀ t, cacheLookup k t st1 = (None, st1))
  ∧ cache st1 ⊆ cache (after_hydration w st)
  ∧ hostCalls st1
    = hostCalls (after_hydration w st) ++ [Fetch (apiUrl req)].
Proof.
  unfold eval, exec. rewrite handle_until_fetch_run, handle_hydrated_run.
  set (st0 := after_hydration w st).
  set (stp := exec (pruneExpiredEntries (w_prune w)) st0).
  set (key := deriveCacheKey req).
  destruct (eval (cacheLookup key (w_lookup w)) stp) as [h |] eqn:Hl;
    simpl; [done |].
  intros [= <- <-].
  split; [done |]. split; [done |].
  assert (Hhost : ∀ s now, hostCalls (exec (schedulePersist now) s) = hostCalls s)
    by (intros; apply schedulePersist_frame).
  assert (Hsub : cache (exec (cacheLookup key (w_lookup w)) stp) ⊆ cache st0).
  { etrans; [apply cacheLookup_subseteq |].
    unfold stp. rewrite cache_pruneExpiredEntries. apply prune_scan_subseteq. }
  assert (Hcalls : hostCalls (exec (cacheLookup key (w_lookup w)) stp)
                   = hostCalls st0).
  { transitivity (hostCalls stp).
    - apply (preserved_cacheLookup (λ s, hostCalls s = hostCalls stp));
        [done | | done]. intros now s <-. apply Hhost.
    - apply (preserved_pruneExpiredEntries (λ s, hostCalls s = hostCalls st0));
        [done | | done]. intros now s <-. apply Hhost. }
  split; [| split; [exact Hsub | by rewrite <- Hcalls]].
  intros t.
  destruct (cacheLookup_miss_absent key (w_lookup w) stp Hl) as [-> | Hnone];
    [done |].
  by apply cacheLookup_unmapped.
Qed.

Lemma handleFetch_after_fetch {U : URLParser} req w st r k :
  eval (handle_until_fetch req w) st = AwaitFetch r k →
  handleFetchTikTokData req w st
  = match handle_fetched k (w_fetch w) with
    | AwaitJson k' _ =>
        handle_parsed k' (w_body w) (w_upsert w)
          (exec (handle_until_fetch req w) st)
    | t => (t, exec (handle_until_fetch req w) st)
    end.
Proof.
  unfold handleFetchTikTokData, eval, exec. unfold bind at 1.
  destruct (handle_until_fetch req w st) as [t1 st1]. simpl. intros ->.
  simpl. unfold bind, ret. by destruct (handle_fetched k (w_fetch w)).
Qed.

Lemma fetches_call_host c st :
  fetches (call_host c st)
  = fetches st ++ match c with Fetch u => [u] | _ => [] end.
Proof. unfold fetches. simpl. rewrite omap_app. by destruct c. Qed.

Lemma after_hydration_resolved w st p :
  cacheLoadPromise st = Some p → resolved p = true →
  after_hydration w st = st.
Proof.
  intros Hp Hr. unfold after_hydration, exec.
  rewrite (ensureCacheLoaded_shared st p Hp). simpl.
  unfold await_hydration. unfold_monad. simpl. by rewrite Hp, Hr.
Qed.

Lemma fetches_after_hydration w st :
  fetches (after_hydration w st) = fetches st.
Proof.
  unfold after_hydration.
  assert (Hens : fetches (exec ensureCacheLoaded st) = fetches st).
  { destruct (cacheLoadPromise st) as [p |] eqn:Hp.
    - unfold exec. by rewrite (ensureCacheLoaded_shared st p Hp).
    - destruct (ensureCacheLoaded_first st Hp) as (_ & _ & Hh & _).
      unfold fetches. rewrite Hh, omap_app. simpl. by rewrite app_nil_r. }
  rewrite <- Hens. generalize (exec ensureCacheLoaded st). intros s.
  unfold await_hydration. unfold exec at 1. unfold bind at 1, gets at 1.
  simpl. destruct (cacheLoadPromise s) as [[id []] |]; try done. simpl.
  apply (preserved_hydrate (λ x, fetches x = fetches s)); try done.
  intros now x <-. unfold fetches.
  by destruct (schedulePersist_frame now x) as (_ & _ & -> & _).
Qed.

(** C6. When the endpoint answers a request with a status outside
    200..299, the request ends with the reply [{error: "HTTP error: "
    + status}], [fetch] has been called once, nothing has changed since
    that call (the step that receives the response changes no state,
    whatever state it resumes in), the derived key is not mapped to
    anything a lookup answers, and the map holds no entry it did not
    hold after hydration. *)
Theorem http_error_surfaced {U : URLParser} req w st r k status :
  eval (handle_until_fetch req w) st = AwaitFetch r k →
  w_fetch w = Response status → response_ok status = false →
  let st1 := exec (handle_until_fetch req w) st in
  k = deriveCacheKey req
  ∧ (∀ s, resume (AwaitFetch req k) (Fetched (Response status)) s
          = (Settled (Reject ("HTTP error: " +:+ pretty status)), s))
  ∧ handleFetchTikTokData req w st
    = (Settled (Reject ("HTTP error: " +:+ pretty status)), st1)
  ∧ reply_to req w st
    = (Some (ReplyError ("HTTP error: " +:+ pretty status)), st1)
  ∧ fetches st1 = fetches st ++ [apiUrl req]
  ∧ (∀ t, cacheLookup k t st1 = (None, st1))
  ∧ cache st1 ⊆ cache (after_hydration w st)
  ∧ (∀ p, cacheLoadPromise st = Some p → resolved p = true →
       cache st1 ⊆ cache st).
Proof.
  intros Hmiss Hfetch Hbad st1.
  destruct (handle_until_fetch_miss req w st r k Hmiss)
    as (-> & Hk & Habsent & Hsub & Hcalls).
  fold st1 in Habsent, Hsub, Hcalls.
  assert (Hrun : handleFetchTikTokData req w st
                 = (Settled (Reject ("HTTP error: " +:+ pretty status)), st1)).
  { rewrite (handleFetch_after_fetch req w st req k Hmiss).
    rewrite Hfetch. simpl. by rewrite Hbad. }
  split; [exact Hk |].
  split; [intros s; simpl; by rewrite Hbad |].
  split; [exact Hrun |].
  split; [unfold reply_to, bind; by rewrite Hrun |].
  split.
  { unfold fetches at 1. rewrite Hcalls, omap_app. simpl.
    fold (fetches (after_hydration w st)). by rewrite fetches_after_hydration. }
  split; [exact Habsent |]. split; [exact Hsub |].
  intros p Hp Hr. by rewrite (after_hydration_resolved w st p Hp Hr) in Hsub.
Qed.

Lemma http_error_surfaced_witness :
  reply_to (U := SimpleURL.parse) sample_request (sample_world 404 None) initial
  = (Some (ReplyError "HTTP error: 404"),
     exec (handle_until_fetch (U := SimpleURL.parse) sample_request
             (sample_world 404 None)) initial).
Proof.
  destruct (http_error_surfaced (U := SimpleURL.parse) sample_request
              (sample_world 404 None) initial sample_request
              "https://site/v/1" 404%N)
    as (_ & _ & _ & Hreply & _).
  - vm_compute. reflexivity.
  - reflexivity.
  - reflexivity.
  - exact Hreply.
Defined.

(** ** Successful fetches *)

Lemma tokens_nonempty s ts :
  s ≠ "" → Platform.tokens s = Some ts → ts ≠ [].
Proof.
  destruct s as [| c tl]; [done |]. intros _. simpl.
  destruct (Ascii.eqb c Platform.percent).
  - destruct tl as [| a [| b rest]]; try done.
    destruct (Platform.hex_val a), (Platform.hex_val b); try done.
    destruct (Platform.tokens rest); [| done]. by intros [= <-].
  - destruct (Platform.tokens tl); [| done]. by intros [= <-].
Qed.

Lemma decodeURIComponent_nonempty v d :
  v ≠ "" → Platform.decodeURIComponent v = Some d → d ≠ "".
Proof.
  intros Hv. unfold Platform.decodeURIComponent.
  destruct (Platform.tokens v) as [ts |] eqn:Hts; [| done].
  pose proof (tokens_nonempty v ts Hv Hts) as Hne.
  destruct ts as [| [c | b] ts]; [done | |]; simpl.
  - destruct (Platform.assemble _ ts); [| done]. by intros [= <-].
  - destruct (Platform.utf8_lead b); [| done].
    destruct (Platform.assemble _ ts); [| done]. by intros [= <-].
Qed.

(** The derived key is falsy only when the request has no [apiUrl]. *)
Lemma deriveCacheKey_truthy {U : URLParser} req :
  apiUrl req ≠ "" → deriveCacheKey req ≠ "".
Proof.
  intros Hurl. unfold deriveCacheKey.
  destruct (truthy_str (default "" (cacheKey req))) eqn:Hk;
    [by apply truthy_str_true |].
  destruct (new_URL (apiUrl req)); [| done].
  destruct (js_or _ _) as [v |]; [| done].
  destruct (truthy_str v) eqn:Hv; [| done].
  destruct (Platform.decodeURIComponent v) as [d |] eqn:Hd; [| done].
  apply truthy_str_true in Hv. by eapply decodeURIComponent_nonempty.
Qed.

(** C2, as the code has it.  When a request has called [fetch], the
    response is OK and its body parses, [upsertCache] runs once, with
    the derived key and the payload, and is all that happens before the
    promise resolves with [{data, cacheHit: false, cacheAge: 0}], in
    whatever state the request resumes.  When
    the key and the payload are truthy the entry is then in the map, and
    a lookup of the key within the TTL answers the payload.  When the
    payload is falsy the upsert changes nothing and a lookup of the key
    answers absent. *)
Theorem fetch_success_upserts {U : URLParser} req w st r k status payload :
  eval (handle_until_fetch req w) st = AwaitFetch r k →
  w_fetch w = Response status → response_ok status = true →
  w_body w = Some payload →
  let st1 := exec (handle_until_fetch req w) st in
  let final := exec (handleFetchTikTokData req w) st in
  k = deriveCacheKey req
  ∧ (apiUrl req ≠ "" → k ≠ "")
  ∧ (∀ s now,
       exec (resume (AwaitJson k status) (Parsed (Some payload) now)) s
       = exec (upsertCache k payload now) s
       ∧ eval (resume (AwaitJson k status) (Parsed (Some payload) now)) s
         = Settled (Resolve {| r_data := payload; cacheHit := false;
                               cacheAge := 0 |}))
  ∧ eval (handleFetchTikTokData req w) st
    = Settled (Resolve {| r_data := payload; cacheHit := false; cacheAge := 0 |})
  ∧ final = exec (upsertCache k payload (w_upsert w)) st1
  ∧ (k ≠ "" → truthy payload = true →
       cache final
       = <[k := {| data := payload; timestamp := Some (w_upsert w) |}]> (cache st1)
       ∧ ∀ t, t - w_upsert w ≤ CACHE_TTL_MS →
           cacheLookup k t final
           = (Some {| hit_data := payload; age := t - w_upsert w |}, final))
  ∧ (truthy payload = false →
       final = st1 ∧ ∀ t, cacheLookup k t final = (None, final)).
Proof.
  intros Hmiss Hfetch Hok Hbody st1 final.
  destruct (handle_until_fetch_miss req w st r k Hmiss)
    as (-> & Hk & Habsent & _).
  fold st1 in Habsent.
  assert (Hrun : handleFetchTikTokData req w st
                 = (Settled (Resolve {| r_data := payload; cacheHit := false;
                                        cacheAge := 0 |}),
                    exec (upsertCache k payload (w_upsert w)) st1)).
  { rewrite (handleFetch_after_fetch req w st req k Hmiss).
    rewrite Hfetch. simpl. rewrite Hok. simpl. rewrite Hbody. simpl.
    fold st1. unfold bind, ret, exec.
    by destruct (upsertCache k payload (w_upsert w) st1) as [[] ?]. }
  assert (Hfinal : final = exec (upsertCache k payload (w_upsert w)) st1)
    by (unfold final, exec at 1; by rewrite Hrun).
  split; [exact Hk |].
  split; [intros Hurl; rewrite Hk; by apply deriveCacheKey_truthy |].
  split.
  { intros s now. rewrite resume_state. split; [done |].
    unfold eval. simpl. unfold bind, ret.
    by destruct (upsertCache k payload now s) as [[] ?]. }
  split; [unfold eval; by rewrite Hrun |].
  split; [exact Hfinal |].
  split.
  - intros Hkey Hd.
    assert (Hc : cache final
                 = <[k := {| data := payload; timestamp := Some (w_upsert w) |}]>
                     (cache st1)).
    { rewrite Hfinal. unfold exec at 1. rewrite upsertCache_run by done.
      simpl. by rewrite cache_schedulePersist. }
    split; [exact Hc |]. intros t Ht.
    rewrite (cacheLookup_fresh k t final
               {| data := payload; timestamp := Some (w_upsert w) |});
      [done | done | | ].
    + rewrite Hc. apply lookup_insert_eq.
    + unfold entry_age. simpl. lia.
  - intros Hd.
    assert (Hsame : final = st1).
    { rewrite Hfinal. unfold exec. by rewrite upsertCache_refused by auto. }
    split; [exact Hsame |]. rewrite Hsame. exact Habsent.
Qed.

Lemma fetch_success_upserts_witness :
  eval (handleFetchTikTokData (U := SimpleURL.parse) sample_request
          (sample_world 200 (Some sample_payload))) initial
  = Settled (Resolve {| r_data := sample_payload; cacheHit := false;
                        cacheAge := 0 |})
  ∧ eval (cacheLookup "https://site/v/1" 1700000060350)
         (exec (handleFetchTikTokData (U := SimpleURL.parse) sample_request
                  (sample_world 200 (Some sample_payload))) initial)
    = Some {| hit_data := sample_payload; age := 60000 |}.
Proof.
  destruct (fetch_success_upserts (U := SimpleURL.parse) sample_request
              (sample_world 200 (Some sample_payload)) initial sample_request
              "https://site/v/1" 200%N sample_payload)
    as (_ & _ & _ & Hres & _ & Hhit & _).
  - vm_compute. reflexivity.
  - reflexivity.
  - reflexivity.
  - reflexivity.
  - split; [exact Hres |].
    destruct Hhit as [_ Hlook]; [discriminate | reflexivity |].
    unfold eval. rewrite (Hlook 1700000060350); [reflexivity |].
    vm_compute. discriminate.
Defined.

(** A body that parses to [null] is returned to the caller and not
    cached: the lookup that follows answers absent. *)
Lemma fetch_success_null_not_cached :
  handleFetchTikTokData (U := SimpleURL.parse) sample_request
    (sample_world 200 (Some JNull)) initial
  = (Settled (Resolve {| r_data := JNull; cacheHit := false; cacheAge := 0 |}),
     sample_null_state)
  ∧ response_ok 200 = true
  ∧ deriveCacheKey (U := SimpleURL.parse) sample_request = "https://site/v/1"
  ∧ eval (cacheLookup "https://site/v/1" 1700000000351) sample_null_state = None
  ∧ cache sample_null_state = ∅.
Proof.
  split; [vm_compute; reflexivity |].
  split; [reflexivity |].
  split; [vm_compute; reflexivity |].
  split; vm_compute; reflexivity.
Qed.

(** ** Key derivation *)

Lemma deriveCacheKey_explicit {U : URLParser} req k :
  cacheKey req = Some k → k ≠ "" → deriveCacheKey req = k.
Proof.
  intros Hk Hne. unfold deriveCacheKey. rewrite Hk. simpl.
  apply truthy_str_true in Hne. by rewrite Hne.
Qed.

Lemma deriveCacheKey_no_URL {U : URLParser} req :
  default "" (cacheKey req) = "" → new_URL (apiUrl req) = None →
  deriveCacheKey req = apiUrl req.
Proof. intros Hk Hu. unfold deriveCacheKey. by rewrite Hk, Hu. Qed.

Lemma deriveCacheKey_target {U : URLParser} req q v :
  default "" (cacheKey req) = "" → new_URL (apiUrl req) = Some q →
  js_or (Platform.get "url" (Platform.parse_urlencoded q))
        (Platform.get "source" (Platform.parse_urlencoded q)) = Some v →
  v ≠ "" →
  deriveCacheKey req
  = default (apiUrl req) (Platform.decodeURIComponent v).
Proof.
  intros Hk Hu Hv Hne. unfold deriveCacheKey. rewrite Hk, Hu. simpl.
  rewrite Hv. apply truthy_str_true in Hne. rewrite Hne.
  by destruct (Platform.decodeURIComponent v).
Qed.

Lemma deriveCacheKey_no_target {U : URLParser} req q :
  default "" (cacheKey req) = "" → new_URL (apiUrl req) = Some q →
  js_or (Platform.get "url" (Platform.parse_urlencoded q))
        (Platform.get "source" (Platform.parse_urlencoded q)) = None →
  deriveCacheKey req = apiUrl req.
Proof.
  intros Hk Hu Hv. unfold deriveCacheKey. rewrite Hk, Hu. simpl. by rewrite Hv.
Qed.

Lemma js_or_left a b v : a = Some v → v ≠ "" → js_or a b = Some v.
Proof.
  intros -> Hne. simpl. apply truthy_str_true in Hne. by rewrite Hne.
Qed.

Lemma js_or_right a b : a = None ∨ a = Some "" → js_or a b = b.
Proof. by intros [-> | ->]. Qed.

(** *** Any value of [api_key], in either position *)

Lemma all_chars_app p a b :
  SimpleURL.all_chars p (a +:+ b)
  = SimpleURL.all_chars p a && SimpleURL.all_chars p b.
Proof.
  induction a as [| c a IH]; [done |].
  change (String c a +:+ b) with (String c (a +:+ b)).
  simpl. by rewrite IH, andb_assoc.
Qed.

Lemma all_chars_weaken (p q : ascii → bool) s :
  (∀ c, p c = true → q c = true) →
  SimpleURL.all_chars p s = true → SimpleURL.all_chars q s = true.
Proof.
  intros Hpq. induction s as [| c s IH]; [done |]. simpl.
  intros [Hc Hs]%andb_true_iff. by rewrite (Hpq c Hc), IH.
Qed.

Lemma cut_at_absent sep s :
  SimpleURL.all_chars (λ c, negb (Ascii.eqb c sep)) s = true →
  Platform.cut_at sep s = (s, "").
Proof.
  induction s as [| c s IH]; [done |]. simpl.
  intros [Hc Hs]%andb_true_iff. apply negb_true_iff in Hc.
  by rewrite Hc, IH.
Qed.

Lemma split_on_head sep a rest :
  SimpleURL.all_chars (λ c, negb (Ascii.eqb c sep)) a = true →
  Platform.split_on sep (a +:+ String sep rest)
  = a :: Platform.split_on sep rest.
Proof.
  induction a as [| c a IH]; simpl.
  - intros _. change ("" +:+ String sep rest) with (String sep rest).
    simpl. by rewrite Ascii.eqb_refl.
  - intros [Hc Ha]%andb_true_iff. apply negb_true_iff in Hc.
    change (String c a +:+ String sep rest)
      with (String c (a +:+ String sep rest)).
    simpl. by rewrite Hc, IH.
Qed.

Lemma append_assoc_string (a b c : string) : (a +:+ b) +:+ c = a +:+ (b +:+ c).
Proof.
  induction a as [| x a IH]; [done |].
  change ((String x a +:+ b) +:+ c) with (String x ((a +:+ b) +:+ c)).
  by rewrite IH.
Qed.

Lemma value_char_url k :
  SimpleURL.all_chars value_char k = true →
  SimpleURL.all_chars SimpleURL.url_char k = true.
Proof.
  apply all_chars_weaken. unfold value_char.
  by intros c [[H _]%andb_true_iff _]%andb_true_iff.
Qed.

Lemma value_char_no sep k :
  sep = "&"%char ∨ sep = "#"%char →
  SimpleURL.all_chars value_char k = true →
  SimpleURL.all_chars (λ c, negb (Ascii.eqb c sep)) k = true.
Proof.
  intros Hsep. apply all_chars_weaken. unfold value_char.
  intros c [[_ H1]%andb_true_iff H2]%andb_true_iff. by destruct Hsep as [-> | ->].
Qed.

Lemma parse_api_key_last k :
  SimpleURL.all_chars value_char k = true →
  SimpleURL.parse (api_key_last k)
  = Some ("url=https%3A%2F%2Fsite%2Fv%2F1" +:+ String "&" ("api_key=" +:+ k)).
Proof.
  intros Hk. unfold SimpleURL.parse, api_key_last.
  rewrite all_chars_app, (value_char_url k Hk).
  replace (SimpleURL.all_chars SimpleURL.url_char _) with true
    by (vm_compute; reflexivity).
  simpl negb. cbv iota.
  change (SimpleURL.after_scheme _)
    with (Some ("api.example/x?url=https%3A%2F%2Fsite%2Fv%2F1&api_key=" +:+ k)).
  cbv iota beta.
  rewrite cut_at_absent.
  2:{ rewrite all_chars_app, (value_char_no "#" k) by auto.
      vm_compute. reflexivity. }
  reflexivity.
Qed.

Lemma parse_api_key_first k :
  SimpleURL.all_chars value_char k = true →
  SimpleURL.parse (api_key_first k)
  = Some (("api_key=" +:+ k)
          +:+ String "&" "url=https%3A%2F%2Fsite%2Fv%2F1").
Proof.
  intros Hk. unfold SimpleURL.parse, api_key_first.
  rewrite !all_chars_app, (value_char_url k Hk).
  replace (SimpleURL.all_chars SimpleURL.url_char
             "https://api.example/x?api_key=") with true
    by (vm_compute; reflexivity).
  replace (SimpleURL.all_chars SimpleURL.url_char
             "&url=https%3A%2F%2Fsite%2Fv%2F1") with true
    by (vm_compute; reflexivity).
  simpl negb. cbv iota.
  change (SimpleURL.after_scheme _)
    with (Some ("api.example/x?api_key="
                +:+ k +:+ "&url=https%3A%2F%2Fsite%2Fv%2F1")).
  cbv iota beta.
  rewrite cut_at_absent.
  2:{ rewrite !all_chars_app, (value_char_no "#" k) by auto.
      vm_compute. reflexivity. }
  rewrite <- append_assoc_string. reflexivity.
Qed.

(** Whatever the [api_key], and wherever it stands, the key of the
    sample endpoint is the decoded [url] parameter. *)
Lemma deriveCacheKey_any_api_key k :
  SimpleURL.all_chars value_char k = true →
  deriveCacheKey (U := SimpleURL.parse) (request_for (api_key_last k))
  = "https://site/v/1"
  ∧ deriveCacheKey (U := SimpleURL.parse) (request_for (api_key_first k))
    = "https://site/v/1".
Proof.
  intros Hk. split.
  - rewrite (deriveCacheKey_target (U := SimpleURL.parse) _
               ("url=https%3A%2F%2Fsite%2Fv%2F1" +:+ String "&" ("api_key=" +:+ k))
               "https://site/v/1");
      [reflexivity | reflexivity | by apply parse_api_key_last | | discriminate].
    unfold Platform.parse_urlencoded.
    rewrite split_on_head by (vm_compute; reflexivity).
    rewrite filter_cons_True by discriminate. reflexivity.
  - rewrite (deriveCacheKey_target (U := SimpleURL.parse) _
               (("api_key=" +:+ k) +:+ String "&" "url=https%3A%2F%2Fsite%2Fv%2F1")
               "https://site/v/1");
      [reflexivity | reflexivity | by apply parse_api_key_first | | discriminate].
    unfold Platform.parse_urlencoded.
    rewrite split_on_head.
    2:{ rewrite all_chars_app, (value_char_no "&" k) by auto.
        vm_compute. reflexivity. }
    rewrite filter_cons_True by discriminate. reflexivity.
Qed.

(** C3. The derived key is the explicit [cacheKey] when the request
    carries a truthy one; otherwise the decoded value of the [url] query
    parameter of [apiUrl], or of [source] when there is no [url] value;
    otherwise [apiUrl] itself, when it does not parse as a URL, when
    the value does not decode, or when neither parameter has a value.
    For
    [https://api.example/x?url=https%3A%2F%2Fsite%2Fv%2F1&api_key=Demo]
    the key is [https://site/v/1], as it is with any other value of
    [api_key] (written without [&] and [#]), with [api_key] before
    [url], and with no [api_key] at all. *)
Theorem deriveCacheKey_cases :
  (∀ (U : URLParser) req k,
     cacheKey req = Some k → k ≠ "" → deriveCacheKey req = k)
  ∧ (∀ (U : URLParser) req q v d,
       default "" (cacheKey req) = "" → new_URL (apiUrl req) = Some q →
       Platform.get "url" (Platform.parse_urlencoded q) = Some v → v ≠ "" →
       Platform.decodeURIComponent v = Some d →
       deriveCacheKey req = d)
  ∧ (∀ (U : URLParser) req q v d,
       default "" (cacheKey req) = "" → new_URL (apiUrl req) = Some q →
       Platform.get "url" (Platform.parse_urlencoded q) = None
       ∨ Platform.get "url" (Platform.parse_urlencoded q) = Some "" →
       Platform.get "source" (Platform.parse_urlencoded q) = Some v → v ≠ "" →
       Platform.decodeURIComponent v = Some d →
       deriveCacheKey req = d)
  ∧ (∀ (U : URLParser) req,
       default "" (cacheKey req) = "" → new_URL (apiUrl req) = None →
       deriveCacheKey req = apiUrl req)
  ∧ (∀ (U : URLParser) req q v,
       default "" (cacheKey req) = "" → new_URL (apiUrl req) = Some q →
       js_or (Platform.get "url" (Platform.parse_urlencoded q))
             (Platform.get "source" (Platform.parse_urlencoded q)) = Some v →
       v ≠ "" → Platform.decodeURIComponent v = None →
       deriveCacheKey req = apiUrl req)
  ∧ (∀ (U : URLParser) req q,
       default "" (cacheKey req) = "" → new_URL (apiUrl req) = Some q →
       js_or (Platform.get "url" (Platform.parse_urlencoded q))
             (Platform.get "source" (Platform.parse_urlencoded q)) = None →
       deriveCacheKey req = apiUrl req)
  ∧ deriveCacheKey (U := SimpleURL.parse)
      (request_for "https://api.example/x?url=https%3A%2F%2Fsite%2Fv%2F1&api_key=Demo")
    = "https://site/v/1"
  ∧ (∀ k, SimpleURL.all_chars value_char k = true →
       deriveCacheKey (U := SimpleURL.parse) (request_for (api_key_last k))
       = "https://site/v/1"
       ∧ deriveCacheKey (U := SimpleURL.parse) (request_for (api_key_first k))
         = "https://site/v/1")
  ∧ deriveCacheKey (U := SimpleURL.parse)
      (request_for "https://api.example/x?api_key=Demo&url=https%3A%2F%2Fsite%2Fv%2F1")
    = "https://site/v/1"
  ∧ deriveCacheKey (U := SimpleURL.parse)
      (request_for "https://api.example/x?url=https%3A%2F%2Fsite%2Fv%2F1")
    = "https://site/v/1"
  ∧ deriveCacheKey (U := SimpleURL.parse)
      (request_for "https://api.example/x?source=https%3A%2F%2Fsite%2Fv%2F1&api_key=Demo")
    = "https://site/v/1".
Proof.
  split; [intros U req k; apply deriveCacheKey_explicit |].
  split.
  { intros U req q v d Hk Hu Hv Hne Hd.
    rewrite (deriveCacheKey_target req q v); auto using js_or_left.
    by rewrite Hd. }
  split.
  { intros U req q v d Hk Hu Hurl Hv Hne Hd.
    rewrite (deriveCacheKey_target req q v); auto.
    - by rewrite Hd.
    - by rewrite js_or_right. }
  split; [intros U req; apply deriveCacheKey_no_URL |].
  split.
  { intros U req q v Hk Hu Hv Hne Hd.
    rewrite (deriveCacheKey_target req q v); auto. by rewrite Hd. }
  split; [intros U req q; apply deriveCacheKey_no_target |].
  split; [vm_compute; reflexivity |].
  split; [apply deriveCacheKey_any_api_key |].
  repeat split; vm_compute; reflexivity.
Qed.

Lemma deriveCacheKey_cases_witness :
  deriveCacheKey (U := SimpleURL.parse) sample_keyed_request
  = "https://www.tiktok.com/@u/video/1"
  ∧ deriveCacheKey (U := SimpleURL.parse) sample_request = "https://site/v/1"
  ∧ deriveCacheKey (U := SimpleURL.parse) (request_for "not a url")
    = "not a url"
  ∧ deriveCacheKey (U := SimpleURL.parse)
      (request_for "https://api.example/x?url=100%25")
    = "https://api.example/x?url=100%25"
  ∧ deriveCacheKey (U := SimpleURL.parse)
      (request_for (api_key_first "Other=1"))
    = "https://site/v/1".
Proof.
  destruct deriveCacheKey_cases
    as (Hexplicit & Hurl & _ & Hthrow & Hbad & _ & _ & Hany & _).
  split.
  { apply (Hexplicit SimpleURL.parse sample_keyed_request);
      [reflexivity | discriminate]. }
  split.
  { apply (Hurl SimpleURL.parse sample_request
             "url=https%3A%2F%2Fsite%2Fv%2F1&api_key=Demo" "https://site/v/1");
      [reflexivity | reflexivity | reflexivity | discriminate | reflexivity]. }
  split.
  { apply (Hthrow SimpleURL.parse (request_for "not a url")); reflexivity. }
  split.
  { apply (Hbad SimpleURL.parse
             (request_for "https://api.example/x?url=100%25")
             "url=100%25" "100%");
      [reflexivity | reflexivity | reflexivity | discriminate | reflexivity]. }
  apply (Hany "Other=1"). reflexivity.
Defined.

(** ** Decoding twice *)

Lemma hex_not_percent a :
  Platform.is_hex a = true → Ascii.eqb a Platform.percent = false.
Proof.
  destruct a as [[] [] [] [] [] [] [] []]; vm_compute; congruence.
Qed.

Lemma tokens_no_bad_escape n s ts :
  (String.length s ≤ n)%nat →
  Platform.tokens s = Some ts → Platform.bad_escape s = false.
Proof.
  revert s ts. induction n as [| n IH]; intros s ts Hlen.
  - destruct s; [done | simpl in Hlen; lia].
  - destruct s as [| c tl]; [done |]. simpl in Hlen. simpl.
    destruct (Ascii.eqb c Platform.percent) eqn:Hc; simpl.
    + destruct tl as [| a [| b rest]]; try done.
      unfold Platform.is_hex.
      destruct (Platform.hex_val a) eqn:Ha; [| done].
      destruct (Platform.hex_val b) eqn:Hb; [| done].
      destruct (Platform.tokens rest) as [ts' |] eqn:Hrest; [| done].
      intros _. simpl.
      rewrite (hex_not_percent a) by (unfold Platform.is_hex; by rewrite Ha).
      rewrite (hex_not_percent b) by (unfold Platform.is_hex; by rewrite Hb).
      simpl. apply (IH rest ts'); [simpl in Hlen; lia | done].
    + destruct (Platform.tokens tl) as [ts' |] eqn:Htl; [| done].
      intros _. apply (IH tl ts'); [lia | done].
Qed.

(** A value with a malformed escape makes [decodeURIComponent] throw. *)
Lemma bad_escape_throws v :
  Platform.bad_escape v = true → Platform.decodeURIComponent v = None.
Proof.
  intros Hbad. unfold Platform.decodeURIComponent.
  destruct (Platform.tokens v) as [ts |] eqn:Hts; [| done].
  rewrite (tokens_no_bad_escape (String.length v) v ts) in Hbad; done.
Qed.

(** The value [searchParams.get] answers has been decoded once. *)
Lemma get_decoded_once name q v :
  Platform.get name (Platform.parse_urlencoded q) = Some v →
  ∃ piece, piece ∈ Platform.split_on "&" q ∧ piece ≠ ""
           ∧ Platform.form_decode (Platform.cut_at "=" piece).1 = name
           ∧ v = Platform.form_decode (Platform.cut_at "=" piece).2.
Proof.
  unfold Platform.get, Platform.parse_urlencoded.
  destruct (find _ _) as [[n v'] |] eqn:Hfind; [| done].
  simpl. intros [= <-].
  apply find_some in Hfind as [Hin Heq]. simpl in Heq.
  apply String.eqb_eq in Heq as ->.
  apply list_elem_of_In, list_elem_of_fmap in Hin as (piece & Hpiece & Hin).
  apply list_elem_of_filter in Hin as [Hne Hin].
  exists piece. destruct (Platform.cut_at "=" piece) as [a b].
  injection Hpiece as -> ->. done.
Qed.

Lemma js_or_Some a b v : js_or a b = Some v → a = Some v ∨ b = Some v.
Proof.
  destruct a as [x |]; simpl; [| auto].
  destruct (truthy_str x); auto.
Qed.

(** C10. For a request without an explicit key whose [apiUrl] parses,
    the value of [url] (or [source]) that [searchParams.get] answers
    has been percent-decoded once; [decodeURIComponent] decodes it a
    second time.  When that value has a malformed escape the second
    decoding throws and the key is the raw [apiUrl], not the value;
    when it decodes, the key is the value decoded twice. *)
Theorem deriveCacheKey_decodes_twice :
  (∀ (U : URLParser) req q v,
     default "" (cacheKey req) = "" → new_URL (apiUrl req) = Some q →
     js_or (Platform.get "url" (Platform.parse_urlencoded q))
           (Platform.get "source" (Platform.parse_urlencoded q)) = Some v →
     v ≠ "" →
     (∃ name piece,
        (name = "url" ∨ name = "source")
        ∧ piece ∈ Platform.split_on "&" q
        ∧ Platform.form_decode (Platform.cut_at "=" piece).1 = name
        ∧ v = Platform.form_decode (Platform.cut_at "=" piece).2)
     ∧ (Platform.bad_escape v = true →
          Platform.decodeURIComponent v = None
          ∧ deriveCacheKey req = apiUrl req)
     ∧ (Platform.decodeURIComponent v = None → deriveCacheKey req = apiUrl req)
     ∧ (∀ d, Platform.decodeURIComponent v = Some d → deriveCacheKey req = d))
  ∧ Platform.get "url" (Platform.parse_urlencoded "url=100%25") = Some "100%"
  ∧ deriveCacheKey (U := SimpleURL.parse)
      (request_for "https://api.example/x?url=100%25")
    = "https://api.example/x?url=100%25"
  ∧ Platform.get "url" (Platform.parse_urlencoded "url=a%2520b") = Some "a%20b"
  ∧ deriveCacheKey (U := SimpleURL.parse)
      (request_for "https://api.example/x?url=a%2520b")
    = "a b".
Proof.
  split; [| repeat split; vm_compute; reflexivity].
  intros U req q v Hk Hu Hv Hne.
  pose proof (deriveCacheKey_target req q v Hk Hu Hv Hne) as Hkey.
  split.
  { destruct (js_or_Some _ _ _ Hv) as [Hget | Hget];
      destruct (get_decoded_once _ _ _ Hget) as (piece & Hin & _ & Hn & Hval);
      [exists "url", piece | exists "source", piece]; auto. }
  split.
  { intros Hbad. pose proof (bad_escape_throws v Hbad) as Hthrow.
    split; [exact Hthrow |]. by rewrite Hkey, Hthrow. }
  split; [intros Hthrow; by rewrite Hkey, Hthrow |].
  intros d Hd. by rewrite Hkey, Hd.
Qed.

Lemma deriveCacheKey_decodes_twice_witness :
  Platform.decodeURIComponent "100%" = None
  ∧ deriveCacheKey (U := SimpleURL.parse)
      (request_for "https://api.example/x?url=100%25")
    = "https://api.example/x?url=100%25"
  ∧ deriveCacheKey (U := SimpleURL.parse)
      (request_for "https://api.example/x?source=a%2520b")
    = "a b".
Proof.
  destruct deriveCacheKey_decodes_twice as (Hall & _).
  destruct (Hall SimpleURL.parse
              (request_for "https://api.example/x?url=100%25")
              "url=100%25" "100%")
    as (_ & Hbad & _); [reflexivity | reflexivity | reflexivity | discriminate |].
  destruct (Hall SimpleURL.parse
              (request_for "https://api.example/x?source=a%2520b")
              "source=a%2520b" "a%20b")
    as (_ & _ & _ & Hgood); [reflexivity | reflexivity | reflexivity | discriminate |].
  destruct (Hbad eq_refl) as [Hthrow Hraw].
  split; [exact Hthrow |]. split; [exact Hraw |].
  apply Hgood. reflexivity.
Defined.

(** ** The logger *)

Module LoggerFacts.

Import Logger.

Lemma resolveLevel_name g l : resolveLevel g (Some (level_name l)) = l.
Proof. by destruct l. Qed.

Lemma shouldLog_name g l :
  shouldLog g (Some (level_name l))
  = (LEVEL_ORDER g <=? LEVEL_ORDER l)%nat.
Proof. unfold shouldLog. by rewrite resolveLevel_name. Qed.

Lemma trim_start_clean s : starts_clean (trim_start s) = true.
Proof.
  induction s as [| c tl IH]; [done |]. simpl.
  destruct (Ascii.is_space c) eqn:Hc; [done |]. simpl. by rewrite Hc.
Qed.

Lemma trim_start_id s : starts_clean s = true → trim_start s = s.
Proof.
  destruct s as [| c tl]; [done |]. simpl.
  by destruct (Ascii.is_space c).
Qed.

Lemma trim_end_clean s :
  starts_clean s = true → starts_clean (trim_end s) = true.
Proof.
  destruct s as [| c tl]; [done |]. simpl.
  destruct (Ascii.is_space c) eqn:Hc; [done |]. simpl. by rewrite Hc.
Qed.

Lemma trim_end_idem s : trim_end (trim_end s) = trim_end s.
Proof.
  induction s as [| c tl IH]; [done |]. simpl.
  destruct (Ascii.is_space c && String.eqb (trim_end tl) "") eqn:Hb;
    [done |].
  simpl. by rewrite IH, Hb.
Qed.

Lemma trim_idem s : trim (trim s) = trim s.
Proof.
  unfold trim.
  rewrite (trim_start_id (trim_end (trim_start s)))
    by apply trim_end_clean, trim_start_clean.
  apply trim_end_idem.
Qed.

Lemma sanitizeScope_truthy s : sanitizeScope s ≠ "".
Proof.
  unfold sanitizeScope. destruct (truthy_str s); simpl; [| done].
  destruct (truthy_str (trim s)) eqn:Ht; [| done].
  by apply truthy_str_true.
Qed.

Lemma sanitizeScope_idem s : sanitizeScope (sanitizeScope s) = sanitizeScope s.
Proof.
  unfold sanitizeScope at 2 3. destruct (truthy_str s); simpl; [| done].
  destruct (truthy_str (trim s)) eqn:Ht; [| done].
  unfold sanitizeScope. rewrite Ht. simpl. by rewrite trim_idem, Ht.
Qed.

Lemma denied_by_name g0 scope opts name :
  name ∈ configured (opt_denyList opts) → name ≠ "" →
  sanitizeScope name = sanitizeScope scope →
  loggerScope (createScopedLogger g0 scope opts)
  ∈ denied (createScopedLogger g0 scope opts).
Proof.
  intros Hin Hne Heq. simpl. apply elem_of_list_to_set.
  rewrite <- Heq. apply list_elem_of_fmap_2.
  apply truthy_str_true in Hne.
  destruct (opt_denyList opts) as [| n | names]; simpl in *.
  - by apply elem_of_nil in Hin.
  - apply list_elem_of_singleton in Hin as ->.
    rewrite filter_cons_True by done. by apply list_elem_of_singleton.
  - by apply list_elem_of_filter.
Qed.

Lemma log_emitted g lg lvl msg rest ts rec :
  log g lg lvl msg rest ts = Some rec →
  method rec = resolveLevel g lvl
  ∧ (LEVEL_ORDER g ≤ LEVEL_ORDER (method rec))%nat
  ∧ (LEVEL_ORDER (localLevel lg) ≤ LEVEL_ORDER (method rec))%nat
  ∧ loggerScope lg ∉ denied lg.
Proof.
  unfold log. rewrite shouldLog_name.
  destruct (LEVEL_ORDER g <=? LEVEL_ORDER (resolveLevel g lvl))%nat eqn:Hg;
    simpl; [| done].
  destruct (LEVEL_ORDER (resolveLevel g lvl) <? LEVEL_ORDER (localLevel lg))%nat
    eqn:Hl; simpl; [done |].
  destruct (bool_decide_reflect (loggerScope lg ∈ denied lg)) as [| Hd];
    [done |].
  intros [= <-]. simpl.
  apply Nat.leb_le in Hg. apply Nat.ltb_ge in Hl. done.
Qed.

Lemma log_denied g lg lvl msg rest ts :
  loggerScope lg ∈ denied lg → log g lg lvl msg rest ts = None.
Proof.
  intros Hd. unfold log.
  destruct (_ || _); [done |]. by rewrite bool_decide_eq_true_2.
Qed.

End LoggerFacts.

(** C9. The levels are ordered debug < info < warn < error.  A record
    that a logger emits has a level at or above the global level at the
    time of the call and at or above the local level the logger was
    created with; a logger whose scope name is in its deny-list, as it
    is when the name is written in [options.denyList], emits nothing at
    any level, whatever the global level. *)
Theorem log_gated :
  (Logger.LEVEL_ORDER Logger.debug < Logger.LEVEL_ORDER Logger.info
   < Logger.LEVEL_ORDER Logger.warn)%nat
  ∧ (Logger.LEVEL_ORDER Logger.warn < Logger.LEVEL_ORDER Logger.error)%nat
  ∧ (∀ g0 scope opts,
       Logger.localLevel (Logger.createScopedLogger g0 scope opts)
       = Logger.resolveLevel g0 (Logger.opt_level opts))
  ∧ (∀ g lg lvl msg rest ts rec,
       Logger.log g lg lvl msg rest ts = Some rec →
       Logger.method rec = Logger.resolveLevel g lvl
       ∧ (Logger.LEVEL_ORDER g ≤ Logger.LEVEL_ORDER (Logger.method rec))%nat
       ∧ (Logger.LEVEL_ORDER (Logger.localLevel lg)
          ≤ Logger.LEVEL_ORDER (Logger.method rec))%nat
       ∧ Logger.loggerScope lg ∉ Logger.denied lg)
  ∧ (∀ g lg lvl msg rest ts,
       Logger.loggerScope lg ∈ Logger.denied lg →
       Logger.log g lg lvl msg rest ts = None)
  ∧ (∀ g0 g scope opts lvl msg rest ts,
       Logger.sanitizeScope scope
       ∈ Logger.configured (Logger.opt_denyList opts) →
       Logger.log g (Logger.createScopedLogger g0 scope opts) lvl msg rest ts
       = None)
  ∧ (∀ g0 g scope opts name lvl msg rest ts,
       name ∈ Logger.configured (Logger.opt_denyList opts) → name ≠ "" →
       Logger.sanitizeScope name = Logger.sanitizeScope scope →
       Logger.log g (Logger.createScopedLogger g0 scope opts) lvl msg rest ts
       = None).
Proof.
  split; [simpl; lia |]. split; [simpl; lia |]. split; [done |].
  split; [apply LoggerFacts.log_emitted |].
  split; [intros; by apply LoggerFacts.log_denied |].
  split.
  - intros g0 g scope opts lvl msg rest ts Hin.
    apply LoggerFacts.log_denied.
    apply (LoggerFacts.denied_by_name g0 scope opts (Logger.sanitizeScope scope));
      [done | apply LoggerFacts.sanitizeScope_truthy
       | apply LoggerFacts.sanitizeScope_idem].
  - intros g0 g scope opts name lvl msg rest ts Hin Hne Heq.
    apply LoggerFacts.log_denied. by eapply LoggerFacts.denied_by_name.
Qed.

Lemma log_gated_witness :
  (Logger.LEVEL_ORDER Logger.info ≤ Logger.LEVEL_ORDER Logger.error)%nat
  ∧ (Logger.LEVEL_ORDER (Logger.localLevel sample_logger)
     ≤ Logger.LEVEL_ORDER Logger.error)%nat
  ∧ Logger.log Logger.debug sample_denied_logger (Some "error") "boom" []
      "2024-01-01T00:00:00.000Z" = None.
Proof.
  destruct log_gated as (_ & _ & _ & Hemit & _ & Hdeny & _).
  destruct (Hemit Logger.info sample_logger (Some "error") "boom" []
              "2024-01-01T00:00:00.000Z"
              {| Logger.method := Logger.error;
                 Logger.prefix :=
                   "[2024-01-01T00:00:00.000Z] [background] [ERROR]";
                 Logger.message := "boom"; Logger.args := [] |})
    as (_ & Hglobal & Hlocal & _); [vm_compute; reflexivity |].
  split; [exact Hglobal |]. split; [exact Hlocal |].
  apply (Hdeny Logger.debug Logger.debug " popup ").
  vm_compute. apply list_elem_of_here || (apply list_elem_of_further, list_elem_of_here).
Defined.

(** * Further properties of the worker *)

(** ** Pruning *)

Lemma prune_count_zero now (m : gmap string entry) :
  (prune_scan now m).2 = 0%nat
  ↔ ∀ k e, m !! k = Some e → expired now e = false.
Proof.
  unfold prune_scan. rewrite prune_fold_count. simpl.
  rewrite length_zero_iff_nil. split.
  - intros Hnil k e Hm. destruct (expired now e) eqn:He; [| done].
    exfalso. eapply (filter_nil_not_elem_of _ _ (k, e) Hnil); [done |].
    by apply elem_of_map_to_list.
  - intros Hall.
    assert (Hl : ∀ kv, kv ∈ map_to_list m → expired now kv.2 = false).
    { intros [k e] Hin. apply (Hall k e). by apply elem_of_map_to_list. }
    induction (map_to_list m) as [| kv l IH]; [done |].
    rewrite filter_cons_False.
    + apply IH. intros kv' Hin. apply Hl. by right.
    + rewrite (Hl kv); [done | by left].
Qed.

Lemma set_cache_same st : set_cache (cache st) st = st.
Proof. by destruct st. Qed.

(** X1. After [pruneExpiredEntries] at time [now] the map holds exactly
    the entries it held whose age at [now] is at most the TTL, each
    unchanged, and the host has not been called.  When no entry had
    expired nothing at all changes, so no timer is armed; when one had,
    it is gone and a persist is pending afterwards. *)
Theorem pruneExpiredEntries_post (now : Z) (st : state) :
  let st' := exec (pruneExpiredEntries now) st in
  (∀ k e, cache st' !! k = Some e
          ↔ cache st !! k = Some e ∧ entry_age now e ≤ CACHE_TTL_MS)
  ∧ hostCalls st' = hostCalls st
  ∧ ((∀ k e, cache st !! k = Some e → entry_age now e ≤ CACHE_TTL_MS) →
       st' = st)
  ∧ (∀ k e, cache st !! k = Some e → CACHE_TTL_MS < entry_age now e →
       cache st' !! k = None ∧ is_Some (persistTimeoutId st')).
Proof.
  intros st'.
  assert (Hlook : ∀ k, cache st' !! k
            = match cache st !! k with
              | Some e => if expired now e then None else Some e
              | None => None
              end).
  { intros k. unfold st'. by rewrite cache_pruneExpiredEntries, prune_scan_lookup. }
  split.
  { intros k e. rewrite Hlook. unfold expired.
    destruct (cache st !! k) as [e' |]; [| by split; [| intros []]].
    destruct (Z.ltb_spec CACHE_TTL_MS (entry_age now e')); split.
    - done.
    - intros [[= ->] ?]. lia.
    - intros [= ->]. split; [done | lia].
    - by intros [? _]. }
  split.
  { unfold st'.
    apply (preserved_pruneExpiredEntries (λ s, hostCalls s = hostCalls st));
      [done | | done]. intros t s <-. apply schedulePersist_frame. }
  split.
  - intros Hfresh. unfold st', exec. rewrite pruneExpiredEntries_run. simpl.
    assert (Hcount : (prune_scan now (cache st)).2 = 0%nat).
    { apply prune_count_zero. intros k e Hm. unfold expired.
      apply Z.ltb_ge. by apply (Hfresh k e). }
    rewrite Hcount. simpl. rewrite (prune_scan_none _ _ Hcount).
    apply set_cache_same.
  - intros k e Hm Hold. split.
    + rewrite Hlook, Hm. unfold expired.
      by rewrite (proj2 (Z.ltb_lt _ _) Hold).
    + unfold st', exec. rewrite pruneExpiredEntries_run. simpl.
      destruct (0 <? (prune_scan now (cache st)).2)%nat eqn:Hpos.
      * apply schedulePersist_is_Some.
      * exfalso. apply Nat.ltb_ge in Hpos.
        assert (Hzero : (prune_scan now (cache st)).2 = 0%nat) by lia.
        pose proof (proj1 (prune_count_zero now (cache st)) Hzero k e Hm) as He.
        unfold expired in He. apply Z.ltb_ge in He. lia.
Qed.

Lemma pruneExpiredEntries_post_witness :
  cache (exec (pruneExpiredEntries 3600001) sample_two) !! "a" = None
  ∧ is_Some (persistTimeoutId (exec (pruneExpiredEntries 3600001) sample_two))
  ∧ cache (exec (pruneExpiredEntries 3600001) sample_two) !! "b"
    = Some {| data := JNum 2; timestamp := Some 5000 |}
  ∧ exec (pruneExpiredEntries 3600000) sample_two = sample_two.
Proof.
  destruct (pruneExpiredEntries_post 3600001 sample_two)
    as (Hkept & _ & _ & Hgone).
  destruct (pruneExpiredEntries_post 3600000 sample_two)
    as (_ & _ & Hsame & _).
  destruct (Hgone "a" sample_entry) as [Ha Hp];
    [vm_compute; reflexivity | vm_compute; reflexivity |].
  split; [exact Ha |]. split; [exact Hp |].
  split.
  - apply Hkept. split; [vm_compute; reflexivity | vm_compute; discriminate].
  - apply Hsame.
    change (map_Forall (λ (_ : string) (e : entry),
              entry_age 3600000 e ≤ CACHE_TTL_MS) (cache sample_two)).
    apply map_Forall_to_list. vm_compute map_to_list.
    repeat constructor; vm_compute; discriminate.
Defined.

(** ** Upsert *)

(** X2. A second [upsertCache] of a key replaces the entry of the
    first: the map is the one a single upsert of the second payload
    leaves, a lookup of the key within the TTL of the second time
    answers the second payload with the age counted from the second
    time, no other key is touched, and the second call arms no timer.
    An upsert with falsy data afterwards erases nothing. *)
Theorem upsertCache_overwrites (key : string) (d1 d2 : json) (t1 t2 : Z)
    (st : state) :
  key ≠ "" → truthy d1 = true → truthy d2 = true →
  let st1 := exec (upsertCache key d1 t1) st in
  let st2 := exec (upsertCache key d2 t2) st1 in
  cache st2 = <[key := {| data := d2; timestamp := Some t2 |}]> (cache st)
  ∧ (∀ now, now - t2 ≤ CACHE_TTL_MS →
       cacheLookup key now st2
       = (Some {| hit_data := d2; age := now - t2 |}, st2))
  ∧ (∀ k, k ≠ key → cache st2 !! k = cache st !! k)
  ∧ timers st2 = timers st1 ∧ persistTimeoutId st2 = persistTimeoutId st1
  ∧ (∀ d t, truthy d = false → exec (upsertCache key d t) st2 = st2).
Proof.
  intros Hk Hd1 Hd2 st1 st2.
  assert (Hc1 : cache st1
                = <[key := {| data := d1; timestamp := Some t1 |}]> (cache st)).
  { unfold st1, exec. rewrite upsertCache_run by done. simpl.
    by rewrite cache_schedulePersist. }
  assert (Hrun2 : st2 = exec (schedulePersist t2)
            (set_cache (<[key := {| data := d2; timestamp := Some t2 |}]>
                          (cache st1)) st1)).
  { unfold st2, exec at 1. by rewrite upsertCache_run. }
  assert (Hc2 : cache st2
                = <[key := {| data := d2; timestamp := Some t2 |}]> (cache st)).
  { rewrite Hrun2, cache_schedulePersist. simpl.
    by rewrite Hc1, insert_insert_eq. }
  assert (Hpend : is_Some (persistTimeoutId st1)).
  { unfold st1, exec. rewrite upsertCache_run by done. simpl.
    apply schedulePersist_is_Some. }
  split; [exact Hc2 |].
  split.
  { intros now Hnow.
    rewrite (cacheLookup_fresh key now st2
               {| data := d2; timestamp := Some t2 |}); [done | done | |].
    - rewrite Hc2. apply lookup_insert_eq.
    - unfold entry_age. simpl. lia. }
  split; [intros k Hne; rewrite Hc2; by apply lookup_insert_ne |].
  split; [| split].
  - rewrite Hrun2.
    destruct (schedulePersist_pending t2
                (set_cache (<[key := {| data := d2; timestamp := Some t2 |}]>
                              (cache st1)) st1))
      as [[Hrun _] | (Hnone & _)].
    + unfold exec. by rewrite Hrun.
    + simpl in Hnone. rewrite Hnone in Hpend. by destruct Hpend.
  - rewrite Hrun2.
    destruct (schedulePersist_pending t2
                (set_cache (<[key := {| data := d2; timestamp := Some t2 |}]>
                              (cache st1)) st1))
      as [[Hrun _] | (Hnone & _)].
    + unfold exec. by rewrite Hrun.
    + simpl in Hnone. rewrite Hnone in Hpend. by destruct Hpend.
  - intros d t Hd. unfold exec. by rewrite upsertCache_refused by auto.
Qed.

Lemma upsertCache_overwrites_witness :
  cacheLookup "a" 6000
    (exec (upsertCache "a" (JNum 2) 5000) sample_state)
  = (Some {| hit_data := JNum 2; age := 1000 |},
     exec (upsertCache "a" (JNum 2) 5000) sample_state).
Proof.
  destruct (upsertCache_overwrites "a" sample_payload (JNum 2) 0 5000 initial)
    as (_ & Hlook & _); [discriminate | reflexivity | reflexivity |].
  apply (Hlook 6000). vm_compute. discriminate.
Defined.

(** ** Hydration *)

Lemma admit_stored_admission now (m : gmap string entry) e :
  admit_stored now m e
  = match admission now e with
    | Some (k, x) => <[k := x]> m
    | None => m
    end.
Proof.
  destruct e as [[[k |] [d |] ts] |]; simpl; try done.
  - destruct (truthy_str k); simpl; [| done].
    rewrite andb_comm. by destruct (_ && _).
  - by destruct (truthy_str k).
Qed.

Lemma admission_inv now r k x :
  admission now r = Some (k, x) →
  r = Some {| s_key := Some k; s_data := Some (data x);
              s_timestamp := timestamp x |}
  ∧ k ≠ "" ∧ truthy (data x) = true
  ∧ now - or_zero (timestamp x) ≤ CACHE_TTL_MS.
Proof.
  destruct r as [[[k' |] [d |] ts] |]; simpl; try done.
  destruct (truthy_str k') eqn:Hk; simpl; [| done].
  destruct (truthy d) eqn:Hd; simpl; [| done].
  destruct (Z.leb_spec (now - or_zero ts) CACHE_TTL_MS); [| done].
  intros [= <- <-]. simpl. by apply truthy_str_true in Hk.
Qed.

Lemma admit_fold_untouched now (l : list (option stored))
    (m : gmap string entry) k :
  (∀ r x, r ∈ l → admission now r ≠ Some (k, x)) →
  foldl (admit_stored now) m l !! k = m !! k.
Proof.
  revert m. induction l as [| r l IH]; intros m Hno; [done |]. simpl.
  rewrite IH by (intros r' x Hin; apply Hno; by right).
  rewrite admit_stored_admission.
  destruct (admission now r) as [[k' x] |] eqn:Hr; [| done].
  destruct (decide (k' = k)) as [-> | Hne]; [| by rewrite lookup_insert_ne].
  exfalso. by apply (Hno r x); [left |].
Qed.

Lemma admit_fold_last now (l1 l2 : list (option stored)) r
    (m : gmap string entry) k x :
  admission now r = Some (k, x) →
  (∀ r' x', r' ∈ l2 → admission now r' ≠ Some (k, x')) →
  foldl (admit_stored now) m (l1 ++ r :: l2) !! k = Some x.
Proof.
  intros Hr Hno. rewrite foldl_app. simpl.
  rewrite admit_fold_untouched by done.
  rewrite admit_stored_admission, Hr. apply lookup_insert_eq.
Qed.

Lemma cache_resolve st : cache (exec resolve_cacheLoadPromise st) = cache st.
Proof. done. Qed.

Lemma cache_hydrated_from l now now' k :
  cache (hydrated_from (Some l) now now') !! k
  = match foldl (admit_stored now) ∅ l !! k with
    | Some e => if expired now' e then None else Some e
    | None => None
    end.
Proof.
  unfold hydrated_from, exec at 1. rewrite hydrate_run. cbn [snd].
  rewrite cache_resolve.
  change (cache loading) with (∅ : gmap string entry).
  change (default [] (Some l)) with l.
  destruct (0 <? length l)%nat eqn:Hlen.
  - by rewrite cache_pruneExpiredEntries, prune_scan_lookup.
  - apply Nat.ltb_ge in Hlen. destruct l; [| simpl in Hlen; lia].
    simpl. by rewrite lookup_empty.
Qed.

Lemma admit_fold_sound now (l : list (option stored))
    (m : gmap string entry) k x :
  foldl (admit_stored now) m l !! k = Some x →
  m !! k = Some x ∨ ∃ r, r ∈ l ∧ admission now r = Some (k, x).
Proof.
  revert m. induction l as [| r l IH]; intros m Hm; [by left |].
  simpl in Hm. destruct (IH _ Hm) as [Hhere | (r' & Hin & Hr')].
  - rewrite admit_stored_admission in Hhere.
    destruct (admission now r) as [[k' x'] |] eqn:Hr; [| by left].
    destruct (decide (k' = k)) as [-> | Hne].
    + rewrite lookup_insert_eq in Hhere. injection Hhere as ->.
      right. exists r. split; [by left | done].
    + rewrite lookup_insert_ne in Hhere by done. by left.
  - right. exists r'. split; [by right | done].
Qed.

(** X3. What a fresh worker holds once storage has answered.  A key is
    mapped only if some element of the stored array is admitted for it
    (truthy key, truthy data, not older than the TTL at the time the
    callback reads); of several such elements the last one counts; and
    the entry is kept only if it has not expired at the time the
    following prune reads.  Elements that are falsy, lack a key or data,
    or are stale change nothing.  The shared promise is resolved, and
    hydration itself writes nothing to storage. *)
Theorem hydration_result (l : list (option stored)) (now now' : Z)
    (k : string) :
  let st := hydrated_from (Some l) now now' in
  cacheLoadPromise st = Some {| promise_id := 0; resolved := true |}
  ∧ writes st = []
  ∧ ((∀ r x, r ∈ l → admission now r ≠ Some (k, x)) → cache st !! k = None)
  ∧ (∀ l1 r l2 x,
       l = l1 ++ r :: l2 → admission now r = Some (k, x) →
       (∀ r' x', r' ∈ l2 → admission now r' ≠ Some (k, x')) →
       k ≠ "" ∧ truthy (data x) = true
       ∧ r = Some {| s_key := Some k; s_data := Some (data x);
                     s_timestamp := timestamp x |}
       ∧ cache st !! k = if expired now' x then None else Some x)
  ∧ (∀ x, cache st !! k = Some x →
       ∃ r, r ∈ l ∧ admission now r = Some (k, x)
            ∧ entry_age now x ≤ CACHE_TTL_MS
            ∧ entry_age now' x ≤ CACHE_TTL_MS).
Proof.
  intros st.
  split.
  { unfold st, hydrated_from, exec at 1. rewrite hydrate_run. cbn [snd].
    set (s := if (0 <? length _)%nat then _ else _).
    assert (Hp : cacheLoadPromise s = cacheLoadPromise loading).
    { unfold s. destruct (0 <? _)%nat; [| done].
      apply (preserved_pruneExpiredEntries
               (λ x, cacheLoadPromise x = cacheLoadPromise loading));
        [done | | done].
      intros t x <-. apply schedulePersist_frame. }
    unfold resolve_cacheLoadPromise, set_cacheLoadPromise. unfold_monad.
    simpl. by rewrite Hp. }
  split.
  { unfold st, hydrated_from.
    assert (Hh : hostCalls (exec (hydrate (Some l) now now') loading)
                 = hostCalls loading).
    { apply (preserved_hydrate (λ x, hostCalls x = hostCalls loading));
        [done | | done | done].
      intros t x <-. apply schedulePersist_frame. }
    unfold writes. by rewrite Hh. }
  split.
  { intros Hno. unfold st. rewrite cache_hydrated_from.
    by rewrite admit_fold_untouched, lookup_empty. }
  split.
  { intros l1 r l2 x -> Hr Hno.
    destruct (admission_inv now r k x Hr) as (Heq & Hk & Hd & _).
    repeat split; try done.
    unfold st. rewrite cache_hydrated_from.
    by rewrite (admit_fold_last now l1 l2 r ∅ k x). }
  intros x Hx. unfold st in Hx. rewrite cache_hydrated_from in Hx.
  destruct (foldl (admit_stored now) ∅ l !! k) as [e |] eqn:He; [| done].
  destruct (expired now' e) eqn:Hexp; [done |]. injection Hx as ->.
  destruct (admit_fold_sound now l ∅ k x He) as [Hx | (r & Hin & Hr)];
    [by rewrite lookup_empty in Hx |].
  exists r. split; [done |]. split; [done |].
  destruct (admission_inv now r k x Hr) as (_ & _ & _ & Hage).
  unfold expired in Hexp. apply Z.ltb_ge in Hexp. done.
Qed.

Lemma hydration_result_witness :
  cache (hydrated_from (Some sample_storage) 1000 1000) !! "k"
  = Some {| data := JStr "new"; timestamp := Some 950 |}
  ∧ cache (hydrated_from (Some sample_storage) 1000 1000) !! "j" = None
  ∧ cache (hydrated_from (Some sample_storage) 1000 1000) !! "s"
    = Some {| data := JNum 7; timestamp := None |}.
Proof.
  destruct (hydration_result sample_storage 1000 1000 "k")
    as (_ & _ & _ & Hk & _).
  destruct (hydration_result sample_storage 1000 1000 "j")
    as (_ & _ & Hj & _).
  destruct (hydration_result sample_storage 1000 1000 "s")
    as (_ & _ & _ & Hs & _).
  split; [| split].
  - destruct (Hk (take 4 sample_storage)
                 (Some {| s_key := Some "k"; s_data := Some (JStr "new");
                          s_timestamp := Some 950 |})
                 (drop 5 sample_storage)
                 {| data := JStr "new"; timestamp := Some 950 |})
      as (_ & _ & _ & Hlook); [reflexivity | reflexivity | | exact Hlook].
    intros r x Hin. simpl in Hin.
    apply list_elem_of_singleton in Hin as ->. vm_compute. discriminate.
  - apply Hj. intros r x Hin. unfold sample_storage in Hin.
    repeat (apply elem_of_cons in Hin as [-> | Hin];
            [vm_compute; discriminate |]).
    by apply elem_of_nil in Hin.
  - destruct (Hs (take 5 sample_storage)
                 (Some {| s_key := Some "s"; s_data := Some (JNum 7);
                          s_timestamp := None |})
                 []
                 {| data := JNum 7; timestamp := None |})
      as (_ & _ & _ & Hlook); [reflexivity | reflexivity | | exact Hlook].
    intros r x Hin. by apply elem_of_nil in Hin.
Defined.

(** ** Writing the map and reading it back *)

Lemma serialize_records (m : gmap string entry) :
  serialize m = record_of <$> map_to_list m.
Proof. done. Qed.

Lemma admission_record now k e :
  k ≠ "" → truthy (data e) = true →
  admission now (Some (record_of (k, e)))
  = if entry_age now e <=? CACHE_TTL_MS then Some (k, e) else None.
Proof.
  intros Hk Hd. apply truthy_str_true in Hk. unfold record_of, admission.
  simpl. rewrite Hk, Hd. simpl. unfold entry_age. by destruct e.
Qed.

Lemma admission_record_key now kv k x :
  admission now (Some (record_of kv)) = Some (k, x) → kv.1 = k.
Proof.
  unfold record_of, admission. destruct (_ && _); [| done]. by intros [= <- _].
Qed.

Lemma read_back_lookup now (m : gmap string entry) k :
  map_Forall (λ (k : string) (e : entry), k ≠ "" ∧ truthy (data e) = true) m →
  foldl (admit_stored now) ∅ (Some <$> serialize m) !! k
  = match m !! k with
    | Some e => if entry_age now e <=? CACHE_TTL_MS then Some e else None
    | None => None
    end.
Proof.
  intros Hok. rewrite serialize_records.
  assert (Hother : ∀ (l : list (string * entry)) r x,
            r ∈ (Some <$> (record_of <$> l)) →
            (∀ kv : string * entry, kv ∈ l → kv.1 ≠ k) →
            admission now r ≠ Some (k, x)).
  { intros l r x Hin Hl Hr.
    apply list_elem_of_fmap in Hin as (s & -> & Hin).
    apply list_elem_of_fmap in Hin as (kv & -> & Hin).
    apply admission_record_key in Hr. by apply (Hl kv). }
  destruct (m !! k) as [e |] eqn:Hm.
  - destruct (Hok k e Hm) as [Hk Hd].
    pose proof (NoDup_fst_map_to_list m) as Hnd.
    apply elem_of_map_to_list, list_elem_of_split in Hm as (l1 & l2 & Hsplit).
    rewrite Hsplit in Hnd |- *.
    rewrite fmap_app, NoDup_app in Hnd. destruct Hnd as (_ & Hl1 & Hl2).
    rewrite fmap_cons in Hl1, Hl2. apply NoDup_cons in Hl2 as [Hl2 _].
    cbn [fst] in Hl1, Hl2.
    assert (Hk1 : ∀ kv : string * entry, kv ∈ l1 → kv.1 ≠ k).
    { intros kv Hin Heq. apply (Hl1 k); [| by left].
      rewrite <- Heq. by apply list_elem_of_fmap_2. }
    assert (Hk2 : ∀ kv : string * entry, kv ∈ l2 → kv.1 ≠ k).
    { intros kv Hin Heq. apply Hl2. rewrite <- Heq.
      by apply list_elem_of_fmap_2. }
    rewrite !fmap_app, !fmap_cons.
    destruct (entry_age now e <=? CACHE_TTL_MS) eqn:Hfresh.
    + apply admit_fold_last; [by rewrite admission_record, Hfresh |].
      intros r' x' Hin. by apply (Hother l2).
    + rewrite admit_fold_untouched; [apply lookup_empty |].
      intros r x Hin. apply elem_of_app in Hin as [Hin | Hin];
        [by apply (Hother l1) |].
      apply elem_of_cons in Hin as [-> | Hin]; [| by apply (Hother l2)].
      by rewrite admission_record, Hfresh.
  - rewrite admit_fold_untouched; [apply lookup_empty |].
    intros r x Hin. apply (Hother (map_to_list m)); [done |].
    intros [k' e'] Hkv Heq. apply elem_of_map_to_list in Hkv. simpl in Heq.
    congruence.
Qed.

(** X4. Reading back what was written.  [persistCache] writes one record
    per entry of the map.  A fresh worker that hydrates from that
    snapshot holds exactly the entries of the map that are not older
    than the TTL when the callback reads and have not expired when the
    following prune reads, each with its data and timestamp; so when
    every entry is still within the TTL the map is restored as it
    was. *)
Theorem persist_hydrate_roundtrip (st : state) (now now' : Z) :
  cache_ok st →
  let snapshot := serialize (cache st) in
  let st' := hydrated_from (read_back snapshot) now now' in
  writes (exec persistCache st) = writes st ++ [snapshot]
  ∧ length snapshot = size (cache st)
  ∧ (∀ k, cache st' !! k
          = match cache st !! k with
            | Some e =>
                if (entry_age now e <=? CACHE_TTL_MS)
                   && (entry_age now' e <=? CACHE_TTL_MS)
                then Some e else None
            | None => None
            end)
  ∧ ((∀ k e, cache st !! k = Some e →
        entry_age now e ≤ CACHE_TTL_MS ∧ entry_age now' e ≤ CACHE_TTL_MS) →
       cache st' = cache st).
Proof.
  intros Hok snapshot st'.
  assert (Hlook : ∀ k, cache st' !! k
            = match cache st !! k with
              | Some e =>
                  if (entry_age now e <=? CACHE_TTL_MS)
                     && (entry_age now' e <=? CACHE_TTL_MS)
                  then Some e else None
              | None => None
              end).
  { intros k. unfold st', read_back. rewrite cache_hydrated_from.
    unfold snapshot. rewrite (read_back_lookup now (cache st) k Hok).
    destruct (cache st !! k) as [e |]; [| done].
    destruct (entry_age now e <=? CACHE_TTL_MS); [| done]. simpl.
    unfold expired. rewrite Z.leb_antisym. by destruct (_ <? _). }
  split; [by unfold writes; simpl; rewrite omap_app |].
  split; [unfold snapshot, serialize; by rewrite length_fmap, length_map_to_list |].
  split; [exact Hlook |].
  intros Hfresh. apply map_eq. intros k. rewrite Hlook.
  destruct (cache st !! k) as [e |] eqn:Hm; [| done].
  destruct (Hfresh k e Hm) as [H1 H2].
  apply Z.leb_le in H1, H2. by rewrite H1, H2.
Qed.

Lemma persist_hydrate_roundtrip_witness :
  cache (hydrated_from (read_back (serialize (cache sample_two)))
           3600001 3600001) !! "a" = None
  ∧ cache (hydrated_from (read_back (serialize (cache sample_two)))
             3600001 3600001) !! "b"
    = Some {| data := JNum 2; timestamp := Some 5000 |}.
Proof.
  assert (Hok : cache_ok sample_two).
  { apply cache_ok_upsertCache, cache_ok_upsertCache, map_Forall_empty. }
  destruct (persist_hydrate_roundtrip sample_two 3600001 3600001 Hok)
    as (_ & _ & Hlook & _).
  split; rewrite Hlook; vm_compute; reflexivity.
Defined.

(** ** No change of the map goes unwritten *)

Lemma pending_cacheLookup key now st :
  is_Some (persistTimeoutId st) →
  is_Some (persistTimeoutId (exec (cacheLookup key now) st)).
Proof.
  apply (preserved_cacheLookup (λ s, is_Some (persistTimeoutId s))); [done |].
  intros t s _. apply schedulePersist_is_Some.
Qed.

Lemma changed_cacheLookup key now st :
  cache (exec (cacheLookup key now) st) = cache st
  ∨ is_Some (persistTimeoutId (exec (cacheLookup key now) st)).
Proof.
  unfold exec.
  destruct (cacheLookup_outcome key now st)
    as [-> | [(e & _ & _ & _ & ->) | (e & _ & _ & _ & ->)]]; simpl;
    [by left | right | by left].
  apply schedulePersist_is_Some.
Qed.

Lemma changed_pruneExpiredEntries now st :
  cache (exec (pruneExpiredEntries now) st) = cache st
  ∨ is_Some (persistTimeoutId (exec (pruneExpiredEntries now) st)).
Proof.
  unfold exec. rewrite pruneExpiredEntries_run. simpl.
  destruct (0 <? (prune_scan now (cache st)).2)%nat eqn:Hpos.
  - right. apply schedulePersist_is_Some.
  - left. simpl. apply prune_scan_none. apply Nat.ltb_ge in Hpos. lia.
Qed.

Lemma changed_upsertCache key d now st :
  cache (exec (upsertCache key d now) st) = cache st
  ∨ is_Some (persistTimeoutId (exec (upsertCache key d now) st)).
Proof.
  unfold exec.
  destruct (decide (key = "")) as [Hk | Hk];
    [rewrite upsertCache_refused by auto; by left |].
  destruct (truthy d) eqn:Hd;
    [| rewrite upsertCache_refused by auto; by left].
  rewrite upsertCache_run by done. right. apply schedulePersist_is_Some.
Qed.

Lemma changed_handle_hydrated {U : URLParser} req now now' st :
  cache (exec (handle_hydrated req now now') st) = cache st
  ∨ is_Some (persistTimeoutId (exec (handle_hydrated req now now') st)).
Proof.
  set (s1 := exec (pruneExpiredEntries now) st).
  set (s2 := exec (cacheLookup (deriveCacheKey req) now') s1).
  assert (H2 : cache s2 = cache st ∨ is_Some (persistTimeoutId s2)).
  { destruct (changed_pruneExpiredEntries now st) as [Hc1 | Hp1].
    - destruct (changed_cacheLookup (deriveCacheKey req) now' s1) as [Hc2 | Hp2];
        [left | by right]. fold s2 in Hc2. by rewrite Hc2.
    - right. by apply pending_cacheLookup. }
  by destruct (handle_hydrated_state req now now' st) as [-> | ->].
Qed.

Section Mutations.

Context {U : URLParser}.

Lemma changed_perform ev st :
  (∀ result now now', ev ≠ StorageAnswers result now now') →
  cache (exec (perform ev) st) = cache st
  ∨ is_Some (persistTimeoutId (exec (perform ev) st)).
Proof.
  intros Hev.
  destruct (is_ensure ev) eqn:Hens.
  { left. rewrite perform_is_ensure by done.
    destruct (cacheLoadPromise st) as [p |] eqn:Hp.
    - unfold exec. by rewrite (ensureCacheLoaded_shared st p Hp).
    - by destruct (ensureCacheLoaded_first st Hp) as (_ & _ & _ & _ & -> & _). }
  destruct ev as [msg | result now now' | t d | id now | | now | key now
                  | key d now]; [| | | | done | | |].
  - left. by rewrite perform_message_other.
  - by destruct (Hev result now now').
  - cbn [perform]. rewrite exec_discard, resume_state.
    destruct t as [req | req key | key status | o],
             d as [now now' | r | body now]; try by left.
    + apply changed_handle_hydrated.
    + destruct body; [apply changed_upsertCache | by left].
  - left. change (perform (TimerFires id now)) with (fire_timer id).
    unfold exec. by rewrite fire_timer_run.
  - apply changed_pruneExpiredEntries.
  - cbn [perform]. rewrite exec_discard. apply changed_cacheLookup.
  - apply changed_upsertCache.
Qed.

(** X5. Whatever changes the map, other than loading it from storage,
    leaves a persist pending: in a reachable state, after any event
    but the storage callback that has changed the map, exactly one
    timer is armed, and its firing writes the map as it then is. *)
Theorem change_is_persisted (ev : event) (st : state) :
  reachable st → enabled ev st →
  (∀ result now now', ev ≠ StorageAnswers result now now') →
  let st' := exec (perform ev) st in
  cache st' ≠ cache st →
  ∃ id due,
    persistTimeoutId st' = Some id ∧ timers st' = [(id, due)]
    ∧ writes (exec (fire_timer id) st') = writes st' ++ [serialize (cache st')].
Proof.
  intros Hreach Hen Hev st' Hchanged.
  destruct (changed_perform ev st Hev) as [Hsame | [id Hid]]; [done |].
  fold st' in Hid.
  pose proof (timer_ok_perform ev st Hen (reachable_timer_ok st Hreach)) as Hok.
  fold st' in Hok. unfold timer_ok in Hok. rewrite Hid in Hok.
  destruct Hok as [due Ht]. exists id, due.
  split; [done |]. split; [done |].
  unfold exec. rewrite fire_timer_run. unfold writes. simpl.
  by rewrite omap_app.
Qed.

End Mutations.

Lemma change_is_persisted_witness :
  ∃ id due,
    persistTimeoutId sample_state = Some id
    ∧ timers sample_state = [(id, due)]
    ∧ writes (exec (fire_timer id) sample_state)
      = writes sample_state ++ [serialize (cache sample_state)].
Proof.
  apply (change_is_persisted (U := SimpleURL.parse)
           (CallUpsert "a" sample_payload 0) initial);
    [apply reachable_initial | exact I | discriminate |].
  vm_compute. discriminate.
Defined.

(** ** Requests answered from the cache *)

Lemma resume_settled {U : URLParser} o d st :
  resume (Settled o) d st = (Settled o, st).
Proof. by destruct d. Qed.

Lemma handleFetch_settled {U : URLParser} req w st o :
  eval (handle_until_fetch req w) st = Settled o →
  handleFetchTikTokData req w st
  = (Settled o, exec (handle_until_fetch req w) st).
Proof.
  unfold handleFetchTikTokData, eval, exec. unfold bind at 1.
  destruct (handle_until_fetch req w st) as [t1 st1]. simpl. intros ->.
  unfold bind. by rewrite !resume_settled.
Qed.

Lemma handle_hydrated_hit {U : URLParser} req now now' st e :
  deriveCacheKey req ≠ "" → cache st !! deriveCacheKey req = Some e →
  entry_age now e ≤ CACHE_TTL_MS → entry_age now' e ≤ CACHE_TTL_MS →
  handle_hydrated req now now' st
  = (Settled (Resolve {| r_data := data e; cacheHit := true;
                         cacheAge := entry_age now' e |}),
     exec (pruneExpiredEntries now) st).
Proof.
  intros Hk Hm Hnow Hnow'. rewrite handle_hydrated_run.
  set (st1 := exec (pruneExpiredEntries now) st).
  assert (Hm1 : cache st1 !! deriveCacheKey req = Some e).
  { unfold st1. rewrite cache_pruneExpiredEntries, prune_scan_lookup, Hm.
    unfold expired. by rewrite (proj2 (Z.ltb_ge _ _) Hnow). }
  unfold eval, exec at 1.
  by rewrite (cacheLookup_fresh _ now' st1 e Hk Hm1 Hnow').
Qed.

Lemma fetches_pruneExpiredEntries now st :
  fetches (exec (pruneExpiredEntries now) st) = fetches st.
Proof.
  apply (preserved_pruneExpiredEntries (λ s, fetches s = fetches st));
    [done | | done].
  intros t s <-. unfold fetches.
  by destruct (schedulePersist_frame t s) as (_ & _ & -> & _).
Qed.

Lemma cache_hit_run {U : URLParser} req w st p e :
  cacheLoadPromise st = Some p → resolved p = true →
  deriveCacheKey req ≠ "" → cache st !! deriveCacheKey req = Some e →
  entry_age (w_prune w) e ≤ CACHE_TTL_MS →
  entry_age (w_lookup w) e ≤ CACHE_TTL_MS →
  reply_to req w st
  = (Some (ReplyResult {| r_data := data e; cacheHit := true;
                          cacheAge := entry_age (w_lookup w) e |}),
     exec (pruneExpiredEntries (w_prune w)) st)
  ∧ fetches (exec (pruneExpiredEntries (w_prune w)) st) = fetches st
  ∧ cache (exec (pruneExpiredEntries (w_prune w)) st) !! deriveCacheKey req
    = Some e.
Proof.
  intros Hp Hr Hk Hm Hprune Hlook.
  set (st' := exec (pruneExpiredEntries (w_prune w)) st).
  assert (Hrun : handle_until_fetch req w st
           = (Settled (Resolve {| r_data := data e; cacheHit := true;
                                  cacheAge := entry_age (w_lookup w) e |}),
              st')).
  { rewrite handle_until_fetch_run, (after_hydration_resolved w st p Hp Hr).
    by apply handle_hydrated_hit. }
  split; [| split].
  - unfold reply_to, bind.
    rewrite (handleFetch_settled req w st
               (Resolve {| r_data := data e; cacheHit := true;
                           cacheAge := entry_age (w_lookup w) e |}))
      by (unfold eval; by rewrite Hrun).
    unfold exec. by rewrite Hrun.
  - apply fetches_pruneExpiredEntries.
  - unfold st'. rewrite cache_pruneExpiredEntries, prune_scan_lookup, Hm.
    unfold expired. by rewrite (proj2 (Z.ltb_ge _ _) Hprune).
Qed.

(** X6. In a worker that has hydrated, a request whose derived key is
    mapped to an entry within the TTL is answered from the cache: the
    reply carries the entry's data, [cacheHit: true] and the entry's
    age at the lookup, [fetch] is not called, and the only change to
    the state is the pruning of expired entries. *)
Theorem cache_hit_short_circuit {U : URLParser} req w st p e :
  cacheLoadPromise st = Some p → resolved p = true →
  deriveCacheKey req ≠ "" → cache st !! deriveCacheKey req = Some e →
  entry_age (w_prune w) e ≤ CACHE_TTL_MS →
  entry_age (w_lookup w) e ≤ CACHE_TTL_MS →
  let st' := exec (pruneExpiredEntries (w_prune w)) st in
  reply_to req w st
  = (Some (ReplyResult {| r_data := data e; cacheHit := true;
                          cacheAge := w_lookup w - or_zero (timestamp e) |}),
     st')
  ∧ fetches st' = fetches st
  ∧ cache st' ⊆ cache st
  ∧ cache st' !! deriveCacheKey req = Some e.
Proof.
  intros Hp Hr Hk Hm Hprune Hlook st'.
  destruct (cache_hit_run req w st p e Hp Hr Hk Hm Hprune Hlook)
    as (Hreply & Hfet & Hkept).
  split; [exact Hreply |]. split; [exact Hfet |]. split; [| exact Hkept].
  unfold st'. rewrite cache_pruneExpiredEntries. apply prune_scan_subseteq.
Qed.

Lemma cache_hit_short_circuit_witness :
  eval (reply_to (U := SimpleURL.parse) sample_request sample_later_world)
       sample_served
  = Some (ReplyResult {| r_data := sample_payload; cacheHit := true;
                         cacheAge := 60000 |})
  ∧ fetches (exec (pruneExpiredEntries 1700000060000) sample_served)
    = fetches sample_served.
Proof.
  destruct (cache_hit_short_circuit (U := SimpleURL.parse) sample_request
              sample_later_world sample_served
              {| promise_id := 0; resolved := true |}
              {| data := sample_payload; timestamp := Some 1700000000350 |})
    as (Hreply & Hfet & _);
    [reflexivity | reflexivity | discriminate | vm_compute; reflexivity
     | vm_compute; discriminate | vm_compute; discriminate |].
  split; [unfold eval; by rewrite Hreply | exact Hfet].
Defined.

Lemma after_hydration_promise w st :
  ∃ p, cacheLoadPromise (after_hydration w st) = Some p ∧ resolved p = true.
Proof.
  unfold after_hydration.
  assert (Hens : ∃ p, cacheLoadPromise (exec ensureCacheLoaded st) = Some p).
  { destruct (cacheLoadPromise st) as [p |] eqn:Hp.
    - unfold exec. rewrite (ensureCacheLoaded_shared st p Hp). eauto.
    - destruct (ensureCacheLoaded_first st Hp) as (_ & -> & _). eauto. }
  destruct Hens as [p Hp]. revert Hp.
  generalize (exec ensureCacheLoaded st). intros s Hp.
  unfold await_hydration, exec at 1, bind at 1, gets at 1. simpl.
  rewrite Hp. destruct (resolved p) eqn:Hr; [by exists p |].
  fold (exec (hydrate (w_stored w) (w_hydrate w) (w_hydrate_prune w)) s).
  unfold exec. rewrite hydrate_run. simpl.
  set (s' := if (0 <? _)%nat then _ else _).
  assert (Hp' : cacheLoadPromise s' = Some p).
  { unfold s'. destruct (0 <? _)%nat; [| done].
    apply (preserved_pruneExpiredEntries (λ x, cacheLoadPromise x = Some p));
      [done | | done].
    intros t x <-. apply schedulePersist_frame. }
  unfold resolve_cacheLoadPromise, set_cacheLoadPromise. unfold_monad. simpl.
  rewrite Hp'. simpl. eauto.
Qed.

Lemma promise_handle_hydrated {U : URLParser} req now now' st :
  cacheLoadPromise (exec (handle_hydrated req now now') st)
  = cacheLoadPromise st.
Proof.
  assert (Hs : ∀ t s, cacheLoadPromise (exec (schedulePersist t) s)
                      = cacheLoadPromise s)
    by (intros; apply schedulePersist_frame).
  assert (H2 : cacheLoadPromise
                 (exec (cacheLookup (deriveCacheKey req) now')
                    (exec (pruneExpiredEntries now) st))
               = cacheLoadPromise st).
  { apply (preserved_cacheLookup (λ s, cacheLoadPromise s = cacheLoadPromise st));
      [done | by intros t s <- |].
    apply (preserved_pruneExpiredEntries
             (λ s, cacheLoadPromise s = cacheLoadPromise st));
      [done | by intros t s <- | done]. }
  by destruct (handle_hydrated_state req now now' st) as [-> | ->].
Qed.

(** X7. A miss followed by a hit.  When a request has fetched a truthy
    payload, the same request made again while the entry is within the
    TTL is answered from the cache with that payload, [cacheHit: true]
    and the time elapsed since the upsert as [cacheAge]; the two
    requests together have called [fetch] once. *)
Theorem second_request_hits {U : URLParser} req w1 w2 st r k status payload :
  eval (handle_until_fetch req w1) st = AwaitFetch r k →
  w_fetch w1 = Response status → response_ok status = true →
  w_body w1 = Some payload →
  apiUrl req ≠ "" → truthy payload = true →
  w_prune w2 - w_upsert w1 ≤ CACHE_TTL_MS →
  w_lookup w2 - w_upsert w1 ≤ CACHE_TTL_MS →
  let st1 := exec (handleFetchTikTokData req w1) st in
  let st2 := exec (reply_to req w2) st1 in
  eval (reply_to req w2) st1
  = Some (ReplyResult {| r_data := payload; cacheHit := true;
                         cacheAge := w_lookup w2 - w_upsert w1 |})
  ∧ fetches st2 = fetches st ++ [apiUrl req]
  ∧ cache st2 !! k = Some {| data := payload; timestamp := Some (w_upsert w1) |}.
Proof.
  intros Hmiss Hfetch Hok Hbody Hurl Hd Hprune Hlook st1 st2.
  destruct (handle_until_fetch_miss req w1 st r k Hmiss)
    as (-> & Hk & _ & _ & Hcalls).
  assert (Hkey : k ≠ "") by (rewrite Hk; by apply deriveCacheKey_truthy).
  set (s0 := exec (handle_until_fetch req w1) st) in *.
  assert (Hst1 : st1 = exec (upsertCache k payload (w_upsert w1)) s0).
  { unfold st1, exec at 1.
    rewrite (handleFetch_after_fetch req w1 st req k Hmiss).
    rewrite Hfetch. simpl. rewrite Hok. simpl. rewrite Hbody. simpl.
    fold s0. unfold bind, ret, exec.
    by destruct (upsertCache k payload (w_upsert w1) s0) as [[] ?]. }
  assert (Hst1' : st1 = exec (schedulePersist (w_upsert w1))
            (set_cache (<[k := {| data := payload;
                                   timestamp := Some (w_upsert w1) |}]>
                          (cache s0)) s0)).
  { rewrite Hst1. unfold exec at 1. by rewrite upsertCache_run. }
  assert (Hc1 : cache st1 !! k
                = Some {| data := payload; timestamp := Some (w_upsert w1) |}).
  { rewrite Hst1', cache_schedulePersist. simpl. apply lookup_insert_eq. }
  assert (Hp1 : ∃ p, cacheLoadPromise st1 = Some p ∧ resolved p = true).
  { destruct (after_hydration_promise w1 st) as (p & Hp & Hr).
    exists p. split; [| done]. rewrite Hst1'.
    destruct (schedulePersist_frame (w_upsert w1)
                (set_cache (<[k := {| data := payload;
                                       timestamp := Some (w_upsert w1) |}]>
                              (cache s0)) s0)) as (_ & -> & _).
    simpl. unfold s0, exec. rewrite handle_until_fetch_run.
    fold (exec (handle_hydrated req (w_prune w1) (w_lookup w1))
               (after_hydration w1 st)).
    by rewrite promise_handle_hydrated. }
  destruct Hp1 as (p & Hp & Hr).
  assert (Hf1 : fetches st1 = fetches st ++ [apiUrl req]).
  { rewrite Hst1'. unfold fetches at 1.
    destruct (schedulePersist_frame (w_upsert w1)
                (set_cache (<[k := {| data := payload;
                                       timestamp := Some (w_upsert w1) |}]>
                              (cache s0)) s0)) as (_ & _ & -> & _).
    simpl. rewrite Hcalls, omap_app. simpl.
    fold (fetches (after_hydration w1 st)).
    by rewrite fetches_after_hydration. }
  rewrite Hk in Hc1, Hkey.
  destruct (cache_hit_run req w2 st1 p
              {| data := payload; timestamp := Some (w_upsert w1) |}
              Hp Hr Hkey Hc1) as (Hreply & Hfet & Hcache);
    [unfold entry_age; simpl; lia | unfold entry_age; simpl; lia |].
  unfold st2, eval, exec. rewrite Hreply. simpl.
  split; [done |]. split; [by rewrite Hfet |].
  rewrite Hk. exact Hcache.
Qed.

Lemma second_request_hits_witness :
  eval (reply_to (U := SimpleURL.parse) sample_request sample_later_world)
       sample_served
  = Some (ReplyResult {| r_data := sample_payload; cacheHit := true;
                         cacheAge := 60000 |})
  ∧ fetches (exec (reply_to (U := SimpleURL.parse) sample_request
                     sample_later_world) sample_served)
    = [sample_apiUrl].
Proof.
  destruct (second_request_hits (U := SimpleURL.parse) sample_request
              (sample_world 200 (Some sample_payload)) sample_later_world
              initial sample_request "https://site/v/1" 200%N sample_payload)
    as (Hreply & Hfet & _);
    [vm_compute; reflexivity | reflexivity | reflexivity | reflexivity
     | discriminate | reflexivity | vm_compute; discriminate
     | vm_compute; discriminate |].
  split; [exact Hreply | exact Hfet].
Defined.

(** ** Requests that fail, and the shape of every reply *)

(** X8. The two other failures of the fetch path.  When [fetch] itself
    rejects, the reply is [{error: m}] with [m] the message of the
    network error, or ["Network error"] when that message is empty;
    when the response is OK and its body does not parse, the reply is
    [{error: "Failed to parse API response"}].  In both cases nothing
    has changed since [fetch] was called, [fetch] was called once, and
    the derived key is mapped to nothing a lookup answers. *)
Theorem fetch_failure_replies {U : URLParser} req w st r k :
  eval (handle_until_fetch req w) st = AwaitFetch r k →
  let st1 := exec (handle_until_fetch req w) st in
  (∀ m, w_fetch w = NetworkError m →
     reply_to req w st
     = (Some (ReplyError (if truthy_str m then m else "Network error")), st1))
  ∧ (∀ status, w_fetch w = Response status → response_ok status = true →
       w_body w = None →
       reply_to req w st
       = (Some (ReplyError "Failed to parse API response"), st1))
  ∧ fetches st1 = fetches st ++ [apiUrl req]
  ∧ (∀ t, cacheLookup k t st1 = (None, st1)).
Proof.
  intros Hmiss st1.
  destruct (handle_until_fetch_miss req w st r k Hmiss)
    as (-> & Hk & Habsent & _ & Hcalls).
  fold st1 in Habsent, Hcalls.
  split; [| split; [| split]].
  - intros m Hfetch. unfold reply_to, bind.
    rewrite (handleFetch_after_fetch req w st req k Hmiss), Hfetch. simpl.
    fold st1. by destruct (truthy_str m) eqn:Hm; [rewrite Hm |].
  - intros status Hfetch Hok Hbody. unfold reply_to, bind.
    rewrite (handleFetch_after_fetch req w st req k Hmiss), Hfetch. simpl.
    rewrite Hok. simpl. by rewrite Hbody.
  - unfold fetches at 1. rewrite Hcalls, omap_app. simpl.
    fold (fetches (after_hydration w st)). by rewrite fetches_after_hydration.
  - exact Habsent.
Qed.

Lemma fetch_failure_replies_witness :
  eval (reply_to (U := SimpleURL.parse) sample_request sample_later_world)
       initial
  = Some (ReplyError "offline")
  ∧ eval (reply_to (U := SimpleURL.parse) sample_request
            (sample_world 200 None)) initial
    = Some (ReplyError "Failed to parse API response").
Proof.
  destruct (fetch_failure_replies (U := SimpleURL.parse) sample_request
              sample_later_world initial sample_request "https://site/v/1")
    as (Hnet & _); [vm_compute; reflexivity |].
  destruct (fetch_failure_replies (U := SimpleURL.parse) sample_request
              (sample_world 200 None) initial sample_request
              "https://site/v/1")
    as (_ & Hparse & _); [vm_compute; reflexivity |].
  split.
  - unfold eval. by rewrite (Hnet "offline" eq_refl).
  - unfold eval. by rewrite (Hparse 200%N eq_refl eq_refl eq_refl).
Defined.

Lemma handle_until_fetch_shape {U : URLParser} req w st :
  (∃ e, handle_until_fetch req w st
        = (Settled (Resolve {| r_data := data e; cacheHit := true;
                               cacheAge := entry_age (w_lookup w) e |}),
           exec (handle_until_fetch req w) st)
        ∧ entry_age (w_lookup w) e ≤ CACHE_TTL_MS)
  ∨ eval (handle_until_fetch req w) st = AwaitFetch req (deriveCacheKey req).
Proof.
  unfold eval, exec. rewrite handle_until_fetch_run, handle_hydrated_run.
  set (s := exec (pruneExpiredEntries (w_prune w)) (after_hydration w st)).
  destruct (eval (cacheLookup (deriveCacheKey req) (w_lookup w)) s)
    as [h |] eqn:Hl; [left | by right].
  destruct (cacheLookup_present _ _ _ _ Hl) as (e & _ & _ & Hage & -> & _).
  exists e. simpl. done.
Qed.


Lemma request_under_run {U : URLParser} req h st :
  request_under req h st
  = if hydration_pending (exec ensureCacheLoaded st)
       && negb (storage_answers h)
    then (AwaitHydration req, exec ensureCacheLoaded st)
    else
      let s1 := exec (handle_until_fetch req (h_world h)) st in
      match eval (handle_until_fetch req (h_world h)) st with
      | AwaitFetch r k =>
          if negb (fetch_settles h) then (AwaitFetch r k, s1)
          else
            match handle_fetched k (w_fetch (h_world h)) with
            | AwaitJson k' status =>
                if negb (body_settles h) then (AwaitJson k' status, s1)
                else handle_parsed k' (w_body (h_world h))
                       (w_upsert (h_world h)) s1
            | t => (t, s1)
            end
      | t => (t, s1)
      end.
Proof.
  unfold request_under, handle_until_fetch, handle_start, exec, eval, bind,
    ret, gets.
  destruct (ensureCacheLoaded st) as [n s0]. simpl.
  destruct (hydration_pending s0 && negb (storage_answers h)); [done |].
  destruct (await_hydration (h_world h) s0) as [[] s1].
  destruct (handle_hydrated req _ _ s1) as [t1 s2]. simpl.
  destruct t1 as [r | r k | k status | o]; try done.
  destruct (negb (fetch_settles h)); [done |].
  cbn [resume]. unfold ret.
  destruct (handle_fetched k (w_fetch (h_world h)))
    as [r' | r' k' | k' status | o]; try done.
  by destruct (negb (body_settles h)).
Qed.


Lemma request_under_outcome {U : URLParser} req h st :
  match eval (request_under req h) st with
  | Settled (Reject m) => m ≠ ""
  | _ => True
  end.
Proof.
  unfold eval at 1. rewrite request_under_run.
  destruct (_ && _); [done |]. cbv zeta.
  destruct (handle_until_fetch_shape req (h_world h) st)
    as [(e & Hrun & _) | Hmiss].
  - unfold eval, exec. by rewrite Hrun.
  - rewrite Hmiss. destruct (negb (fetch_settles h)); [done |].
    destruct (w_fetch (h_world h)) as [m | status]; simpl.
    + destruct (truthy_str m) eqn:Hm; [by apply truthy_str_true | done].
    + destruct (response_ok status); simpl; [| done].
      destruct (negb (body_settles h)); [done |].
      destruct (w_body (h_world h)) as [payload |]; simpl; [| done].
      unfold bind, ret. by destruct (upsertCache _ payload _ _) as [[] s'].
Qed.



(** ** The listener *)

(** X10. The listener touches the state only for a [fetchTikTokData]
    message, and then only to create the hydration promise: the map,
    the timers and the writes are never changed by the arrival of a
    message.  A message without an action, or with an action other
    than the two it knows (as [checkTikTokVideo], which the content
    script sends), is ignored without a reply; [content.videoDetected]
    is acknowledged at once with [normalizedUrl], or [url] when that is
    falsy. *)
Theorem onMessage_dispatch (msg : option request) (st : state) :
  let st' := exec (onMessage msg) st in
  cache st' = cache st ∧ timers st' = timers st
  ∧ persistTimeoutId st' = persistTimeoutId st ∧ writes st' = writes st
  ∧ (∀ req, msg = Some req → action req = "fetchTikTokData" →
       onMessage msg st
       = (Started (AwaitHydration req), exec ensureCacheLoaded st))
  ∧ (∀ req, msg = Some req → action req = "content.videoDetected" →
       onMessage msg st
       = (Replied (ReplyAck (js_or (normalizedUrl req) (url req))), st))
  ∧ (msg = None
     ∨ (∃ req, msg = Some req ∧ action req ≠ "fetchTikTokData"
               ∧ action req ≠ "content.videoDetected") →
     onMessage msg st = (Ignored, st)).
Proof.
  intros st'.
  assert (Hst : st' = st ∨ st' = exec ensureCacheLoaded st).
  { unfold st'. rewrite onMessage_state. destruct (is_ensure _); auto. }
  assert (Hframe : cache st' = cache st ∧ timers st' = timers st
            ∧ persistTimeoutId st' = persistTimeoutId st
            ∧ writes st' = writes st).
  { destruct Hst as [-> | ->]; [done |].
    destruct (cacheLoadPromise st) as [p |] eqn:Hp.
    - unfold exec. by rewrite (ensureCacheLoaded_shared st p Hp).
    - destruct (ensureCacheLoaded_first st Hp)
        as (_ & _ & Hh & _ & Hc & Hid & Ht & _).
      repeat split; try done. unfold writes. rewrite Hh, omap_app. simpl.
      by rewrite app_nil_r. }
  destruct Hframe as (Hc & Ht & Hid & Hw).
  repeat split; try done.
  - intros req -> Ha. simpl. rewrite Ha. simpl.
    unfold handle_start, bind, ret, exec.
    by destruct (ensureCacheLoaded st).
  - intros req -> Ha. simpl. by rewrite Ha.
  - intros [-> | (req & -> & Hf & Hv)]; [done |]. simpl.
    destruct (truthy_str (action req)); simpl; [| done].
    apply String.eqb_neq in Hf, Hv. by rewrite Hf, Hv.
Qed.

Lemma onMessage_dispatch_witness :
  onMessage (Some {| action := "checkTikTokVideo"; apiUrl := "";
                     cacheKey := None; url := Some "https://www.tiktok.com/@u/video/1";
                     normalizedUrl := None |}) sample_state
  = (Ignored, sample_state)
  ∧ onMessage (Some {| action := "content.videoDetected"; apiUrl := "";
                       cacheKey := None;
                       url := Some "https://www.tiktok.com/@u/video/1?lang=en";
                       normalizedUrl := Some "https://www.tiktok.com/@u/video/1" |})
      sample_state
    = (Replied (ReplyAck (Some "https://www.tiktok.com/@u/video/1")),
       sample_state).
Proof.
  split.
  - destruct (onMessage_dispatch
                (Some {| action := "checkTikTokVideo"; apiUrl := "";
                         cacheKey := None;
                         url := Some "https://www.tiktok.com/@u/video/1";
                         normalizedUrl := None |}) sample_state)
      as (_ & _ & _ & _ & _ & _ & Hignored).
    apply Hignored. right. eexists. split; [reflexivity |].
    split; discriminate.
  - destruct (onMessage_dispatch
                (Some {| action := "content.videoDetected"; apiUrl := "";
                         cacheKey := None;
                         url := Some "https://www.tiktok.com/@u/video/1?lang=en";
                         normalizedUrl := Some "https://www.tiktok.com/@u/video/1" |})
                sample_state)
      as (_ & _ & _ & _ & _ & Hack & _).
    apply (Hack _ eq_refl eq_refl).
Defined.

(** ** One write per burst *)

Section Bursts.

Context {U : URLParser}.

(** X11. A burst of upserts, the firing of its timer, a second burst
    and the firing of the timer that one arms make two writes.  The
    second timer is due 2000 ms after the first upsert of the second
    burst; the second snapshot is the whole map: the last entry of
    every key of the second burst, and the last entry of every key of
    the first burst that the second did not upsert again. *)
Theorem two_bursts_two_writes (ups1 ups2 : list (string * json * Z))
    (st : state) :
  reachable st → ups1 ≠ [] → ups2 ≠ [] →
  Forall effective ups1 → Forall effective ups2 →
  let s1 := run (burst ups1) st in
  ∃ id1 due1 id2 due2,
    timers s1 = [(id1, due1)]
    ∧ let s2 := exec (fire_timer id1) s1 in
      let s3 := run (burst ups2) s2 in
      let s4 := exec (fire_timer id2) s3 in
      timers s2 = [] ∧ timers s3 = [(id2, due2)]
      ∧ (∃ u, head ups2 = Some u ∧ due2 = u.2 + 2000)
      ∧ writes s4 = writes st ++ [serialize (cache s1); serialize (cache s3)]
      ∧ timers s4 = [] ∧ persistTimeoutId s4 = None
      ∧ (∀ k e, last_upsert k ups2 = Some e →
           record_of (k, e) ∈ serialize (cache s3))
      ∧ (∀ k e, last_upsert k ups2 = None → last_upsert k ups1 = Some e →
           record_of (k, e) ∈ serialize (cache s3)).
Proof.
  intros Hreach Hne1 Hne2 Hall1 Hall2 s1.
  pose proof (reachable_timer_ok st Hreach) as Hok.
  destruct (burst_arms_one ups1 st Hok Hne1 Hall1) as (id1 & due1 & Ht1 & Hid1 & _).
  fold s1 in Ht1, Hid1.
  assert (Hok1 : timer_ok s1).
  { unfold timer_ok. rewrite Hid1. eauto. }
  assert (Hen1 : enabled (TimerFires id1 due1) s1).
  { exists due1. split; [rewrite Ht1; by left | lia]. }
  destruct (timer_ok_fire id1 due1 s1 Hen1 Hok1) as [Hok2 Ht2].
  set (s2 := exec (fire_timer id1) s1) in *.
  assert (Hs2 : s2 = {| cache := cache s1;
                        cacheLoadPromise := cacheLoadPromise s1;
                        persistTimeoutId := None;
                        timers := filter (λ t : positive * Z, t.1 ≠ id1) (timers s1);
                        nextTimerId := nextTimerId s1;
                        promisesCreated := promisesCreated s1;
                        hostCalls := hostCalls s1
                                     ++ [StorageSet (serialize (cache s1))] |}).
  { unfold s2, exec. by rewrite fire_timer_run. }
  assert (Hid2 : persistTimeoutId s2 = None) by (by rewrite Hs2).
  destruct (burst_arms_one ups2 s2 Hok2 Hne2 Hall2)
    as (id2 & due2 & Ht3 & Hid3 & Hdue).
  set (s3 := run (burst ups2) s2) in *.
  exists id1, due1, id2, due2. split; [exact Ht1 |].
  intros s2' s3' s4. subst s2' s3'.
  change (exec (fire_timer id1) s1) with s2 in s4 |- *.
  change (run (burst ups2) s2) with s3 in s4 |- *.
  split; [exact Ht2 |]. split; [exact Ht3 |]. split; [by apply Hdue |].
  assert (Hw3 : writes s3 = writes st ++ [serialize (cache s1)]).
  { unfold writes, s3. rewrite burst_hostCalls, Hs2. simpl.
    rewrite omap_app. simpl. unfold s1. by rewrite burst_hostCalls. }
  assert (Hc3 : ∀ k, cache s3 !! k
            = match last_upsert k ups2 with
              | Some e => Some e
              | None => match last_upsert k ups1 with
                        | Some e => Some e
                        | None => cache st !! k
                        end
              end).
  { intros k. unfold s3. rewrite burst_cache by done.
    destruct (last_upsert k ups2); [done |].
    rewrite Hs2. simpl. unfold s1. by rewrite burst_cache. }
  assert (Hin : ∀ k e, cache s3 !! k = Some e →
            record_of (k, e) ∈ serialize (cache s3)).
  { intros k e Hk. rewrite serialize_records. apply list_elem_of_fmap_2.
    by apply elem_of_map_to_list. }
  unfold s4, exec. rewrite fire_timer_run. clearbody s3 s2 s1. simpl.
  split.
  { unfold writes in Hw3 |- *. simpl. rewrite omap_app. simpl.
    rewrite Hw3. by rewrite <- app_assoc. }
  split; [rewrite Ht3; by rewrite filter_cons_False by (simpl; auto) |].
  split; [done |].
  split.
  - intros k e Hl. apply Hin. by rewrite Hc3, Hl.
  - intros k e Hl2 Hl1. apply Hin. by rewrite Hc3, Hl2, Hl1.
Qed.

End Bursts.

Lemma two_bursts_two_writes_witness :
  ∃ id1 due1 id2 due2,
    timers sample_burst_state = [(id1, due1)]
    ∧ timers (run (U := SimpleURL.parse) (burst sample_burst2)
                (exec (fire_timer id1) sample_burst_state)) = [(id2, due2)]
    ∧ due2 = 7000
    ∧ record_of ("a", {| data := JNum 2; timestamp := Some 1900 |})
      ∈ serialize (cache (run (U := SimpleURL.parse) (burst sample_burst2)
                            (exec (fire_timer id1) sample_burst_state)))
    ∧ record_of ("b", {| data := JStr "y"; timestamp := Some 5000 |})
      ∈ serialize (cache (run (U := SimpleURL.parse) (burst sample_burst2)
                            (exec (fire_timer id1) sample_burst_state))).
Proof.
  destruct (two_bursts_two_writes (U := SimpleURL.parse) sample_burst
              sample_burst2 initial)
    as (id1 & due1 & id2 & due2 & Ht1 & _ & Ht3 & (u & Hu & Hdue) & _ & _ & _
        & Hnew & Hold);
    [apply reachable_initial | discriminate | discriminate
     | repeat constructor; discriminate | repeat constructor; discriminate |].
  exists id1, due1, id2, due2.
  split; [exact Ht1 |]. split; [exact Ht3 |].
  split; [injection Hu as <-; exact Hdue |].
  split; [apply Hold; reflexivity | apply Hnew; reflexivity].
Defined.

(** * Further properties of the logger *)

Module StringFacts.

Lemma app_cons c a b : String c a +:+ b = String c (a +:+ b).
Proof. reflexivity. Qed.

Lemma app_empty b : "" +:+ b = b.
Proof. reflexivity. Qed.

Lemma app_empty_r a : a +:+ "" = a.
Proof. induction a as [| x a IH]; [done |]. by rewrite app_cons, IH. Qed.

Lemma app_assoc (a b c : string) : (a +:+ b) +:+ c = a +:+ (b +:+ c).
Proof.
  induction a as [| x a IH]; [done |]. rewrite !app_cons. by rewrite IH.
Qed.

End StringFacts.

Module ScopeFacts.

Import Logger LoggerFacts StringFacts.

Lemma trim_end_ends_clean s : ends_clean (trim_end s) = true.
Proof.
  induction s as [| c tl IH]; [done |]. simpl.
  destruct (Ascii.is_space c) eqn:Hc; simpl.
  - destruct (trim_end tl) as [| d t] eqn:Ht; [done |]. simpl. exact IH.
  - destruct (trim_end tl) as [| d t] eqn:Ht; simpl; [by rewrite Hc |].
    exact IH.
Qed.

Lemma trim_end_id s : ends_clean s = true → trim_end s = s.
Proof.
  induction s as [| c tl IH]; [done |]. simpl.
  destruct tl as [| d tl'].
  - simpl. by destruct (Ascii.is_space c).
  - intros H. rewrite (IH H). simpl. by rewrite andb_false_r.
Qed.

Lemma trim_end_empty s :
  starts_clean s = true → trim_end s = "" → s = "".
Proof.
  destruct s as [| c tl]; [done |]. simpl.
  destruct (Ascii.is_space c); [done |]. simpl. done.
Qed.

Lemma trim_start_empty s : trim_start s = "" ↔ all_space s = true.
Proof.
  induction s as [| c tl IH]; [done |]. simpl.
  destruct (Ascii.is_space c); simpl; [exact IH |]. done.
Qed.

Lemma trim_empty s : trim s = "" ↔ all_space s = true.
Proof.
  rewrite <- trim_start_empty. unfold trim. split.
  - apply trim_end_empty, trim_start_clean.
  - by intros ->.
Qed.

Lemma trim_start_split s :
  ∃ a, s = a +:+ trim_start s ∧ all_space a = true.
Proof.
  induction s as [| c tl (a & Ha & Hs)]; [by exists "" |]. simpl.
  destruct (Ascii.is_space c) eqn:Hc.
  - exists (String c a). simpl. rewrite Hc, Hs.
    split; [| done]. rewrite app_cons. by f_equal.
  - by exists "".
Qed.

Lemma trim_end_split s :
  ∃ b, s = trim_end s +:+ b ∧ all_space b = true.
Proof.
  induction s as [| c tl (b & Hb & Hs)]; [by exists "" |]. simpl.
  destruct (Ascii.is_space c && String.eqb (trim_end tl) "") eqn:Hcond.
  - apply andb_true_iff in Hcond as [Hc Ht].
    apply String.eqb_eq in Ht. rewrite Ht, app_empty in Hb. subst tl.
    exists (String c b). rewrite app_empty. simpl. by rewrite Hc, Hs.
  - exists b. rewrite app_cons. by rewrite <- Hb.
Qed.

Lemma trim_split s :
  ∃ a b, s = a +:+ trim s +:+ b
         ∧ all_space a = true ∧ all_space b = true.
Proof.
  destruct (trim_start_split s) as (a & Ha & Hsa).
  destruct (trim_end_split (trim_start s)) as (b & Hb & Hsb).
  exists a, b. unfold trim. by rewrite <- Hb, <- Ha.
Qed.

Lemma sanitizeScope_trim s :
  all_space s = false → sanitizeScope s = trim s.
Proof.
  intros Hs. unfold sanitizeScope.
  assert (trim s ≠ "") as Ht.
  { intros Ht. apply trim_empty in Ht. congruence. }
  assert (s ≠ "") as Hne by (intros ->; done).
  apply truthy_str_true in Ht, Hne. by rewrite Hne, Ht.
Qed.

Lemma sanitizeScope_blank s : all_space s = true → sanitizeScope s = "app".
Proof.
  intros Hs. unfold sanitizeScope. apply trim_empty in Hs. rewrite Hs.
  by destruct (truthy_str s).
Qed.

Lemma sanitizeScope_starts_clean s : starts_clean (sanitizeScope s) = true.
Proof.
  destruct (all_space s) eqn:Hs.
  - by rewrite sanitizeScope_blank.
  - rewrite sanitizeScope_trim by done.
    apply trim_end_clean, trim_start_clean.
Qed.

Lemma sanitizeScope_ends_clean s : ends_clean (sanitizeScope s) = true.
Proof.
  destruct (all_space s) eqn:Hs.
  - by rewrite sanitizeScope_blank.
  - rewrite sanitizeScope_trim by done. apply trim_end_ends_clean.
Qed.

Lemma sanitizeScope_id s :
  s ≠ "" → starts_clean s = true → ends_clean s = true →
  sanitizeScope s = s.
Proof.
  intros Hne Hstart Hend.
  assert (trim s = s) as Ht.
  { unfold trim. rewrite trim_start_id by done. by apply trim_end_id. }
  unfold sanitizeScope. rewrite Ht.
  apply truthy_str_true in Hne. by rewrite Hne.
Qed.

Lemma starts_clean_app a b :
  a ≠ "" → starts_clean a = true → starts_clean (a +:+ b) = true.
Proof. destruct a; [done |]. by rewrite app_cons. Qed.

Lemma append_not_empty a b : b ≠ "" → a +:+ b ≠ "".
Proof. destruct a; [done |]. by rewrite app_cons. Qed.

Lemma ends_clean_app a b :
  b ≠ "" → ends_clean b = true → ends_clean (a +:+ b) = true.
Proof.
  intros Hne Hb. induction a as [| c a IH]; [done |].
  rewrite app_cons. simpl.
  destruct (a +:+ b) eqn:Hab; [| exact IH].
  by apply append_not_empty in Hab.
Qed.

Lemma append_longer a b : b ≠ "" → a +:+ b ≠ a.
Proof.
  intros Hne Heq. induction a as [| c a IH]; [done |].
  rewrite app_cons in Heq. injection Heq as Heq. by apply IH.
Qed.

Lemma child_scope_id a b :
  sanitizeScope (sanitizeScope a +:+ ":" +:+ sanitizeScope b)
  = sanitizeScope a +:+ ":" +:+ sanitizeScope b.
Proof.
  apply sanitizeScope_id.
  - apply append_not_empty. done.
  - apply starts_clean_app;
      [apply sanitizeScope_truthy | apply sanitizeScope_starts_clean].
  - apply ends_clean_app; [done |].
    change (":" +:+ sanitizeScope b) with (String ":" (sanitizeScope b)).
    simpl. destruct (sanitizeScope b) eqn:Hb.
    + by apply sanitizeScope_truthy in Hb.
    + rewrite <- Hb. apply sanitizeScope_ends_clean.
Qed.

Lemma log_passes g lg lvl msg rest ts :
  (LEVEL_ORDER g ≤ LEVEL_ORDER (resolveLevel g lvl))%nat →
  (LEVEL_ORDER (localLevel lg) ≤ LEVEL_ORDER (resolveLevel g lvl))%nat →
  loggerScope lg ∉ denied lg →
  log g lg lvl msg rest ts
  = Some {| method := resolveLevel g lvl;
            prefix := "[" +:+ ts +:+ "] [" +:+ loggerScope lg +:+ "] ["
                      +:+ toUpperCase (level_name (resolveLevel g lvl))
                      +:+ "]";
            message := msg; args := rest |}.
Proof.
  intros Hg Hl Hd. unfold log. rewrite shouldLog_name.
  apply Nat.leb_le in Hg. apply Nat.ltb_ge in Hl. rewrite Hg, Hl. simpl.
  by rewrite bool_decide_eq_false_2.
Qed.

Lemma resolveLevel_above g lvl :
  resolveLevel g lvl = g
  ∨ ∃ s l, lvl = Some s ∧ toLowerCase s = level_name l
           ∧ resolveLevel g lvl = l.
Proof.
  destruct lvl as [s |]; [| by left]. simpl.
  destruct (truthy_str s); simpl; [| by left].
  unfold known_level.
  destruct (String.eqb_spec (toLowerCase s) "debug") as [H |];
    [right; by exists s, debug |].
  destruct (String.eqb_spec (toLowerCase s) "info") as [H |];
    [right; by exists s, info |].
  destruct (String.eqb_spec (toLowerCase s) "warn") as [H |];
    [right; by exists s, warn |].
  destruct (String.eqb_spec (toLowerCase s) "error") as [H |];
    [right; by exists s, error |].
  by left.
Qed.

Lemma resolveLevel_known g s l :
  toLowerCase s = level_name l → resolveLevel g (Some s) = l.
Proof.
  intros H. simpl.
  assert (truthy_str s = true) as ->.
  { apply truthy_str_true. intros ->. by destruct l. }
  rewrite H. by destruct l.
Qed.

Lemma resolveLevel_unknown g s :
  (∀ l, toLowerCase s ≠ level_name l) → resolveLevel g (Some s) = g.
Proof.
  intros H. destruct (resolveLevel_above g (Some s)) as [| (s' & l & [= <-] & Hl & _)];
    [done |]. by destruct (H l).
Qed.

End ScopeFacts.

(** X12. The scope name of a logger, for a name of ASCII characters,
    is the given name without its leading and trailing white space, or
    [app] when nothing else is left: it is never empty, begins and ends
    with a character that is not white space, and sanitizing it again
    changes nothing. *)
Theorem sanitizeScope_trims (scope : string) :
  ascii_only scope = true →
  Logger.sanitizeScope scope ≠ ""
  ∧ Logger.starts_clean (Logger.sanitizeScope scope) = true
  ∧ ends_clean (Logger.sanitizeScope scope) = true
  ∧ Logger.sanitizeScope (Logger.sanitizeScope scope)
    = Logger.sanitizeScope scope
  ∧ (all_space scope = true → Logger.sanitizeScope scope = "app")
  ∧ (all_space scope = false →
     ∃ a b, scope = a +:+ Logger.sanitizeScope scope +:+ b
            ∧ all_space a = true ∧ all_space b = true).
Proof.
  intros _.
  split; [apply LoggerFacts.sanitizeScope_truthy |].
  split; [apply ScopeFacts.sanitizeScope_starts_clean |].
  split; [apply ScopeFacts.sanitizeScope_ends_clean |].
  split; [apply LoggerFacts.sanitizeScope_idem |].
  split; [apply ScopeFacts.sanitizeScope_blank |].
  intros Hs. rewrite ScopeFacts.sanitizeScope_trim by done.
  apply ScopeFacts.trim_split.
Qed.

Lemma sanitizeScope_trims_witness :
  Logger.sanitizeScope "   " = "app"
  ∧ ∃ a b, "  popup ui " = a +:+ Logger.sanitizeScope "  popup ui " +:+ b
           ∧ all_space a = true ∧ all_space b = true.
Proof.
  split.
  - apply (sanitizeScope_trims "   "); reflexivity.
  - apply (sanitizeScope_trims "  popup ui "); reflexivity.
Defined.

(** X13. A level name is recognised whatever its case; a missing,
    empty or unknown name stands for the global level.  So
    [setLevel] with an unknown name leaves the global level as it is,
    setting a level twice is setting it once, and a message logged
    under an unknown name is never stopped by the global level. *)
Theorem resolveLevel_cases (g : Logger.level) :
  Logger.resolveLevel g None = g
  ∧ Logger.resolveLevel g (Some "") = g
  ∧ (∀ s l, Logger.toLowerCase s = Logger.level_name l →
       Logger.resolveLevel g (Some s) = l)
  ∧ (∀ s, (∀ l, Logger.toLowerCase s ≠ Logger.level_name l) →
       Logger.resolveLevel g (Some s) = g
       ∧ Logger.setLevel g (Some s) = g
       ∧ Logger.shouldLog g (Some s) = true)
  ∧ (∀ lvl, Logger.setLevel (Logger.setLevel g lvl) lvl
            = Logger.setLevel g lvl).
Proof.
  split; [done |]. split; [done |].
  split; [apply ScopeFacts.resolveLevel_known |].
  split.
  - intros s Hs. unfold Logger.setLevel, Logger.shouldLog.
    rewrite ScopeFacts.resolveLevel_unknown by done.
    split; [done |]. split; [done |]. apply Nat.leb_refl.
  - intros lvl. unfold Logger.setLevel.
    destruct (ScopeFacts.resolveLevel_above g lvl) as [Hg | (s & l & -> & Hl & Hr)].
    + by rewrite !Hg.
    + rewrite Hr. by apply ScopeFacts.resolveLevel_known.
Qed.

Lemma resolveLevel_cases_witness :
  Logger.resolveLevel Logger.debug (Some "WaRn") = Logger.warn
  ∧ Logger.resolveLevel Logger.info (Some "verbose") = Logger.info
  ∧ Logger.shouldLog Logger.error (Some "verbose") = true.
Proof.
  destruct (resolveLevel_cases Logger.debug) as (_ & _ & Hknown & _).
  destruct (resolveLevel_cases Logger.info) as (_ & _ & _ & Hinfo & _).
  destruct (resolveLevel_cases Logger.error) as (_ & _ & _ & Herror & _).
  split; [apply (Hknown "WaRn" Logger.warn); reflexivity |].
  split.
  - apply (Hinfo "verbose"). intros []; discriminate.
  - apply (Herror "verbose"). intros []; discriminate.
Defined.

(** X14. A logger emits a message exactly when its level is at or above
    the global level and the logger's own level and the logger's scope is
    not denied; the record then goes to the console method of the level,
    with the prefix [[time] [scope] [LEVEL]], the message and the
    arguments as given.  A message at level [error] passes both levels
    always. *)
Theorem log_exactly (g : Logger.level) (lg : Logger.logger)
    (lvl : option string) (msg : string) (rest : list json) (ts : string) :
  ((Logger.LEVEL_ORDER g ≤ Logger.LEVEL_ORDER (Logger.resolveLevel g lvl))%nat →
   (Logger.LEVEL_ORDER (Logger.localLevel lg)
    ≤ Logger.LEVEL_ORDER (Logger.resolveLevel g lvl))%nat →
   Logger.loggerScope lg ∉ Logger.denied lg →
   Logger.log g lg lvl msg rest ts
   = Some {| Logger.method := Logger.resolveLevel g lvl;
             Logger.prefix :=
               "[" +:+ ts +:+ "] [" +:+ Logger.loggerScope lg +:+ "] ["
               +:+ Logger.toUpperCase
                     (Logger.level_name (Logger.resolveLevel g lvl))
               +:+ "]";
             Logger.message := msg; Logger.args := rest |})
  ∧ (Logger.log g lg lvl msg rest ts = None ↔
     (Logger.LEVEL_ORDER (Logger.resolveLevel g lvl) < Logger.LEVEL_ORDER g)%nat
     ∨ (Logger.LEVEL_ORDER (Logger.resolveLevel g lvl)
        < Logger.LEVEL_ORDER (Logger.localLevel lg))%nat
     ∨ Logger.loggerScope lg ∈ Logger.denied lg)
  ∧ (Logger.resolveLevel g lvl = Logger.error →
     Logger.log g lg lvl msg rest ts = None ↔
     Logger.loggerScope lg ∈ Logger.denied lg).
Proof.
  split; [apply ScopeFacts.log_passes |].
  assert (Logger.log g lg lvl msg rest ts = None ↔
     (Logger.LEVEL_ORDER (Logger.resolveLevel g lvl) < Logger.LEVEL_ORDER g)%nat
     ∨ (Logger.LEVEL_ORDER (Logger.resolveLevel g lvl)
        < Logger.LEVEL_ORDER (Logger.localLevel lg))%nat
     ∨ Logger.loggerScope lg ∈ Logger.denied lg) as Hiff.
  { split.
    - intros Hnone.
      destruct (decide (Logger.LEVEL_ORDER g
                        ≤ Logger.LEVEL_ORDER (Logger.resolveLevel g lvl))%nat)
        as [Hg |]; [| left; lia].
      destruct (decide (Logger.LEVEL_ORDER (Logger.localLevel lg)
                        ≤ Logger.LEVEL_ORDER (Logger.resolveLevel g lvl))%nat)
        as [Hl |]; [| right; left; lia].
      destruct (decide (Logger.loggerScope lg ∈ Logger.denied lg))
        as [| Hd]; [by right; right |].
      by rewrite (ScopeFacts.log_passes _ _ _ msg rest ts Hg Hl Hd) in Hnone.
    - intros Hor.
      destruct (Logger.log g lg lvl msg rest ts) as [rec |] eqn:Hlog; [| done].
      apply LoggerFacts.log_emitted in Hlog as (Hm & Hg & Hl & Hd).
      rewrite Hm in Hg, Hl. destruct Hor as [| [|]]; [lia | lia | done]. }
  split; [exact Hiff |].
  intros Herr. rewrite Hiff, Herr. split; [| by right; right].
  intros [H | [H | H]]; [| | done].
  - destruct g; simpl in H; lia.
  - destruct (Logger.localLevel lg); simpl in H; lia.
Qed.

Lemma log_exactly_witness :
  Logger.log Logger.info sample_logger (Some "warn") "slow" []
    "2024-01-01T00:00:00.000Z"
  = Some {| Logger.method := Logger.warn;
            Logger.prefix := "[2024-01-01T00:00:00.000Z] [background] [WARN]";
            Logger.message := "slow"; Logger.args := [] |}
  ∧ (Logger.log Logger.error sample_denied_logger (Some "ERROR") "boom" []
       "2024-01-01T00:00:00.000Z" = None ↔
     Logger.loggerScope sample_denied_logger
     ∈ Logger.denied sample_denied_logger).
Proof.
  split.
  - apply (log_exactly Logger.info sample_logger (Some "warn")).
    + simpl. lia.
    + simpl. lia.
    + simpl. apply not_elem_of_empty.
  - apply (log_exactly Logger.error sample_denied_logger (Some "ERROR")).
    reflexivity.
Defined.

(** X15. A child logger is named [parent:suffix] with the suffix
    sanitized, a name that differs from its parent's; it is made from
    the options its parent was made from, so it has the parent's
    deny-list, and its own level is resolved anew: with no level in the
    options it is the global level at the time [child] is called, not
    the parent's. *)
Theorem child_logger (g0 g : Logger.level) (scope : string)
    (opts : Logger.options) (suffix : string) :
  let lg := Logger.createScopedLogger g0 scope opts in
  let c := Logger.child g lg suffix in
  Logger.loggerScope c
  = Logger.loggerScope lg +:+ ":" +:+ Logger.sanitizeScope suffix
  ∧ Logger.loggerScope c ≠ Logger.loggerScope lg
  ∧ Logger.denied c = Logger.denied lg
  ∧ Logger.captured c = opts
  ∧ Logger.localLevel c = Logger.resolveLevel g (Logger.opt_level opts)
  ∧ (Logger.opt_level opts = None →
     Logger.localLevel lg = g0 ∧ Logger.localLevel c = g).
Proof.
  intros lg c.
  assert (Logger.loggerScope c
          = Logger.loggerScope lg +:+ ":" +:+ Logger.sanitizeScope suffix)
    as Hscope by apply ScopeFacts.child_scope_id.
  split; [exact Hscope |].
  split; [rewrite Hscope; by apply ScopeFacts.append_longer |].
  split; [done |]. split; [done |]. split; [done |].
  intros Hnone. simpl. by rewrite Hnone.
Qed.

Lemma child_logger_witness :
  Logger.localLevel
    (Logger.createScopedLogger Logger.debug "popup" Logger.no_options)
  = Logger.debug
  ∧ Logger.localLevel
      (Logger.child Logger.error
         (Logger.createScopedLogger Logger.debug "popup" Logger.no_options)
         " ui ")
    = Logger.error.
Proof.
  apply (child_logger Logger.debug Logger.error "popup" Logger.no_options
           " ui ").
  reflexivity.
Defined.



(** * Further properties of the popup *)

Module PopupFacts.

Import Platform Popup StringFacts.

Lemma all_chars_impl (p q : ascii → bool) s :
  (∀ c, p c = true → q c = true) →
  SimpleURL.all_chars p s = true → SimpleURL.all_chars q s = true.
Proof.
  intros Hpq. induction s as [| c s IH]; [done |]. simpl.
  intros [Hc Hs]%andb_true_iff. by rewrite (Hpq c Hc), IH.
Qed.

Lemma plus_to_space_app a b :
  plus_to_space (a +:+ b) = plus_to_space a +:+ plus_to_space b.
Proof.
  induction a as [| x a IH]; [done |]. rewrite app_cons. simpl.
  by rewrite IH.
Qed.

(** Decoding undoes the encoding of one octet. *)
Lemma decode_octet c r :
  percent_decode (plus_to_space (form_encode_octet c) +:+ r)
  = String c (percent_decode r).
Proof.
  destruct c as [[] [] [] [] [] [] [] []]; reflexivity.
Qed.

Lemma decode_encode s :
  percent_decode (plus_to_space (form_encode s)) = s.
Proof.
  induction s as [| c s IH]; [done |]. simpl.
  by rewrite plus_to_space_app, decode_octet, IH.
Qed.

Lemma form_decode_encode s :
  form_decode (form_encode s) = utf8_lossy Start "" s.
Proof. unfold form_decode. by rewrite decode_encode. Qed.

Lemma query_char_octet c :
  SimpleURL.all_chars query_char (form_encode_octet c) = true.
Proof.
  destruct c as [[] [] [] [] [] [] [] []]; reflexivity.
Qed.

Lemma query_char_encode s :
  SimpleURL.all_chars query_char (form_encode s) = true.
Proof.
  induction s as [| c s IH]; [done |]. simpl.
  by rewrite all_chars_app, query_char_octet, IH.
Qed.

Lemma query_char_url c : query_char c = true → SimpleURL.url_char c = true.
Proof. destruct c as [[] [] [] [] [] [] [] []]; by vm_compute. Qed.

Lemma query_char_not c sep :
  query_char sep = false → query_char c = true → Ascii.eqb c sep = false.
Proof.
  intros Hsep Hc. destruct (Ascii.eqb_spec c sep) as [-> |]; [| done].
  congruence.
Qed.

Lemma cut_at_none sep s :
  SimpleURL.all_chars (λ c, negb (Ascii.eqb c sep)) s = true →
  cut_at sep s = (s, "").
Proof.
  induction s as [| c s IH]; [done |]. simpl.
  intros [Hc Hs]%andb_true_iff. apply negb_true_iff in Hc.
  by rewrite Hc, IH.
Qed.

Lemma split_on_none sep s :
  SimpleURL.all_chars (λ c, negb (Ascii.eqb c sep)) s = true →
  split_on sep s = [s].
Proof.
  induction s as [| c s IH]; [done |]. simpl.
  intros [Hc Hs]%andb_true_iff. apply negb_true_iff in Hc.
  by rewrite Hc, IH.
Qed.

Lemma encode_without sep s :
  query_char sep = false →
  SimpleURL.all_chars (λ c, negb (Ascii.eqb c sep)) (form_encode s) = true.
Proof.
  intros Hsep. eapply all_chars_impl; [| apply query_char_encode].
  intros c Hc. simpl. by rewrite (query_char_not c sep).
Qed.

Lemma buildApiUrl_query u demo :
  buildApiUrl u demo = API_ENDPOINT +:+ "?" +:+ query_of u demo.
Proof.
  unfold buildApiUrl, query_of. destruct demo; cbn.
  - rewrite (app_empty_r (form_encode u)). reflexivity.
  - rewrite (app_empty_r (form_encode u)). reflexivity.
Qed.

Lemma parse_buildApiUrl u demo :
  SimpleURL.parse (buildApiUrl u demo) = Some (query_of u demo).
Proof.
  rewrite buildApiUrl_query. unfold SimpleURL.parse.
  assert (SimpleURL.all_chars SimpleURL.url_char (query_of u demo) = true)
    as Hq.
  { unfold query_of. rewrite all_chars_app.
    rewrite (all_chars_impl query_char SimpleURL.url_char (form_encode u)
               query_char_url (query_char_encode u)).
    by destruct demo. }
  assert (SimpleURL.all_chars (λ c, negb (Ascii.eqb c "#")) (query_of u demo)
          = true) as Hh.
  { unfold query_of. rewrite all_chars_app, encode_without by done.
    by destruct demo. }
  revert Hq Hh. generalize (query_of u demo). intros q Hq Hh.
  assert (SimpleURL.all_chars SimpleURL.url_char (API_ENDPOINT +:+ "?" +:+ q)
          = true) as ->.
  { rewrite !all_chars_app, Hq. reflexivity. }
  change (SimpleURL.after_scheme (API_ENDPOINT +:+ "?" +:+ q))
    with (Some ("api.ag7-dev.de/v1/tiktok/tiktok.php?" +:+ q)).
  cbv iota beta. change (negb true) with false. cbv iota.
  rewrite cut_at_none.
  - reflexivity.
  - rewrite all_chars_app, Hh. reflexivity.
Qed.

Lemma split_on_app sep a b :
  SimpleURL.all_chars (λ c, negb (Ascii.eqb c sep)) a = true →
  split_on sep (a +:+ String sep b) = a :: split_on sep b.
Proof.
  induction a as [| c a IH].
  - intros _. rewrite app_empty. simpl. by rewrite Ascii.eqb_refl.
  - intros H. simpl in H. apply andb_true_iff in H as [Hc Ha].
    apply negb_true_iff in Hc.
    rewrite app_cons. simpl. by rewrite Hc, IH.
Qed.

Lemma params_buildApiUrl u demo :
  parse_urlencoded (query_of u demo)
  = (if demo then [("api_key", "Demo")] else [])
    ++ [("url", utf8_lossy Start "" u)].
Proof.
  unfold parse_urlencoded, query_of.
  assert (split_on "&" ("url=" +:+ form_encode u)
          = ["url=" +:+ form_encode u]) as Hsplit.
  { apply split_on_none. rewrite all_chars_app, encode_without by done.
    reflexivity. }
  assert (cut_at "=" ("url=" +:+ form_encode u) = ("url", form_encode u))
    as Hcut by reflexivity.
  destruct demo.
  - change ("api_key=Demo&url=" +:+ form_encode u)
      with ("api_key=Demo" +:+ String "&" ("url=" +:+ form_encode u)).
    rewrite split_on_app by reflexivity. rewrite Hsplit.
    rewrite filter_cons_True by done. rewrite filter_cons_True by done.
    rewrite filter_nil. cbn [fmap list_fmap].
    rewrite Hcut, form_decode_encode. reflexivity.
  - rewrite Hsplit. rewrite filter_cons_True by done.
    rewrite filter_nil. cbn [fmap list_fmap].
    rewrite Hcut, form_decode_encode. reflexivity.
Qed.

Lemma get_url_buildApiUrl u demo :
  get "url" (parse_urlencoded (query_of u demo))
  = Some (utf8_lossy Start "" u).
Proof. rewrite params_buildApiUrl. by destruct demo. Qed.

Lemma decodeURIComponent_plain s :
  SimpleURL.all_chars (λ c, negb (Ascii.eqb c percent)) s = true →
  decodeURIComponent s = Some s.
Proof.
  unfold decodeURIComponent.
  assert (SimpleURL.all_chars (λ c, negb (Ascii.eqb c percent)) s = true →
          ∃ ts, tokens s = Some ts ∧ assemble Start ts = Some s) as H.
  { induction s as [| c s IH]; [by exists [] |].
    intros Hs. simpl in Hs. apply andb_true_iff in Hs as [Hc Hs].
    apply negb_true_iff in Hc.
    destruct (IH Hs) as (ts & Hts & Has).
    exists (Lit c :: ts). simpl. by rewrite Hc, Hts, Has. }
  intros Hs. destruct (H Hs) as (ts & -> & Has). exact Has.
Qed.

End PopupFacts.

(** X17. The URL that the popup asks the worker to fetch is the API
    endpoint followed by a query that holds the page URL under [url],
    after [api_key=Demo] when the demo key is asked for, and nothing
    else.  The query is written so that reading it back gives the page
    URL as it was, whatever characters it has: for a URL that is well
    formed UTF-8, [searchParams.get('url')] on the built URL is the URL
    itself. *)
Theorem buildApiUrl_roundtrip (u : string) (demo : bool) :
  Platform.utf8_lossy Platform.Start "" u = u →
  ∃ q, Popup.buildApiUrl u demo = Popup.API_ENDPOINT +:+ "?" +:+ q
       ∧ SimpleURL.parse (Popup.buildApiUrl u demo) = Some q
       ∧ Platform.parse_urlencoded q
         = (if demo then [("api_key", "Demo")] else []) ++ [("url", u)]
       ∧ Platform.get "url" (Platform.parse_urlencoded q) = Some u
       ∧ Platform.get "api_key" (Platform.parse_urlencoded q)
         = (if demo then Some "Demo" else None)
       ∧ Platform.get "source" (Platform.parse_urlencoded q) = None.
Proof.
  intros Hu. exists (Popup.query_of u demo).
  split; [apply PopupFacts.buildApiUrl_query |].
  split; [apply PopupFacts.parse_buildApiUrl |].
  rewrite PopupFacts.params_buildApiUrl, Hu.
  split; [done |]. by destruct demo.
Qed.

Lemma buildApiUrl_roundtrip_witness :
  ∃ q, Popup.buildApiUrl sample_page true
       = Popup.API_ENDPOINT +:+ "?" +:+ q
       ∧ SimpleURL.parse (Popup.buildApiUrl sample_page true) = Some q
       ∧ Platform.parse_urlencoded q
         = [("api_key", "Demo")] ++ [("url", sample_page)]
       ∧ Platform.get "url" (Platform.parse_urlencoded q) = Some sample_page
       ∧ Platform.get "api_key" (Platform.parse_urlencoded q) = Some "Demo"
       ∧ Platform.get "source" (Platform.parse_urlencoded q) = None.
Proof.
  apply (buildApiUrl_roundtrip sample_page true). vm_compute. reflexivity.
Defined.

(** X18. The key of a popup request.  The popup sends the normalized
    page URL as [cacheKey], so the worker keys the entry by that URL as
    it is, with or without the demo key in the API URL.  From the API
    URL alone the worker would derive the page URL decoded once more: the
    same key when the page URL has no percent sign, another one when it
    has an escape, and the API URL itself when the escape is not valid.
    When the normalized URL is empty the key is the API URL. *)
Theorem fetch_message_key (n : string) (demo : bool) :
  (∀ U : URLParser,
     n ≠ "" → deriveCacheKey (U := U) (Popup.fetch_message n demo) = n)
  ∧ (∀ U : URLParser,
       n ≠ "" →
       deriveCacheKey (U := U) (Popup.fetch_message n true)
       = deriveCacheKey (U := U) (Popup.fetch_message n false))
  ∧ deriveCacheKey (U := SimpleURL.parse) (Popup.fetch_message "" demo)
    = Popup.buildApiUrl "" demo
  ∧ (n ≠ "" → Platform.utf8_lossy Platform.Start "" n = n →
     deriveCacheKey (U := SimpleURL.parse)
       (request_for (Popup.buildApiUrl n demo))
     = default (Popup.buildApiUrl n demo) (Platform.decodeURIComponent n))
  ∧ (n ≠ "" → Platform.utf8_lossy Platform.Start "" n = n →
     SimpleURL.all_chars (λ c, negb (Ascii.eqb c Platform.percent)) n = true →
     deriveCacheKey (U := SimpleURL.parse)
       (request_for (Popup.buildApiUrl n demo))
     = n).
Proof.
  assert (∀ U : URLParser, n ≠ "" →
            deriveCacheKey (U := U) (Popup.fetch_message n demo) = n) as Hkey.
  { intros U Hn. unfold deriveCacheKey. simpl.
    apply truthy_str_true in Hn. by rewrite Hn. }
  assert (n ≠ "" → Platform.utf8_lossy Platform.Start "" n = n →
     deriveCacheKey (U := SimpleURL.parse)
       (request_for (Popup.buildApiUrl n demo))
     = default (Popup.buildApiUrl n demo) (Platform.decodeURIComponent n))
    as Hderived.
  { intros Hn Hu. unfold deriveCacheKey. cbn [request_for cacheKey apiUrl].
    change (truthy_str (default "" None)) with false. cbv iota.
    unfold new_URL. rewrite PopupFacts.parse_buildApiUrl.
    rewrite PopupFacts.get_url_buildApiUrl, Hu.
    apply truthy_str_true in Hn. simpl. rewrite !Hn.
    by destruct (Platform.decodeURIComponent n). }
  split; [exact Hkey |].
  split.
  { intros U Hn. unfold deriveCacheKey. simpl.
    apply truthy_str_true in Hn. by rewrite Hn. }
  split; [by destruct demo |].
  split; [exact Hderived |].
  intros Hn Hu Hplain. rewrite Hderived by done.
  by rewrite PopupFacts.decodeURIComponent_plain.
Qed.

Lemma fetch_message_key_witness :
  deriveCacheKey (U := SimpleURL.parse) (Popup.fetch_message sample_page true)
  = sample_page
  ∧ deriveCacheKey (U := SimpleURL.parse)
      (request_for (Popup.buildApiUrl sample_page true))
    = "https://www.tiktok.com/@u/video/1?q=a b"
  ∧ deriveCacheKey (U := SimpleURL.parse)
      (request_for (Popup.buildApiUrl "https://www.tiktok.com/@u/video/1" false))
    = "https://www.tiktok.com/@u/video/1".
Proof.
  destruct (fetch_message_key sample_page true) as (Hkey & _ & _ & Hd & _).
  destruct (fetch_message_key "https://www.tiktok.com/@u/video/1" false)
    as (_ & _ & _ & _ & Hplain).
  split; [apply Hkey; discriminate |].
  split.
  - rewrite Hd; [reflexivity | discriminate | reflexivity].
  - apply Hplain; [discriminate | reflexivity | reflexivity].
Defined.

(** X19. How the popup's promise settles for a request that runs alone.
    While the request is suspended at one of its awaits the worker
    sends no reply.  When it resolves, the reply is the result and the
    popup resolves with it and the two URLs added; when it rejects, the
    message is not empty, the reply is [{error: message}] with that very
    message and the popup rejects with it: the popup never resolves
    with an error object.  When the runtime reports an error the popup
    rejects with it whatever the response, and with a fixed message
    when there is no response. *)
Theorem popup_settles {U : URLParser} (req : request) (h : host)
    (st : state) (a n : string) :
  match eval (request_under req h) st with
  | Settled (Resolve r) =>
      eval (reply_under req h) st = Some (ReplyResult r)
      ∧ Popup.on_response a n None (Some (ReplyResult r))
        = Popup.Delivered (ReplyResult r) a n
  | Settled (Reject m) =>
      m ≠ ""
      ∧ eval (reply_under req h) st = Some (ReplyError m)
      ∧ Popup.on_response a n None (Some (ReplyError m)) = Popup.Failed m
  | _ => eval (reply_under req h) st = None
  end
  ∧ (∀ m response, Popup.on_response a n (Some m) response = Popup.Failed m)
  ∧ Popup.on_response a n None None
    = Popup.Failed "No response from background service."
  ∧ (∀ u, Popup.on_response a n None (Some (ReplyAck u))
          = Popup.Delivered (ReplyAck u) a n).
Proof.
  split; [| done].
  pose proof (request_under_outcome req h st) as Hm.
  unfold reply_under, eval, bind in *.
  destruct (request_under req h st) as [t s]. cbn [fst snd] in *.
  destruct t as [r | r k | k status | [r | m]]; try done.
  apply truthy_str_true in Hm as Ht.
  split; [done |]. unfold ret, reply_of, Popup.on_response, Popup.error_of.
  by rewrite !Ht.
Qed.

(** * Further properties of the URL patterns *)

Module RegexFacts.

Import Regex StringFacts.

Lemma app_is_empty a b : a +:+ b = "" → a = "" ∧ b = "".
Proof. destruct a; [done |]. by rewrite app_cons. Qed.

Lemma lang_empty_nullable r s : lang r s → s = "" → nullable r = true.
Proof.
  induction 1 as [| | a b s t _ IHa _ IHb | a b s _ IH | a b s _ IH
                  | | a s t _ _ _ _]; intros Hs; simpl; try done.
  - apply app_is_empty in Hs as [-> ->]. by rewrite IHa, IHb.
  - by rewrite IH.
  - rewrite IH by done. apply orb_true_r.
Qed.

Lemma nullable_lang r : nullable r = true → lang r "".
Proof.
  induction r as [| | p | a IHa b IHb | a IHa b IHb | a IH]; simpl;
    try done.
  - constructor.
  - intros [Ha Hb]%andb_true_iff.
    change "" with ("" +:+ ""). constructor; auto.
  - intros [Ha | Hb]%orb_true_iff; [apply lang_alt_l | apply lang_alt_r];
      auto.
  - intros _. constructor.
Qed.

Lemma deriv_sound c r s : lang (deriv c r) s → lang r (String c s).
Proof.
  revert s.
  induction r as [| | p | a IHa b IHb | a IHa b IHb | a IH]; simpl;
    intros s H.
  - inversion H.
  - inversion H.
  - destruct (p c) eqn:Hp; inversion H; subst. by constructor.
  - inversion H as [| | | ? ? ? Hl | ? ? ? Hr | |]; subst.
    + inversion Hl as [| | ? ? s1 t Ha Hb | | | |]; subst.
      rewrite <- app_cons. constructor; auto.
    + destruct (nullable a) eqn:Hn; [| inversion Hr].
      rewrite <- (app_empty (String c s)).
      constructor; [by apply nullable_lang | auto].
  - inversion H; subst; [apply lang_alt_l | apply lang_alt_r]; auto.
  - inversion H as [| | ? ? s1 t Ha Hb | | | |]; subst.
    rewrite <- app_cons. apply lang_star_cons; auto.
Qed.

Lemma deriv_complete r w :
  lang r w → ∀ c s, w = String c s → lang (deriv c r) s.
Proof.
  induction 1 as [| p c0 Hp | a b s t Ha IHa Hb IHb | a b s _ IH
                  | a b s _ IH | | a s t Ha IHa Hs IHs];
    intros c w Hw; simpl.
  - done.
  - injection Hw as <- <-. rewrite Hp. constructor.
  - destruct s as [| x s'].
    + rewrite app_empty in Hw. apply lang_alt_r.
      rewrite (lang_empty_nullable a "" Ha eq_refl). by apply IHb.
    + rewrite app_cons in Hw. injection Hw as -> <-.
      apply lang_alt_l. constructor; [by apply IHa | done].
  - apply lang_alt_l. by apply IH.
  - apply lang_alt_r. by apply IH.
  - done.
  - destruct s as [| x s'].
    + rewrite app_empty in Hw. by apply (IHs c w).
    + rewrite app_cons in Hw. injection Hw as -> <-.
      constructor; [by apply IHa | done].
Qed.

Lemma prefix_match_spec s r :
  prefix_match s r = true ↔ ∃ m b, s = m +:+ b ∧ lang r m.
Proof.
  revert r. induction s as [| c s IH]; intros r; simpl.
  - rewrite orb_false_r. split.
    + intros Hn. exists "", "". split; [done |]. by apply nullable_lang.
    + intros (m & b & Hs & Hm). symmetry in Hs.
      apply app_is_empty in Hs as [-> _].
      by apply (lang_empty_nullable r "").
  - rewrite orb_true_iff, IH. split.
    + intros [Hn | (m & b & -> & Hm)].
      * exists "", (String c s). split; [done |]. by apply nullable_lang.
      * exists (String c m), b. split; [done |]. by apply deriv_sound.
    + intros (m & b & Hs & Hm). destruct m as [| x m].
      * left. by apply (lang_empty_nullable r "").
      * right. rewrite app_cons in Hs. injection Hs as <- ->.
        exists m, b. split; [done |].
        exact (deriv_complete r _ Hm c m eq_refl).
Qed.

(** [test] finds the texts that have a part in the language. *)
Lemma test_spec r s :
  test r s = true ↔ ∃ a m b, s = a +:+ m +:+ b ∧ lang r m.
Proof.
  induction s as [| c s IH]; cbn [test].
  - rewrite orb_false_r, prefix_match_spec. split.
    + intros (m & b & Hs & Hm). exists "", m, b. by rewrite app_empty.
    + intros (a & m & b & Hs & Hm). symmetry in Hs.
      apply app_is_empty in Hs as [-> Hs]. by exists m, b.
  - rewrite orb_true_iff, IH, prefix_match_spec. split.
    + intros [(m & b & Hs & Hm) | (a & m & b & -> & Hm)].
      * exists "", m, b. by rewrite app_empty.
      * exists (String c a), m, b. by rewrite app_cons.
    + intros (a & m & b & Hs & Hm). destruct a as [| x a].
      * left. rewrite app_empty in Hs. by exists m, b.
      * right. rewrite app_cons in Hs. injection Hs as <- ->.
        by exists a, m, b.
Qed.

Lemma test_context r a s b :
  test r s = true → test r (a +:+ s +:+ b) = true.
Proof.
  rewrite !test_spec. intros (a' & m & b' & -> & Hm).
  exists (a +:+ a'), m, (b' +:+ b). split; [| done].
  by rewrite !app_assoc.
Qed.

Lemma all_ascii_complete c : In c all_ascii.
Proof.
  unfold all_ascii. rewrite <- (ascii_nat_embedding c).
  apply in_map, in_seq. pose proof (nat_ascii_bounded c). lia.
Qed.

Lemma classes_in_lang q r m :
  classes_in q r = true → lang r m → SimpleURL.all_chars q m = true.
Proof.
  intros Hr Hm. induction Hm as [| p c Hp | a b s t _ IHa _ IHb
                                 | a b s _ IH | a b s _ IH
                                 | | a s t _ IHa _ IHs];
    cbn [classes_in] in Hr.
  - done.
  - rewrite forallb_forall in Hr.
    pose proof (Hr c (all_ascii_complete c)) as Hc.
    rewrite Hp in Hc. simpl in Hc. simpl. by rewrite Hc.
  - apply andb_true_iff in Hr as [Ha Hb].
    by rewrite all_chars_app, IHa, IHb.
  - apply andb_true_iff in Hr as [Ha Hb]. auto.
  - apply andb_true_iff in Hr as [Ha Hb]. auto.
  - done.
  - by rewrite all_chars_app, IHa, IHs.
Qed.

(** A text of characters that are not blank, found in a text with blank
    ends, lies between the ends. *)
Lemma inside_prefix t b m b' :
  t +:+ b = m +:+ b' → SimpleURL.all_chars blank b = true →
  SimpleURL.all_chars (λ c, negb (blank c)) m = true →
  ∃ b'', t = m +:+ b''.
Proof.
  revert t. induction m as [| c m IH]; intros t Heq Hb Hm.
  - by exists t.
  - simpl in Hm. apply andb_true_iff in Hm as [Hc Hm].
    rewrite app_cons in Heq. destruct t as [| x t].
    + rewrite app_empty in Heq. subst b. simpl in Hb.
      apply andb_true_iff in Hb as [Hb _]. rewrite Hb in Hc. done.
    + rewrite app_cons in Heq. injection Heq as -> Heq.
      destruct (IH t Heq Hb Hm) as (b'' & ->).
      exists b''. by rewrite app_cons.
Qed.

Lemma inside_suffix t b a m b' :
  t +:+ b = a +:+ m +:+ b' → SimpleURL.all_chars blank b = true →
  SimpleURL.all_chars (λ c, negb (blank c)) m = true →
  m = "" ∨ ∃ b'', t = a +:+ m +:+ b''.
Proof.
  revert t. induction a as [| x a IH]; intros t Heq Hb Hm.
  - rewrite app_empty in Heq. right.
    destruct (inside_prefix t b m b' Heq Hb Hm) as (b'' & ->).
    exists b''. by rewrite app_empty.
  - rewrite app_cons in Heq. destruct t as [| y t].
    + rewrite app_empty in Heq. subst b. simpl in Hb.
      apply andb_true_iff in Hb as [_ Hb].
      rewrite !all_chars_app in Hb.
      apply andb_true_iff in Hb as [_ Hb].
      apply andb_true_iff in Hb as [Hb _].
      left. destruct m as [| c m]; [done |]. simpl in Hb, Hm.
      apply andb_true_iff in Hb as [Hb _].
      apply andb_true_iff in Hm as [Hc _]. rewrite Hb in Hc. done.
    + rewrite app_cons in Heq. injection Heq as -> Heq.
      destruct (IH t Heq Hb Hm) as [-> | (b'' & ->)]; [by left |].
      right. exists b''. by rewrite app_cons.
Qed.

Lemma inside a t b a' m b' :
  a +:+ t +:+ b = a' +:+ m +:+ b' →
  SimpleURL.all_chars blank a = true → SimpleURL.all_chars blank b = true →
  SimpleURL.all_chars (λ c, negb (blank c)) m = true →
  m = "" ∨ ∃ a'' b'', t = a'' +:+ m +:+ b''.
Proof.
  revert a'. induction a as [| x a IH]; intros a' Heq Ha Hb Hm.
  - rewrite app_empty in Heq.
    destruct (inside_suffix t b a' m b' Heq Hb Hm) as [-> | (b'' & ->)];
      [by left |].
    right. by exists a', b''.
  - simpl in Ha. apply andb_true_iff in Ha as [Hx Ha].
    rewrite app_cons in Heq. destruct a' as [| y a'].
    + rewrite app_empty in Heq. destruct m as [| c m]; [by left |].
      rewrite app_cons in Heq. injection Heq as -> Heq.
      simpl in Hm. apply andb_true_iff in Hm as [Hc _].
      rewrite Hx in Hc. done.
    + rewrite app_cons in Heq. injection Heq as -> Heq.
      by apply (IH a').
Qed.

(** Trimming a text does not change what [test] says of it, for an
    expression whose classes have no blank character. *)
Lemma test_trim trim r s :
  trims trim → classes_in (λ c, negb (blank c)) r = true →
  test r (trim s) = test r s.
Proof.
  intros Htrim Hr. destruct (Htrim s) as (a & b & Hs & Ha & Hb).
  apply eq_true_iff_eq. split.
  - intros Ht. rewrite Hs. by apply test_context.
  - rewrite !test_spec. intros (a' & m & b' & Heq & Hm).
    rewrite Hs in Heq.
    destruct (inside a (trim s) b a' m b' Heq Ha Hb
                (classes_in_lang _ r m Hr Hm)) as [-> | (a'' & b'' & Ht)].
    + exists "", "", (trim s). split; [| done]. by rewrite !app_empty.
    + by exists a'', m, b''.
Qed.

Lemma existsb_context (ps : list re) a s b :
  existsb (λ p, test p s) ps = true →
  existsb (λ p, test p (a +:+ s +:+ b)) ps = true.
Proof.
  rewrite !existsb_exists. intros (p & Hin & Hp).
  exists p. split; [done |]. by apply test_context.
Qed.

Lemma popup_patterns_clean :
  forallb (classes_in (λ c, negb (blank c))) Popup.TIKTOK_PATTERNS = true.
Proof. vm_compute. reflexivity. Qed.

Lemma popup_test_trim trim s :
  trims trim →
  existsb (λ p, test p (trim s)) Popup.TIKTOK_PATTERNS
  = existsb (λ p, test p s) Popup.TIKTOK_PATTERNS.
Proof.
  intros Htrim. pose proof popup_patterns_clean as Hc.
  rewrite forallb_forall in Hc.
  induction Popup.TIKTOK_PATTERNS as [| p ps IH]; [done |]. simpl.
  rewrite test_trim; [| done | apply Hc; by left].
  rewrite IH; [done |]. intros q Hq. apply Hc. by right.
Qed.

(** With or without [trim], the popup tests the text as it is. *)
Lemma popup_valid trim u :
  trims trim →
  Popup.isValidTikTokUrl trim (Some u)
  = existsb (λ p, test p u) Popup.TIKTOK_PATTERNS.
Proof.
  intros Htrim. unfold Popup.isValidTikTokUrl.
  destruct (truthy_str u) eqn:Hu; simpl.
  - by apply popup_test_trim.
  - apply truthy_str_false in Hu as ->. reflexivity.
Qed.

Lemma trims_ascii : trims Logger.trim.
Proof.
  intros s. destruct (ScopeFacts.trim_split s) as (a & b & Hs & Ha & Hb).
  exists a, b. split; [exact Hs |].
  assert (∀ x, all_space x = true → SimpleURL.all_chars blank x = true) as H.
  { induction x as [| c x IH]; [done |]. simpl.
    intros [Hc Hx]%andb_true_iff. unfold blank at 1. by rewrite Hc, IH. }
  split; by apply H.
Qed.

End RegexFacts.

(** X20. The content script takes a text for a TikTok URL exactly when
    some part of it is in the language of one of its three patterns:
    the patterns are not anchored, so a text stays valid whatever is
    written before and after it, the URL of another site that carries a
    TikTok link in its query included. *)
Theorem content_valid_unanchored (u : string) :
  (Content.isValidTikTokUrl u = true ↔
   ∃ a m b, u = a +:+ m +:+ b
            ∧ ∃ p, p ∈ Content.TIKTOK_URL_PATTERNS ∧ Regex.lang p m)
  ∧ (∀ a b, Content.isValidTikTokUrl u = true →
            Content.isValidTikTokUrl (a +:+ u +:+ b) = true).
Proof.
  split.
  - unfold Content.isValidTikTokUrl. rewrite existsb_exists. split.
    + intros (p & Hin & Hp). apply RegexFacts.test_spec in Hp
        as (a & m & b & Hu & Hm).
      exists a, m, b. split; [done |]. exists p.
      split; [by apply list_elem_of_In | done].
    + intros (a & m & b & Hu & p & Hin & Hm). exists p.
      split; [by apply list_elem_of_In |].
      apply RegexFacts.test_spec. by exists a, m, b.
  - intros a b. apply RegexFacts.existsb_context.
Qed.

Lemma content_valid_unanchored_witness :
  Content.isValidTikTokUrl sample_foreign = true.
Proof.
  apply (proj2 (content_valid_unanchored "https://vm.tiktok.com/ZM123/")
           "https://example.org/?next=" "#top").
  vm_compute. reflexivity.
Defined.

(** X21. The popup's test of a URL.  A missing or empty URL is not
    valid.  Trimming the text first changes nothing, no pattern having
    a blank character in it: the popup takes a text exactly when some
    part of it matches one of its four patterns.  These are the three
    of the content script and one more for photo posts, so the popup
    takes every text the content script takes, and photo posts, which
    the content script does not detect. *)
Theorem popup_valid_cases (trim : string → string) (u : string) :
  Regex.trims trim →
  Popup.isValidTikTokUrl trim None = false
  ∧ Popup.isValidTikTokUrl trim (Some "") = false
  ∧ Popup.isValidTikTokUrl trim (Some u)
    = existsb (λ p, Regex.test p u) Popup.TIKTOK_PATTERNS
  ∧ Popup.isValidTikTokUrl trim (Some u)
    = Content.isValidTikTokUrl u || Regex.test photo_pattern u
  ∧ (Content.isValidTikTokUrl u = true →
     Popup.isValidTikTokUrl trim (Some u) = true)
  ∧ (∀ a b, Popup.isValidTikTokUrl trim (Some u) = true →
            Popup.isValidTikTokUrl trim (Some (a +:+ u +:+ b)) = true).
Proof.
  intros Htrim. split; [done |]. split; [done |].
  pose proof (RegexFacts.popup_valid trim u Htrim) as Hu.
  assert (Popup.isValidTikTokUrl trim (Some u)
          = Content.isValidTikTokUrl u || Regex.test photo_pattern u) as Hc.
  { rewrite Hu. unfold Content.isValidTikTokUrl.
    assert (∃ c0 c1 c2, Content.TIKTOK_URL_PATTERNS = [c0; c1; c2]
              ∧ Popup.TIKTOK_PATTERNS = [c0; photo_pattern; c1; c2])
      as (c0 & c1 & c2 & -> & ->) by (do 3 eexists; split; reflexivity).
    cbn [existsb].
    destruct (Regex.test c0 u), (Regex.test photo_pattern u),
      (Regex.test c1 u), (Regex.test c2 u); reflexivity. }
  split; [exact Hu |]. split; [exact Hc |].
  split; [intros Hv; by rewrite Hc, Hv |].
  intros a b. rewrite Hu, RegexFacts.popup_valid by done.
  apply RegexFacts.existsb_context.
Qed.

Lemma popup_valid_cases_witness :
  Popup.isValidTikTokUrl Logger.trim (Some sample_photo) = true
  ∧ Content.isValidTikTokUrl sample_photo = false
  ∧ Popup.isValidTikTokUrl Logger.trim (Some ("  " +:+ sample_photo +:+ " "))
    = true.
Proof.
  destruct (popup_valid_cases Logger.trim sample_photo RegexFacts.trims_ascii)
    as (_ & _ & Hu & _ & _ & Hctx).
  split; [rewrite Hu; vm_compute; reflexivity |].
  split; [vm_compute; reflexivity |].
  apply Hctx. rewrite Hu. vm_compute. reflexivity.
Defined.

(** * Further properties of the popup's state *)

Module StateFacts.

Import PopupState.

Lemma get_cons k k0 v0 (o : object) :
  get k ((k0, v0) :: o) = if String.eqb k0 k then Some v0 else get k o.
Proof. unfold get. simpl. by destruct (String.eqb k0 k). Qed.

Lemma get_assign k k' v o :
  get k' (assign k v o) = if String.eqb k k' then Some v else get k' o.
Proof.
  induction o as [| [k0 v0] o IH]; simpl.
  - rewrite get_cons. by destruct (String.eqb k k').
  - destruct (String.eqb_spec k0 k) as [-> | Hne].
    + rewrite !get_cons. by destruct (String.eqb k k').
    + rewrite !get_cons, IH.
      destruct (String.eqb_spec k0 k') as [-> | Hne']; [| done].
      by rewrite (proj2 (String.eqb_neq k k')).
Qed.

Lemma get_absent k (o : object) : k ∉ o.*1 → get k o = None.
Proof.
  induction o as [| [k0 v0] o IH]; [done |]. simpl. intros Hk.
  apply not_elem_of_cons in Hk as [Hne Hk].
  rewrite get_cons, (proj2 (String.eqb_neq k0 k)) by done. auto.
Qed.

Lemma get_assign_all k (fs o : object) :
  NoDup fs.*1 →
  get k (foldl (λ acc kv, assign kv.1 kv.2 acc) o fs)
  = match get k fs with
    | Some v => Some v
    | None => get k o
    end.
Proof.
  revert o. induction fs as [| [k0 v0] fs IH]; intros o Hnd; [done |].
  simpl in Hnd. apply NoDup_cons in Hnd as [Hk0 Hnd].
  simpl. rewrite IH, get_cons, get_assign by done.
  destruct (String.eqb_spec k0 k) as [-> | Hne].
  - by rewrite get_absent.
  - by destruct (get k fs).
Qed.

Lemma get_spread k (a b : object) :
  NoDup a.*1 → NoDup b.*1 →
  get k (spread a b)
  = match get k b with
    | Some v => Some v
    | None => get k a
    end.
Proof.
  intros Ha Hb. unfold spread. rewrite !get_assign_all by done.
  by destruct (get k a).
Qed.

Lemma get_merge_entry k st kv :
  get k (merge_entry st kv)
  = if String.eqb kv.1 k
    then Some match kv.2, get kv.1 st with
              | JObj fs, Some (JObj current) => JObj (spread current fs)
              | v, _ => v
              end
    else get k st.
Proof.
  unfold merge_entry.
  destruct kv.2 as [| | | | | fs]; try apply get_assign.
  destruct (get kv.1 st) as [[| | | | | cur] |]; apply get_assign.
Qed.

Lemma get_merge_all k (updates st : object) :
  NoDup updates.*1 →
  get k (foldl merge_entry st updates)
  = match get k updates with
    | Some v =>
        Some match v, get k st with
             | JObj fs, Some (JObj current) => JObj (spread current fs)
             | _, _ => v
             end
    | None => get k st
    end.
Proof.
  revert st. induction updates as [| [k0 v0] ups IH]; intros st Hnd;
    [done |].
  simpl in Hnd. apply NoDup_cons in Hnd as [Hk0 Hnd].
  simpl. rewrite IH, get_cons, !get_merge_entry by done. simpl.
  destruct (String.eqb_spec k0 k) as [-> | Hne].
  - rewrite get_absent by done. by destruct v0.
  - done.
Qed.

Lemma fields_mergeState updates pg :
  fields (mergeState updates pg) = foldl merge_entry (fields pg) updates.
Proof. unfold mergeState, queueRender. simpl. by destruct (renderQueued pg). Qed.

Lemma mergeState_queued updates pg :
  renderQueued pg = true →
  renderQueued (mergeState updates pg) = true
  ∧ frames (mergeState updates pg) = frames pg
  ∧ drawn (mergeState updates pg) = drawn pg.
Proof. intros H. unfold mergeState, queueRender. simpl. by rewrite H. Qed.

Lemma mergeState_all_queued (batches : list object) pg :
  renderQueued pg = true →
  renderQueued (foldl (λ p u, mergeState u p) pg batches) = true
  ∧ frames (foldl (λ p u, mergeState u p) pg batches) = frames pg
  ∧ drawn (foldl (λ p u, mergeState u p) pg batches) = drawn pg.
Proof.
  revert pg. induction batches as [| u us IH]; intros pg Hq; [done |].
  simpl. destruct (mergeState_queued u pg Hq) as (Hq' & Hf & Hd).
  destruct (IH _ Hq') as (? & ? & ?). split; [done |]. split; congruence.
Qed.

End StateFacts.

(** X22. What [mergeState] does to one property.  A property that the
    updates do not name keeps its value.  One that they name takes the
    new value, except when the new and the old value are both plain
    objects: then the property becomes an object with the fields of
    both, those of the update first in value, so that an update of one
    field of [loading] or [status] keeps the other.  The merge is one
    level deep: inside that object a field is replaced, not merged. *)
Theorem mergeState_by_key (updates : PopupState.object)
    (pg : PopupState.page) (k : string) :
  NoDup updates.*1 →
  PopupState.get k (PopupState.fields (PopupState.mergeState updates pg))
  = match PopupState.get k updates with
    | Some v =>
        Some match v, PopupState.get k (PopupState.fields pg) with
             | JObj fs, Some (JObj current) =>
                 JObj (PopupState.spread current fs)
             | _, _ => v
             end
    | None => PopupState.get k (PopupState.fields pg)
    end
  ∧ (∀ fs current f,
       PopupState.get k updates = Some (JObj fs) →
       PopupState.get k (PopupState.fields pg) = Some (JObj current) →
       NoDup fs.*1 → NoDup current.*1 →
       ∃ o, PopupState.get k
              (PopupState.fields (PopupState.mergeState updates pg))
            = Some (JObj o)
            ∧ PopupState.get f o
              = match PopupState.get f fs with
                | Some v => Some v
                | None => PopupState.get f current
                end).
Proof.
  intros Hnd. rewrite StateFacts.fields_mergeState.
  rewrite StateFacts.get_merge_all by done. split; [done |].
  intros fs current f -> -> Hfs Hcur.
  eexists. split; [done |]. by apply StateFacts.get_spread.
Qed.

Lemma mergeState_by_key_witness :
  ∃ o, PopupState.get "loading"
         (PopupState.fields
            (PopupState.mergeState
               [("loading", JObj [("primary", JBool true)]);
                ("phase", JStr "fetching")]
               PopupState.initial_page))
       = Some (JObj o)
       ∧ PopupState.get "music" o = Some (JBool false)
       ∧ PopupState.get "primary" o = Some (JBool true).
Proof.
  destruct (mergeState_by_key
              [("loading", JObj [("primary", JBool true)]);
               ("phase", JStr "fetching")]
              PopupState.initial_page "loading") as (_ & H).
  { apply NoDup_ListNoDup. repeat constructor; simpl; intros H;
      repeat (destruct H as [H | H]; [discriminate |]); done. }
  destruct (H [("primary", JBool true)]
              [("primary", JBool false); ("music", JBool false)] "music")
    as (o & Ho & Hmusic); [reflexivity | reflexivity | | |].
  { apply NoDup_ListNoDup. repeat constructor; simpl; intros H';
      repeat (destruct H' as [H' | H']; [discriminate |]); done. }
  { apply NoDup_ListNoDup. repeat constructor; simpl; intros H';
      repeat (destruct H' as [H' | H']; [discriminate |]); done. }
  exists o. split; [exact Ho |]. split; [exact Hmusic |].
  vm_compute in Ho. injection Ho as <-. reflexivity.
Defined.

(** X23. Rendering is coalesced.  When no render is queued, any number
    of state updates, one at least, ask the host for one animation
    frame in all; when the frame runs it draws the state as the last
    update left it, once, and the next update asks for a frame
    again. *)
Theorem render_coalesced (batches : list PopupState.object)
    (pg : PopupState.page) :
  PopupState.renderQueued pg = false → batches ≠ [] →
  let pg' := foldl (λ p u, PopupState.mergeState u p) pg batches in
  PopupState.frames pg' = S (PopupState.frames pg)
  ∧ PopupState.renderQueued pg' = true
  ∧ PopupState.drawn pg' = PopupState.drawn pg
  ∧ PopupState.drawn (PopupState.animation_frame pg')
    = PopupState.drawn pg ++ [PopupState.fields pg']
  ∧ PopupState.frames (PopupState.animation_frame pg')
    = PopupState.frames pg
  ∧ (∀ u, PopupState.frames
            (PopupState.mergeState u (PopupState.animation_frame pg'))
          = S (PopupState.frames pg)).
Proof.
  intros Hq Hne pg'. destruct batches as [| u us]; [done |].
  subst pg'. cbn [foldl].
  set (pg' := foldl (λ p u0, PopupState.mergeState u0 p)
                (PopupState.mergeState u pg) us).
  assert (PopupState.renderQueued (PopupState.mergeState u pg) = true
          ∧ PopupState.frames (PopupState.mergeState u pg)
            = S (PopupState.frames pg)
          ∧ PopupState.drawn (PopupState.mergeState u pg)
            = PopupState.drawn pg) as (Hq1 & Hf1 & Hd1).
  { unfold PopupState.mergeState, PopupState.queueRender. simpl.
    by rewrite Hq. }
  destruct (StateFacts.mergeState_all_queued us _ Hq1) as (Hq' & Hf' & Hd').
  fold pg' in Hq', Hf', Hd'.
  assert (PopupState.frames pg' = S (PopupState.frames pg)) as Hf
    by congruence.
  assert (PopupState.drawn pg' = PopupState.drawn pg) as Hd by congruence.
  split; [done |]. split; [done |]. split; [done |].
  split; [simpl; by rewrite Hd |].
  split; [simpl; by rewrite Hf |].
  intros u'. unfold PopupState.mergeState, PopupState.queueRender. simpl.
  by rewrite Hf.
Qed.

Lemma render_coalesced_witness :
  PopupState.frames
    (foldl (λ p u, PopupState.mergeState u p) PopupState.initial_page
       [ [("phase", JStr "fetching")];
         [("status", JObj [("message", JStr "Retrieving data...")])];
         [("loading", JObj [("primary", JBool true)])] ])
  = 1%nat.
Proof.
  apply (render_coalesced
           [ [("phase", JStr "fetching")];
             [("status", JObj [("message", JStr "Retrieving data...")])];
             [("loading", JObj [("primary", JBool true)])] ]
           PopupState.initial_page); [reflexivity | discriminate].
Defined.

(** ** The content script *)

(** X24. What the content script asks of the worker.  On a page whose
    URL is not valid it sends nothing.  Otherwise it sends two
    messages: the worker acknowledges the first at once with the
    normalized URL, or the page URL when that is empty, and does not
    answer the second, whose action it does not know; neither message
    changes the worker's state, so the content script never fills or
    reads the cache. *)
Theorem content_messages (normalizeTikTokUrl : string → string)
    (href : string) (st : state) :
  (Content.isValidTikTokUrl href = false →
   Content.processCurrentPage normalizeTikTokUrl href = [])
  ∧ (Content.isValidTikTokUrl href = true →
     ∃ detected check,
       Content.processCurrentPage normalizeTikTokUrl href = [detected; check]
       ∧ onMessage (Some detected) st
         = (Replied (ReplyAck
              (Some (if truthy_str (normalizeTikTokUrl href)
                     then normalizeTikTokUrl href else href))), st)
       ∧ onMessage (Some check) st = (Ignored, st))
  ∧ (∀ msg, msg ∈ Content.processCurrentPage normalizeTikTokUrl href →
       exec (onMessage (Some msg)) st = st).
Proof.
  unfold Content.processCurrentPage.
  destruct (Content.isValidTikTokUrl href); simpl.
  - split; [done |]. split.
    + intros _. do 2 eexists. split; [done |]. split; [| done].
      unfold onMessage. simpl. unfold ret.
      by destruct (truthy_str (normalizeTikTokUrl href)).
    + intros msg Hin.
      apply elem_of_cons in Hin as [-> | Hin]; [done |].
      apply list_elem_of_singleton in Hin as ->. done.
  - split; [done |]. split; [done |].
    intros msg Hin. by apply elem_of_nil in Hin.
Qed.

Lemma content_messages_witness :
  ∃ detected check,
    Content.processCurrentPage (λ u, u) "https://vm.tiktok.com/ZM123/"
    = [detected; check]
    ∧ onMessage (Some detected) sample_state
      = (Replied (ReplyAck (Some "https://vm.tiktok.com/ZM123/")),
         sample_state)
    ∧ onMessage (Some check) sample_state = (Ignored, sample_state).
Proof.
  apply (content_messages (λ u, u) "https://vm.tiktok.com/ZM123/"
           sample_state).
  vm_compute. reflexivity.
Defined.
